(** * gradient-dither: the dithering and gradient core

    A shallow embedding of [src/lib/dithering.js] and [src/lib/gradients.js],
    and the properties of the specification checked against it.

    Numbers.  JavaScript numbers are IEEE-754 binary64 values.  The functions
    below are written once, over an interface [arith] of the operations the
    source uses, and read in two ways:

    - [binary64]: the arithmetic the program runs, on [spec_float] with
      precision 53 and exponent bound 1024 (every operation correctly rounded,
      a [Float32Array] store rounded to binary32);
    - [exact]: the same operations on rationals without rounding, plus one
      NaN.  There are no infinities (a division by zero is NaN) and a
      [Float32Array] store keeps the value.  This is the reading in which
      the formulas of the specification are meant.

    Loop counters, buffer dimensions and the indices made from them are
    integers that binary64 represents exactly; they are kept in [Z].

    Properties of the shape of the buffers hold in every arithmetic and are
    proved for any [arith]; identities between numbers are proved in
    [exact]; a claim is refuted by evaluation, in [binary64] where the
    values matter. *)

From Stdlib Require Import ZArith QArith Qround Qabs Lia Lqa String Ascii.
From Stdlib Require Import Floats.SpecFloat.
From stdpp Require Import base tactics option list list_numbers gmap strings.

Local Open Scope Z_scope.

(** ** The arithmetic interface *)

Record arith := Arith {
  num : Type;
  of_Z : Z -> num;
  NaN : num;
  add : num -> num -> num;
  sub : num -> num -> num;
  mul : num -> num -> num;
  div : num -> num -> num;
  rem : num -> num -> num;                 (* the % operator *)
  lt : num -> num -> bool;
  le : num -> num -> bool;
  Math_floor : num -> num;
  Math_ceil : num -> num;
  Math_round : num -> num;
  Math_min : num -> num -> num;
  Math_max : num -> num -> num;
  to_int : num -> Z;                       (* integer part; 0 for NaN *)
  to_index : num -> option Z;              (* the integer a number is, if any *)
  fround : num -> num;                     (* store into a Float32Array *)
  to_uint8_clamp : num -> Z                (* store into a Uint8ClampedArray *)
}.

(** What a store into a [Uint8ClampedArray] guarantees: the stored sample is
    in [0,255], and 255 is stored as 255. *)
Definition clamps (A : arith) : Prop :=
  (forall x : num A, 0 <= to_uint8_clamp A x <= 255)
  /\ to_uint8_clamp A (of_Z A 255) = 255.

(** ** Rounding shared by both readings *)

Definition Qtrunc (q : Q) : Z :=
  if Qle_bool 0 q then Qfloor q else Qceiling q.

Definition Qltb (a b : Q) : bool := negb (Qle_bool b a).

(** Math.round: the nearest integer, a tie going up. *)
Definition Qround_half_up (q : Q) : Z := Qfloor (q + (1 # 2)).

(** ToUint8Clamp of ECMAScript: clamp to [0,255], then round, a tie going to
    the even neighbour. *)
Definition clamp8 (q : Q) : Z :=
  if Qle_bool q 0 then 0
  else if Qle_bool 255 q then 255
  else
    let f := Qfloor q in
    if Qltb (inject_Z f + (1 # 2)) q then f + 1
    else if Qltb q (inject_Z f + (1 # 2)) then f
    else if Z.even f then f else f + 1.

(** ** Exact arithmetic: rationals and one NaN *)

Module Exact.

Definition t := option Q.

Definition lift2 (f : Q -> Q -> Q) (a b : t) : t :=
  match a, b with
  | Some x, Some y => Some (f x y)
  | _, _ => None
  end.

Definition lift1 (f : Q -> Z) (a : t) : t :=
  match a with
  | Some x => Some (inject_Z (f x))
  | None => None
  end.

Definition cmp (f : Q -> Q -> bool) (a b : t) : bool :=
  match a, b with
  | Some x, Some y => f x y
  | _, _ => false
  end.

(** A division by zero has no rational value; it is NaN here (JavaScript
    gives an infinity for a non-zero dividend). *)
Definition div (a b : t) : t :=
  match a, b with
  | Some x, Some y => if Qeq_bool y 0 then None else Some (x / y)%Q
  | _, _ => None
  end.

Definition rem (a b : t) : t :=
  match a, b with
  | Some x, Some y =>
      if Qeq_bool y 0 then None
      else Some (x - y * inject_Z (Qtrunc (x / y)))%Q
  | _, _ => None
  end.

Definition min (a b : t) : t :=
  lift2 (fun x y => if Qle_bool x y then x else y) a b.

Definition max (a b : t) : t :=
  lift2 (fun x y => if Qle_bool x y then y else x) a b.

Definition to_int (a : t) : Z :=
  match a with Some x => Qtrunc x | None => 0 end.

Definition to_index (a : t) : option Z :=
  match a with
  | Some x => if Qeq_bool x (inject_Z (Qfloor x)) then Some (Qfloor x) else None
  | None => None
  end.

Definition to_uint8_clamp (a : t) : Z :=
  match a with Some x => clamp8 x | None => 0 end.

End Exact.

Definition exact : arith := {|
  num := Exact.t;
  of_Z := fun z => Some (inject_Z z);
  NaN := None;
  add := Exact.lift2 Qplus;
  sub := Exact.lift2 Qminus;
  mul := Exact.lift2 Qmult;
  div := Exact.div;
  rem := Exact.rem;
  lt := Exact.cmp Qltb;
  le := Exact.cmp Qle_bool;
  Math_floor := Exact.lift1 Qfloor;
  Math_ceil := Exact.lift1 Qceiling;
  Math_round := Exact.lift1 Qround_half_up;
  Math_min := Exact.min;
  Math_max := Exact.max;
  to_int := Exact.to_int;
  to_index := Exact.to_index;
  fround := fun x => x;
  to_uint8_clamp := Exact.to_uint8_clamp
|}.

(** ** Binary64 arithmetic *)

Module Binary64.

Definition t := spec_float.

Definition prec : Z := 53.
Definition emax : Z := 1024.

Definition of_Z (z : Z) : t := binary_normalize prec emax z 0 false.

(** The rational a finite value stands for. *)
Definition to_Q (x : t) : option Q :=
  match x with
  | S754_zero _ => Some 0%Q
  | S754_finite s m e =>
      let v := if s then Z.neg m else Z.pos m in
      Some (if 0 <=? e then inject_Z (v * 2 ^ e)
            else (v # Z.to_pos (2 ^ (- e))))%Q
  | _ => None
  end.

(** Back from a dyadic rational; exact when it is representable. *)
Definition of_Q (q : Q) : t :=
  let q := Qred q in
  binary_normalize prec emax (Qnum q) (- Z.log2 (Z.pos (Qden q))) false.

(** Math.floor, Math.ceil and Math.round leave zeros, infinities and NaN as
    they are.  The sign of a zero result is not tracked: no comparison or
    store of the program distinguishes the two zeros. *)
Definition lift1 (f : Q -> Z) (x : t) : t :=
  match x with
  | S754_finite _ _ _ =>
      match to_Q x with Some q => of_Z (f q) | None => x end
  | _ => x
  end.

Definition is_nan (x : t) : bool :=
  match x with S754_nan => true | _ => false end.

Definition min (a b : t) : t :=
  if is_nan a || is_nan b then S754_nan
  else if SFltb b a then b else a.

Definition max (a b : t) : t :=
  if is_nan a || is_nan b then S754_nan
  else if SFltb a b then b else a.

Definition rem (a b : t) : t :=
  match a, b with
  | S754_nan, _ | _, S754_nan | S754_infinity _, _ | _, S754_zero _ => S754_nan
  | _, S754_infinity _ | S754_zero _, _ => a
  | _, _ =>
      match to_Q a, to_Q b with
      | Some x, Some y => of_Q (x - y * inject_Z (Qtrunc (x / y)))
      | _, _ => S754_nan
      end
  end.

Definition to_int (x : t) : Z :=
  match to_Q x with Some q => Qtrunc q | None => 0 end.

Definition to_index (x : t) : option Z :=
  match to_Q x with
  | Some q => if Qeq_bool q (inject_Z (Qfloor q)) then Some (Qfloor q) else None
  | None => None
  end.

(** Rounding to binary32 (precision 24, exponent bound 128); the result is
    put back in binary64 form. *)
Definition fround (x : t) : t :=
  match x with
  | S754_finite s m e =>
      match binary_round 24 128 s m e with
      | S754_finite s' m' e' =>
          binary_normalize prec emax (if s' then Z.neg m' else Z.pos m') e' s'
      | y => y
      end
  | _ => x
  end.

Definition to_uint8_clamp (x : t) : Z :=
  match x with
  | S754_infinity false => 255
  | S754_finite _ _ _ =>
      match to_Q x with Some q => clamp8 q | None => 0 end
  | _ => 0
  end.

End Binary64.

Definition binary64 : arith := {|
  num := Binary64.t;
  of_Z := Binary64.of_Z;
  NaN := S754_nan;
  add := SFadd Binary64.prec Binary64.emax;
  sub := SFsub Binary64.prec Binary64.emax;
  mul := SFmul Binary64.prec Binary64.emax;
  div := SFdiv Binary64.prec Binary64.emax;
  rem := Binary64.rem;
  lt := SFltb;
  le := SFleb;
  Math_floor := Binary64.lift1 Qfloor;
  Math_ceil := Binary64.lift1 Qceiling;
  Math_round := Binary64.lift1 Qround_half_up;
  Math_min := Binary64.min;
  Math_max := Binary64.max;
  to_int := Binary64.to_int;
  to_index := Binary64.to_index;
  fround := Binary64.fround;
  to_uint8_clamp := Binary64.to_uint8_clamp
|}.

(** ** Loops and typed arrays *)

(** [for (let i = 0; i < n; i++) s = body i s] *)
Definition for_ {S : Type} (n : Z) (body : Z -> S -> S) (s : S) : S :=
  foldl (fun s i => body i s) s (seqZ 0 n).

(** [a[i]] for an integer [i]; [None] is undefined. *)
Definition get {T : Type} (a : list T) (i : Z) : option T :=
  if 0 <=? i then a !! Z.to_nat i else None.

(** [a[i] = v] on a typed array: a store outside the array is dropped. *)
Definition set {T : Type} (a : list T) (i : Z) (v : T) : list T :=
  if 0 <=? i then <[Z.to_nat i := v]> a else a.

Inductive rgb (C : Type) := Rgb { r : C; g : C; b : C }.
Arguments Rgb {C} _ _ _.
Arguments r {C} _.
Arguments g {C} _.
Arguments b {C} _.

(** ** Bayer matrices (integers only) *)

Definition BAYER_2 : list (list Z) :=
  [ [0; 2];
    [3; 1] ].

Definition BAYER_4 : list (list Z) :=
  [ [0;  8;  2;  10];
    [12; 4;  14; 6];
    [3;  11; 1;  9];
    [15; 7;  13; 5] ].

Definition BAYER_8 : list (list Z) :=
  [ [0;  32; 8;  40; 2;  34; 10; 42];
    [48; 16; 56; 24; 50; 18; 58; 26];
    [12; 44; 4;  36; 14; 46; 6;  38];
    [60; 28; 52; 20; 62; 30; 54; 22];
    [3;  35; 11; 43; 1;  33; 9;  41];
    [51; 19; 59; 27; 49; 17; 57; 25];
    [15; 47; 7;  39; 13; 45; 5;  37];
    [63; 31; 55; 23; 61; 29; 53; 21] ].

(** [m[y][x]] *)
Definition mat_get (m : list (list Z)) (y x : Z) : option Z :=
  row ← get m y; get row x.

(** One entry of the doubled matrix: [4 * smaller[sy][sx] + offsets[quadrant]]. *)
Definition bayer_entry (smaller : list (list Z)) (half y x : Z) : option Z :=
  let sy := Z.rem y half in
  let sx := Z.rem x half in
  let quadrant := (y / half) * 2 + x / half in
  let offsets := [0; 2; 3; 1] in
  s ← mat_get smaller sy sx;
  o ← get offsets quadrant;
  Some (4 * s + o).

(** [generateBayerMatrix].  The recursion of the source stops only at
    [size === 2]; [fuel] bounds its depth and [None] stands for a call that
    does not return.  For an odd [size] the source goes on with the
    non-integer [size / 2], which no halving brings to 2. *)
Fixpoint generateBayerMatrix (fuel : nat) (size : Z) : option (list (list Z)) :=
  match fuel with
  | O => None
  | S fuel =>
      if size =? 2 then Some BAYER_2
      else if Z.even size then
        let half := size / 2 in
        smaller ← generateBayerMatrix fuel half;
        for_ size (fun y matrix =>
          row ← for_ size (fun x row =>
                   row ← row;
                   v ← bayer_entry smaller half y x;
                   Some (row ++ [v])) (Some []);
          matrix ← matrix;
          Some (matrix ++ [row])) (Some [])
      else None
  end.

Definition BAYER_16 : list (list Z) :=
  Eval vm_compute in default [] (generateBayerMatrix 4 16).

(** The buffers of a diffusion run. *)
Inductive buffer := Pixels | Scaled | Output.

(** ** Colour stops *)

Definition hex_digit (c : ascii) : option Z :=
  let n := Z.of_N (N_of_ascii c) in
  if (48 <=? n) && (n <=? 57) then Some (n - 48)
  else if (97 <=? n) && (n <=? 102) then Some (n - 87)
  else if (65 <=? n) && (n <=? 70) then Some (n - 55)
  else None.

(** The pattern is [^#?([a-f\d]{2})([a-f\d]{2})([a-f\d]{2})$], letter case
    ignored; a string that does not match is black. *)
Definition hexToRgb (hex : string) : rgb Z :=
  let digits :=
    match hex with
    | String "#" rest => rest
    | _ => hex
    end in
  match map hex_digit (list_ascii_of_string digits) with
  | [Some r1; Some r0; Some g1; Some g0; Some b1; Some b0] =>
      Rgb (16 * r1 + r0) (16 * g1 + g0) (16 * b1 + b0)
  | _ => Rgb 0 0 0
  end.

(** What the gradient generators use of a p5 graphics context. *)
Record graphics := Graphics {
  g_width : Z; g_height : Z; g_density : Z; g_pixels : list Z
}.

Record bayer := Bayer { bm_matrix : list (list Z); bm_size : Z; bm_max : Z }.

Section Model.

Context (A : arith).

Local Notation "x + y" := (add A x y).
Local Notation "x - y" := (sub A x y).
Local Notation "x * y" := (mul A x y).
Local Notation "x / y" := (div A x y).
Local Notation "x % y" := (rem A x y) (at level 40, left associativity).
Local Notation "x <? y" := (lt A x y).
Local Notation "x <=? y" := (le A x y).
Local Notation "# z" := (of_Z A z) (at level 5, format "# z").
Local Notation "'0.5'" := (div A (of_Z A 1) (of_Z A 2)).

(** Reading an element as a number: undefined becomes NaN in arithmetic and
    in a typed-array store. *)
Definition load8 (a : list Z) (i : Z) : num A :=
  from_option (of_Z A) (NaN A) (get a i).

Definition load32 (a : list (num A)) (i : Z) : num A :=
  default (NaN A) (get a i).

(** [a[i]] where the index is a computed number: only an integer addresses an
    element. *)
Definition load8_at (a : list Z) (i : num A) : num A :=
  from_option (load8 a) (NaN A) (to_index A i).

Definition load32_at (a : list (num A)) (i : num A) : num A :=
  from_option (load32 a) (NaN A) (to_index A i).

Definition store8 (a : list Z) (i : Z) (v : num A) : list Z :=
  set a i (to_uint8_clamp A v).

Definition store32 (a : list (num A)) (i : Z) (v : num A) : list (num A) :=
  set a i (fround A v).

(** [a[i] += v] on a Float32Array *)
Definition add32 (a : list (num A)) (i : Z) (v : num A) : list (num A) :=
  store32 a i (load32 a i + v).

Definition getBayerMatrix (size : num A) : bayer :=
  if size <=? #2 then Bayer BAYER_2 2 4
  else if size <=? #4 then Bayer BAYER_4 4 16
  else if size <=? #8 then Bayer BAYER_8 8 64
  else Bayer BAYER_16 16 256.

Definition quantize (value levels : num A) : num A :=
  let step := #255 / (levels - #1) in
  Math_round A (Math_round A (value / step) * step).

Definition bayerDither (pixels : list Z) (width height : Z)
    (strength size colorLevels : num A) : list Z :=
  let output := pixels in
  let '(Bayer matrix matrixSize max) := getBayerMatrix size in
  for_ height (fun y =>
    for_ width (fun x output =>
      let idx := (4 * (y * width + x))%Z in
      let mx := Z.rem x matrixSize in
      let my := Z.rem y matrixSize in
      let threshold :=
        (from_option (of_Z A) (NaN A) (mat_get matrix my mx) / #max - 0.5)
        * strength * #255 in
      for_ 3 (fun c output =>
        let value := load8 pixels (idx + c)%Z + threshold in
        let value := Math_max A #0 (Math_min A #255 value) in
        store8 output (idx + c)%Z (quantize value colorLevels)) output)) output.

(** The shell shared by the two diffusion algorithms: nearest-neighbour
    downsampling into a Float32Array ... *)
Definition downsample (pixels : list Z) (width : Z) (scale : num A)
    (scaledWidth scaledHeight : Z) : list (num A) :=
  let scaled := replicate (Z.to_nat (scaledWidth * scaledHeight * 4)) #0 in
  for_ scaledHeight (fun y =>
    for_ scaledWidth (fun x scaled =>
      let srcX := #x * scale in
      let srcY := #y * scale in
      let srcIdx := #4 * (srcY * #width + srcX) in
      let dstIdx := (4 * (y * scaledWidth + x))%Z in
      let scaled := store32 scaled dstIdx (load8_at pixels srcIdx) in
      let scaled := store32 scaled (dstIdx + 1)%Z (load8_at pixels (srcIdx + #1)) in
      let scaled := store32 scaled (dstIdx + 2)%Z (load8_at pixels (srcIdx + #2)) in
      store32 scaled (dstIdx + 3)%Z #255)) scaled.

(** ... and nearest-neighbour upsampling into a fresh Uint8ClampedArray. *)
Definition upsample (pixels : list Z) (width height : Z) (scale : num A)
    (scaledWidth scaledHeight : Z) (scaled : list (num A)) : list Z :=
  let output := replicate (length pixels) 0%Z in
  for_ height (fun y =>
    for_ width (fun x output =>
      let srcX := Math_min A (Math_floor A (#x / scale)) #(scaledWidth - 1) in
      let srcY := Math_min A (Math_floor A (#y / scale)) #(scaledHeight - 1) in
      let srcIdx := #4 * (srcY * #scaledWidth + srcX) in
      let dstIdx := (4 * (y * width + x))%Z in
      let output := store8 output dstIdx
        (Math_max A #0 (Math_min A #255 (load32_at scaled srcIdx))) in
      let output := store8 output (dstIdx + 1)%Z
        (Math_max A #0 (Math_min A #255 (load32_at scaled (srcIdx + #1)))) in
      let output := store8 output (dstIdx + 2)%Z
        (Math_max A #0 (Math_min A #255 (load32_at scaled (srcIdx + #2)))) in
      store8 output (dstIdx + 3)%Z #255)) output.

(** The body of Floyd-Steinberg's channel loop at pixel (x, y). *)
Definition fs_channel (scaledWidth scaledHeight : Z) (strength colorLevels : num A)
    (x y c : Z) (scaled : list (num A)) : list (num A) :=
  let idx := (4 * (y * scaledWidth + x))%Z in
  let oldValue := load32 scaled (idx + c)%Z in
  let newValue := quantize oldValue colorLevels in
  let scaled := store32 scaled (idx + c)%Z newValue in
  let error := (oldValue - newValue) * strength in
  let scaled :=
    if (x + 1 <? scaledWidth)%Z
    then add32 scaled (idx + 4 + c)%Z (error * #7 / #16) else scaled in
  if (y + 1 <? scaledHeight)%Z then
    let scaled :=
      if (0 <? x)%Z
      then add32 scaled (idx + scaledWidth * 4 - 4 + c)%Z (error * #3 / #16)
      else scaled in
    let scaled := add32 scaled (idx + scaledWidth * 4 + c)%Z (error * #5 / #16) in
    if (x + 1 <? scaledWidth)%Z
    then add32 scaled (idx + scaledWidth * 4 + 4 + c)%Z (error * #1 / #16)
    else scaled
  else scaled.

Definition floydSteinbergDither (pixels : list Z) (width height : Z)
    (strength scale colorLevels : num A) : list Z :=
  let scaledWidth := to_int A (Math_floor A (#width / scale)) in
  let scaledHeight := to_int A (Math_floor A (#height / scale)) in
  let scaled := downsample pixels width scale scaledWidth scaledHeight in
  let scaled :=
    for_ scaledHeight (fun y =>
      for_ scaledWidth (fun x =>
        for_ 3 (fun c => fs_channel scaledWidth scaledHeight strength colorLevels x y c)))
      scaled in
  upsample pixels width height scale scaledWidth scaledHeight scaled.

(** The body of Atkinson's channel loop at pixel (x, y). *)
Definition atkinson_channel (scaledWidth scaledHeight : Z) (strength colorLevels : num A)
    (x y c : Z) (scaled : list (num A)) : list (num A) :=
  let idx := (4 * (y * scaledWidth + x))%Z in
  let oldValue := load32 scaled (idx + c)%Z in
  let newValue := quantize oldValue colorLevels in
  let scaled := store32 scaled (idx + c)%Z newValue in
  let error := (oldValue - newValue) * strength / #8 in
  let scaled :=
    if (x + 1 <? scaledWidth)%Z then add32 scaled (idx + 4 + c)%Z error else scaled in
  let scaled :=
    if (x + 2 <? scaledWidth)%Z then add32 scaled (idx + 8 + c)%Z error else scaled in
  let scaled :=
    if (y + 1 <? scaledHeight)%Z then
      let scaled :=
        if (0 <? x)%Z
        then add32 scaled (idx + scaledWidth * 4 - 4 + c)%Z error else scaled in
      let scaled := add32 scaled (idx + scaledWidth * 4 + c)%Z error in
      if (x + 1 <? scaledWidth)%Z
      then add32 scaled (idx + scaledWidth * 4 + 4 + c)%Z error else scaled
    else scaled in
  if (y + 2 <? scaledHeight)%Z
  then add32 scaled (idx + scaledWidth * 8 + c)%Z error
  else scaled.

Definition atkinsonDither (pixels : list Z) (width height : Z)
    (strength scale colorLevels : num A) : list Z :=
  let scaledWidth := to_int A (Math_floor A (#width / scale)) in
  let scaledHeight := to_int A (Math_floor A (#height / scale)) in
  let scaled := downsample pixels width scale scaledWidth scaledHeight in
  let scaled :=
    for_ scaledHeight (fun y =>
      for_ scaledWidth (fun x =>
        for_ 3 (fun c =>
          atkinson_channel scaledWidth scaledHeight strength colorLevels x y c)))
      scaled in
  upsample pixels width height scale scaledWidth scaledHeight scaled.

(** [random i] is the value of the i-th call of Math.random. *)
Definition randomDither (random : Z -> num A) (pixels : list Z) (width height : Z)
    (strength grainSize colorLevels : num A) : list Z :=
  let output := pixels in
  let noiseWidth := to_int A (Math_ceil A (#width / grainSize)) in
  let noiseHeight := to_int A (Math_ceil A (#height / grainSize)) in
  let noise := replicate (Z.to_nat (noiseWidth * noiseHeight)) #0 in
  let noise :=
    for_ (Z.of_nat (length noise)) (fun i noise =>
      store32 noise i ((random i - 0.5) * strength * #255)) noise in
  for_ height (fun y =>
    for_ width (fun x output =>
      let idx := (4 * (y * width + x))%Z in
      let nx := Math_floor A (#x / grainSize) in
      let ny := Math_floor A (#y / grainSize) in
      let noiseVal := load32_at noise (ny * #noiseWidth + nx) in
      for_ 3 (fun c output =>
        let value := load8 pixels (idx + c)%Z + noiseVal in
        let value := Math_max A #0 (Math_min A #255 value) in
        store8 output (idx + c)%Z (quantize value colorLevels)) output)) output.

Definition applyDither (random : Z -> num A) (pixels : list Z) (width height : Z)
    (algorithm : string) (strength size colorLevels : num A) : list Z :=
  if String.eqb algorithm "bayer" then
    bayerDither pixels width height strength size colorLevels
  else if String.eqb algorithm "floyd-steinberg" then
    floydSteinbergDither pixels width height strength (Math_max A #1 size) colorLevels
  else if String.eqb algorithm "atkinson" then
    atkinsonDither pixels width height strength (Math_max A #1 size) colorLevels
  else if String.eqb algorithm "random" then
    randomDither random pixels width height strength (Math_max A #1 size) colorLevels
  else pixels.

(** *** Buffers as objects

    Every branch of [applyDither] builds its result in a new
    Uint8ClampedArray and only reads [pixels].  With buffers held in a store
    and passed by reference, a call allocates the result and returns its
    reference. *)
Definition alloc (h : gmap nat (list Z)) (a : list Z) : gmap nat (list Z) * nat :=
  let l := fresh (dom h) in (<[l := a]> h, l).

Definition applyDither_ref (h : gmap nat (list Z)) (random : Z -> num A)
    (pixels : nat) (width height : Z) (algorithm : string)
    (strength size colorLevels : num A) : option (gmap nat (list Z) * nat) :=
  a ← h !! pixels;
  Some (alloc h (applyDither random a width height algorithm strength size colorLevels)).

(** *** The indices the diffusion algorithms compute

    The elements that [floydSteinbergDither] and [atkinsonDither] read or
    write, in program order: the buffer and the index, [None] when the
    computed number is not an integer.  An element read and then written by
    one statement, or by two statements in a row, is listed once. *)
Definition downsample_accesses (width : Z) (scale : num A)
    (scaledWidth scaledHeight : Z) : list (buffer * option Z) :=
  y ← seqZ 0 scaledHeight;
  x ← seqZ 0 scaledWidth;
  let srcX := #x * scale in
  let srcY := #y * scale in
  let srcIdx := #4 * (srcY * #width + srcX) in
  let dstIdx := (4 * (y * scaledWidth + x))%Z in
  [ (Pixels, to_index A srcIdx); (Scaled, Some dstIdx);
    (Pixels, to_index A (srcIdx + #1)); (Scaled, Some (dstIdx + 1)%Z);
    (Pixels, to_index A (srcIdx + #2)); (Scaled, Some (dstIdx + 2)%Z);
    (Scaled, Some (dstIdx + 3)%Z) ].

Definition upsample_accesses (width height : Z) (scale : num A)
    (scaledWidth scaledHeight : Z) : list (buffer * option Z) :=
  y ← seqZ 0 height;
  x ← seqZ 0 width;
  let srcX := Math_min A (Math_floor A (#x / scale)) #(scaledWidth - 1) in
  let srcY := Math_min A (Math_floor A (#y / scale)) #(scaledHeight - 1) in
  let srcIdx := #4 * (srcY * #scaledWidth + srcX) in
  let dstIdx := (4 * (y * width + x))%Z in
  [ (Scaled, to_index A srcIdx); (Output, Some dstIdx);
    (Scaled, to_index A (srcIdx + #1)); (Output, Some (dstIdx + 1)%Z);
    (Scaled, to_index A (srcIdx + #2)); (Output, Some (dstIdx + 2)%Z);
    (Output, Some (dstIdx + 3)%Z) ].

Definition fs_channel_accesses (scaledWidth scaledHeight x y c : Z)
    : list (buffer * option Z) :=
  let idx := (4 * (y * scaledWidth + x))%Z in
  [ (Scaled, Some (idx + c)%Z) ]
  ++ (if (x + 1 <? scaledWidth)%Z then [ (Scaled, Some (idx + 4 + c)%Z) ] else [])
  ++ (if (y + 1 <? scaledHeight)%Z then
        (if (0 <? x)%Z then [ (Scaled, Some (idx + scaledWidth * 4 - 4 + c)%Z) ] else [])
        ++ [ (Scaled, Some (idx + scaledWidth * 4 + c)%Z) ]
        ++ (if (x + 1 <? scaledWidth)%Z
            then [ (Scaled, Some (idx + scaledWidth * 4 + 4 + c)%Z) ] else [])
      else []).

Definition atkinson_channel_accesses (scaledWidth scaledHeight x y c : Z)
    : list (buffer * option Z) :=
  let idx := (4 * (y * scaledWidth + x))%Z in
  [ (Scaled, Some (idx + c)%Z) ]
  ++ (if (x + 1 <? scaledWidth)%Z then [ (Scaled, Some (idx + 4 + c)%Z) ] else [])
  ++ (if (x + 2 <? scaledWidth)%Z then [ (Scaled, Some (idx + 8 + c)%Z) ] else [])
  ++ (if (y + 1 <? scaledHeight)%Z then
        (if (0 <? x)%Z then [ (Scaled, Some (idx + scaledWidth * 4 - 4 + c)%Z) ] else [])
        ++ [ (Scaled, Some (idx + scaledWidth * 4 + c)%Z) ]
        ++ (if (x + 1 <? scaledWidth)%Z
            then [ (Scaled, Some (idx + scaledWidth * 4 + 4 + c)%Z) ] else [])
      else [])
  ++ (if (y + 2 <? scaledHeight)%Z
      then [ (Scaled, Some (idx + scaledWidth * 8 + c)%Z) ] else []).

Definition diffusion_accesses
    (channel_accesses : Z -> Z -> Z -> Z -> Z -> list (buffer * option Z))
    (width height : Z) (scale : num A) : list (buffer * option Z) :=
  let scaledWidth := to_int A (Math_floor A (#width / scale)) in
  let scaledHeight := to_int A (Math_floor A (#height / scale)) in
  downsample_accesses width scale scaledWidth scaledHeight
  ++ (y ← seqZ 0 scaledHeight; x ← seqZ 0 scaledWidth; c ← seqZ 0 3;
      channel_accesses scaledWidth scaledHeight x y c)
  ++ upsample_accesses width height scale scaledWidth scaledHeight.

Definition floydSteinberg_accesses := diffusion_accesses fs_channel_accesses.
Definition atkinson_accesses := diffusion_accesses atkinson_channel_accesses.

(** The length of each buffer of a diffusion run on [pixels]. *)
Definition buffer_length (pixels : list Z) (width height : Z) (scale : num A)
    (b : buffer) : Z :=
  match b with
  | Pixels | Output => Z.of_nat (length pixels)
  | Scaled =>
      Z.of_nat (Z.to_nat (to_int A (Math_floor A (#width / scale))
                          * to_int A (Math_floor A (#height / scale)) * 4))
  end.

(** ** Gradients *)

Definition lerpColors (colors : list string) (t : num A) : option (rgb (num A)) :=
  let rgbColors := hexToRgb <$> colors in
  let segments := (Z.of_nat (length rgbColors) - 1)%Z in
  let segment := Math_min A (Math_floor A (t * #segments)) #(segments - 1) in
  let localT := (t * #segments) - segment in
  (* reading a channel of an undefined stop throws: None *)
  c1 ← to_index A segment ≫= get rgbColors;
  c2 ← to_index A (segment + #1) ≫= get rgbColors;
  Some (Rgb (Math_round A (#(r c1) + (#(r c2) - #(r c1)) * localT))
            (Math_round A (#(g c1) + (#(g c2) - #(g c1)) * localT))
            (Math_round A (#(b c1) + (#(b c2) - #(b c1)) * localT))).

Context (Math_sqrt Math_cos Math_sin : num A -> num A).
Context (Math_atan2 : num A -> num A -> num A).
Context (Math_PI : num A).

(** The position [t] that [createRadialGradient] passes to [lerpColors] at
    pixel (x, y); [d] is the pixel density. *)
Definition radial_t (d : Z) (cx cy rotation size : num A) (x y : Z) : num A :=
  let dx := #x - cx * #d in
  let dy := #y - cy * #d in
  let dist := Math_sqrt (dx * dx + dy * dy) in
  let maxDist := size * #d * 0.5 in
  let t := Math_min A (dist / maxDist) #1 in
  let rotationOffset := (rotation / (#2 * Math_PI)) % #1 in
  let t := (t + rotationOffset) % #1 in
  if t <? #0 then t + #1 else t.

Definition linear_t (d w h : Z) (rotation size : num A) (x y : Z) : num A :=
  let cx := #w / #2 in
  let cy := #h / #2 in
  let dirX := Math_cos rotation in
  let dirY := Math_sin rotation in
  let dx := #x - cx in
  let dy := #y - cy in
  let proj := dx * dirX + dy * dirY in
  let maxProj := size * #d * 0.5 in
  let t := (proj + maxProj) / (#2 * maxProj) in
  Math_max A #0 (Math_min A #1 t).

Definition conic_t (d : Z) (cx cy rotation : num A) (x y : Z) : num A :=
  let dx := #x - cx * #d in
  let dy := #y - cy * #d in
  let angle := Math_atan2 dy dx in
  let angle := angle + rotation in
  let t := (angle + Math_PI) / (#2 * Math_PI) in
  let t := t % #1 in
  if t <? #0 then t + #1 else t.

(** Filling the pixels of a graphics context: [position x y] is the [t] of
    the gradient at hand.  [None] when [lerpColors] throws. *)
Definition fill_gradient (gr : graphics) (colors : list string)
    (position : Z -> Z -> num A) : option graphics :=
  let d := g_density gr in
  let w := (g_width gr * d)%Z in
  let h := (g_height gr * d)%Z in
  pixels ← for_ h (fun y =>
    for_ w (fun x pixels =>
      pixels ← pixels;
      color ← lerpColors colors (position x y);
      let idx := (4 * (y * w + x))%Z in
      let pixels := store8 pixels idx (r color) in
      let pixels := store8 pixels (idx + 1)%Z (g color) in
      let pixels := store8 pixels (idx + 2)%Z (b color) in
      Some (store8 pixels (idx + 3)%Z #255))) (Some (g_pixels gr));
  Some (Graphics (g_width gr) (g_height gr) d pixels).

Definition createRadialGradient (gr : graphics) (cx cy : num A)
    (colors : list string) (rotation size : num A) : option graphics :=
  fill_gradient gr colors (radial_t (g_density gr) cx cy rotation size).

Definition createLinearGradient (gr : graphics) (colors : list string)
    (rotation size : num A) : option graphics :=
  let d := g_density gr in
  fill_gradient gr colors
    (linear_t d (g_width gr * d) (g_height gr * d) rotation size).

Definition createConicGradient (gr : graphics) (cx cy : num A)
    (colors : list string) (rotation size : num A) : option graphics :=
  fill_gradient gr colors (conic_t (g_density gr) cx cy rotation).

End Model.

(** ** The canvas component *)

Section Canvas.

Context (A : arith).

Local Notation "x + y" := (add A x y).
Local Notation "x - y" := (sub A x y).
Local Notation "x * y" := (mul A x y).
Local Notation "x / y" := (div A x y).
Local Notation "# z" := (of_Z A z) (at level 5, format "# z").

(** [compositeGradientWithMask], on the pixel arrays of the three graphics
    buffers: the gradient shows where the mask is white, the background
    colour where it is black.  The loop
    [for (i = 0; i < gradBuf.pixels.length; i += 4)] runs once for every
    started group of four samples; the result is the pixel array of
    [compBuf]. *)
Definition compositeGradientWithMask (gradBuf maskBuf compBuf : list Z)
    (bgColor : string) : list Z :=
  let bg := hexToRgb bgColor in
  for_ ((Z.of_nat (length gradBuf) + 3) / 4) (fun k compBuf =>
    let i := (4 * k)%Z in
    let maskValue := load8 A maskBuf i / #255 in
    let compBuf := store8 A compBuf i
      (Math_round A (load8 A gradBuf i * maskValue + #(r bg) * (#1 - maskValue))) in
    let compBuf := store8 A compBuf (i + 1)%Z
      (Math_round A (load8 A gradBuf (i + 1)%Z * maskValue
                     + #(g bg) * (#1 - maskValue))) in
    let compBuf := store8 A compBuf (i + 2)%Z
      (Math_round A (load8 A gradBuf (i + 2)%Z * maskValue
                     + #(b bg) * (#1 - maskValue))) in
    store8 A compBuf (i + 3)%Z #255) compBuf.

End Canvas.

(** The property name [`color${i}`] for i in 1 .. 8. *)
Definition color_key (i : Z) : string :=
  String.append "color" (String (ascii_of_N (Z.to_N (48 + i))) EmptyString).

(** The colour stops that [p.draw] and [p.renderAtSize] collect from the
    controls, an object with string values here: [color1], [color2], ... up
    to the first that is missing or empty (a falsy value), at most eight.
    The second component of the loop state records the [break]. *)
Definition extractColors (ctrl : gmap string string) : list string :=
  fst (for_ 8 (fun k (state : list string * bool) =>
    let '(colors, stopped) := state in
    if stopped then state
    else
      match ctrl !! color_key (k + 1) with
      | Some (String a rest) => (colors ++ [String a rest], false)
      | _ => (colors, true)
      end) ([], false)).

(** ** Vocabulary of the properties *)

(** A sample of an 8-bit buffer. *)
Definition byte (v : Z) : Prop := 0 <= v <= 255.

(** The selectors [applyDither] knows. *)
Definition supported_algorithms : list string :=
  ["bayer"; "floyd-steinberg"; "atkinson"; "random"]%string.

(** [out] has the length of [pixels], holds 8-bit samples and has the alpha
    samples of [pixels]. *)
Definition keeps_alpha (pixels out : list Z) : Prop :=
  length out = length pixels
  /\ Forall byte out
  /\ forall j : nat, (j mod 4 = 3)%nat -> out !! j = pixels !! j.

(** The alpha samples of the first [n] pixels of [out] are 255. *)
Definition alpha_upto (n : Z) (out : list Z) : Prop :=
  forall p, 0 <= p < n -> out !! Z.to_nat (4 * p + 3) = Some 255.


(** The sizes that [getBayerMatrix] can return. *)
Definition supported_sizes : list Z := [2; 4; 8; 16].

(** The k-th of L evenly spaced levels between 0 and 255, as the
    specification writes it: round(k * 255 / (L - 1)). *)
Definition level (L k : Z) : Z :=
  Qround_half_up (inject_Z k * (255 / (inject_Z L - 1))).


(** An integer colour as [lerpColors] returns it in exact arithmetic, and
    the channel round(c1 + (c2 - c1) * localT) of the specification. *)
Definition channels (c : rgb Z) : rgb (num exact) :=
  Rgb (Some (inject_Z (r c))) (Some (inject_Z (g c))) (Some (inject_Z (b c))).

Definition mix (c1 c2 : Z) (localT : Q) : num exact :=
  Some (inject_Z (Qround_half_up (inject_Z c1 + (inject_Z c2 - inject_Z c1) * localT))).

(** An access addresses an element of its buffer. *)
Definition in_bounds (len : buffer -> Z) (a : buffer * option Z) : Prop :=
  exists i, a.2 = Some i /\ 0 <= i < len a.1.


(** The digits of a colour string: what follows an optional [#]. *)
Definition hex_body (hex : string) : string :=
  match hex with
  | String "#" rest => rest
  | _ => hex
  end.

(** The table with entry [e y x] in row [y] and column [x]. *)
Definition entries (size : Z) (e : Z -> Z -> Z) : list (list Z) :=
  (fun y => (fun x => e y x) <$> seqZ 0 size) <$> seqZ 0 size.

(** The entries of the matrix of size [2 ^ (n + 1)], by the recursion of
    [generateBayerMatrix]. *)
Fixpoint bayer_index (n : nat) (y x : Z) : Z :=
  match n with
  | O => default 0 (mat_get BAYER_2 y x)
  | S n =>
      let half := 2 ^ Z.of_nat (S n) in
      4 * bayer_index n (Z.rem y half) (Z.rem x half)
      + default 0 (get [0; 2; 3; 1] (y / half * 2 + x / half))
  end.

(** [v] is one of the [L] levels. *)
Definition on_palette (L v : Z) : Prop := exists k, 0 <= k <= L - 1 /\ v = level L k.

(** An entry of the working buffer after its quantization: NaN or a level
    (the level index is not bounded: diffused error can carry a value out
    of [0,255]). *)
Definition quantized (L : Z) (e : num exact) : Prop :=
  e = None \/ exists k, e = Some (inject_Z (level L k)).

(** Channel [c] of a colour: 0 is red, 1 green, 2 blue. *)
Definition channel (c : Z) (colour : rgb Z) : Z :=
  if decide (c = 0) then r colour else if decide (c = 1) then g colour else b colour.

(** The four stores of the generators' pixel loop at pixel (x, y), for the
    colour that [lerpColors] returned there. *)
Definition paint (A : arith) (w : Z) (colour : Z -> Z -> rgb (num A)) (x y : Z)
    (pixels : list Z) : list Z :=
  let idx := 4 * (y * w + x) in
  store8 A (store8 A (store8 A (store8 A pixels idx (r (colour x y)))
    (idx + 1) (g (colour x y))) (idx + 2) (b (colour x y))) (idx + 3) (of_Z A 255).

(** [e] lies between channel [c] of two adjacent colour stops. *)
Definition between_stops (colors : list string) (c e : Z) : Prop :=
  exists (i : nat) (c1 c2 : rgb Z),
    (hexToRgb <$> colors) !! i = Some c1
    /\ (hexToRgb <$> colors) !! S i = Some c2
    /\ Z.min (channel c c1) (channel c c2) <= e <= Z.max (channel c c1) (channel c c2).

(** [gr'] is [gr] with every pixel painted: opaque, each colour sample
    between two adjacent stops. *)
Definition painted (colors : list string) (gr gr' : graphics) : Prop :=
  g_width gr' = g_width gr /\ g_height gr' = g_height gr
  /\ g_density gr' = g_density gr
  /\ length (g_pixels gr') = length (g_pixels gr)
  /\ forall x y c e,
       0 <= x < g_width gr * g_density gr -> 0 <= y < g_height gr * g_density gr ->
       0 <= c < 4 ->
       get (g_pixels gr') (4 * (y * (g_width gr * g_density gr) + x) + c) = Some e ->
       if decide (c = 3) then e = 255 else between_stops colors c e.

(** A control that holds a value JavaScript takes for true. *)
Definition truthy (ctrl : gmap string string) (key : string) : Prop :=
  exists v, ctrl !! key = Some v /\ v <> EmptyString.

(** Two entries of the working buffer hold the same number: both NaN, or
    equal rationals. *)
Definition same_number (e e' : num exact) : Prop :=
  match e, e' with
  | Some q, Some q' => (q == q')%Q
  | None, None => True
  | _, _ => False
  end.

(** Every entry of [b] is an entry of [a], as a number. *)
Definition same_numbers (a b : list (num exact)) : Prop :=
  forall j e', get b j = Some e' -> exists e, get a j = Some e /\ same_number e e'.

(** * Properties *)

(** ** Loops *)

Lemma for_nonpos {S : Type} n (body : Z -> S -> S) s :
  n <= 0 -> for_ n body s = s.
Proof. intros Hn. unfold for_. by rewrite seqZ_nil. Qed.

Lemma for_succ {S : Type} n (body : Z -> S -> S) s :
  0 <= n -> for_ (n + 1) body s = body n (for_ n body s).
Proof.
  intros Hn. unfold for_.
  rewrite (seqZ_app 0 n 1) by lia.
  rewrite foldl_app. simpl. by rewrite Z.add_0_l.
Qed.

(** An invariant that follows the loop counter. *)
Lemma for_ind {S : Type} (P : Z -> S -> Prop) n (body : Z -> S -> S) s :
  0 <= n ->
  P 0 s ->
  (forall i s, 0 <= i < n -> P i s -> P (i + 1) (body i s)) ->
  P n (for_ n body s).
Proof.
  intros Hn H0 Hstep.
  rewrite <- (Z2Nat.id n) by done.
  assert (Hle : (Z.to_nat n <= Z.to_nat n)%nat) by lia.
  revert Hle. generalize (Z.to_nat n) at 1 3 4 as k.
  induction k as [|k IH]; intros Hk.
  - by rewrite for_nonpos.
  - rewrite Nat2Z.inj_succ, <- Z.add_1_r, for_succ by lia.
    apply Hstep; [lia|]. apply IH. lia.
Qed.

(** An invariant that every iteration keeps. *)
Lemma for_inv {S : Type} (P : S -> Prop) n (body : Z -> S -> S) s :
  P s ->
  (forall i s, 0 <= i < n -> P s -> P (body i s)) ->
  P (for_ n body s).
Proof.
  intros H0 Hstep.
  destruct (Z.le_gt_cases 0 n) as [Hn|Hn].
  - apply (for_ind (fun _ => P)); auto.
  - by rewrite for_nonpos by lia.
Qed.

(** ** Bayer matrices *)

Lemma generateBayerMatrix_fuel fuel size m :
  generateBayerMatrix fuel size = Some m ->
  generateBayerMatrix (S fuel) size = Some m.
Proof.
  revert size m. induction fuel as [|fuel IH]; intros size m H; [done|].
  revert H. cbn [generateBayerMatrix].
  destruct (size =? 2); [done|].
  destruct (Z.even size); [|done].
  destruct (generateBayerMatrix fuel (size / 2)) as [smaller|] eqn:Hs; [|done].
  apply IH in Hs. cbn [generateBayerMatrix] in Hs. by rewrite Hs.
Qed.

Lemma generateBayerMatrix_more_fuel k fuel size m :
  generateBayerMatrix fuel size = Some m ->
  generateBayerMatrix (fuel + k) size = Some m.
Proof.
  intros H. induction k as [|k IH].
  - by rewrite Nat.add_0_r.
  - rewrite Nat.add_succ_r. by apply generateBayerMatrix_fuel.
Qed.

(** C2 as stated fails: a request of 3 is answered with size 4, which
    exceeds the request, although the supported size 2 does not. *)
Lemma getBayerMatrix_exceeds_request :
  bm_size (getBayerMatrix binary64 (Binary64.of_Z 3)) = 4
  /\ ~ (bm_size (getBayerMatrix binary64 (Binary64.of_Z 3)) <= 3)
  /\ 2 ∈ supported_sizes /\ 2 <= 3.
Proof.
  split; [by vm_compute|]. split; [by vm_compute|].
  split; [|lia]. unfold supported_sizes. set_solver.
Qed.

(** C2 (amended): for every request, [getBayerMatrix] follows the mapping
    size <= 2 -> 2, size <= 4 -> 4, size <= 8 -> 8, otherwise 16.  The
    result is the least supported size that is not below the request (16
    when the request is above every supported size), its matrix is the one
    generated for that size, and [max] is the square of the returned size. *)
Theorem getBayerMatrix_rounds_up (request : Q) :
  let m := getBayerMatrix exact (Some request) in
  bm_size m =
    (if Qle_bool request 2 then 2
     else if Qle_bool request 4 then 4
     else if Qle_bool request 8 then 8 else 16)
  /\ bm_size m ∈ supported_sizes
  /\ (forall s, s ∈ supported_sizes -> (request <= inject_Z s)%Q -> bm_size m <= s)
  /\ ((request <= 16)%Q -> (request <= inject_Z (bm_size m))%Q)
  /\ bm_max m = bm_size m * bm_size m
  /\ forall k, generateBayerMatrix (4 + k) (bm_size m) = Some (bm_matrix m).
Proof.
  unfold getBayerMatrix, supported_sizes. cbn [le exact of_Z Exact.cmp].
  change (inject_Z 2) with 2%Q. change (inject_Z 4) with 4%Q.
  change (inject_Z 8) with 8%Q.
  destruct (Qle_bool request 2) eqn:H2;
    [|destruct (Qle_bool request 4) eqn:H4;
      [|destruct (Qle_bool request 8) eqn:H8]];
    cbn [bm_size bm_max bm_matrix].
  all: repeat match goal with
    | H : Qle_bool _ _ = true |- _ => apply Qle_bool_iff in H
    | H : Qle_bool ?a ?b = false |- _ =>
        assert (b < a)%Q
          by (apply Qnot_le_lt; intros Hle; apply Qle_bool_iff in Hle; congruence);
        clear H
    end.
  all: split; [done|]; split; [set_solver|].
  all: split;
    [intros s Hs Hle;
     repeat (apply elem_of_cons in Hs as [->|Hs]); [..|by apply elem_of_nil in Hs];
     first [lia | exfalso; unfold inject_Z in Hle; lra]|].
  all: split; [intros ?; unfold inject_Z; lra|].
  all: split; [done|].
  all: intros k; apply generateBayerMatrix_more_fuel; by vm_compute.
Qed.

(** C5: for N in {2, 4, 8, 16} the matrix [generateBayerMatrix] returns is
    N x N and its entries, read row by row, are a permutation of
    0 .. N^2 - 1: each of these integers occurs exactly once. *)
Theorem generateBayerMatrix_permutation (N : Z) (k : nat) :
  N ∈ supported_sizes ->
  exists m,
    generateBayerMatrix (4 + k) N = Some m
    /\ Z.of_nat (length m) = N
    /\ Forall (fun row => Z.of_nat (length row) = N) m
    /\ concat m ≡ₚ seqZ 0 (N * N).
Proof.
  unfold supported_sizes. intros HN.
  repeat (apply elem_of_cons in HN as [->|HN]); [..|by apply elem_of_nil in HN].
  - exists BAYER_2. split; [apply generateBayerMatrix_more_fuel; by vm_compute|].
    split; [done|]. split; [by repeat constructor|].
    apply (bool_decide_unpack _). by vm_compute.
  - exists BAYER_4. split; [apply generateBayerMatrix_more_fuel; by vm_compute|].
    split; [done|]. split; [by repeat constructor|].
    apply (bool_decide_unpack _). by vm_compute.
  - exists BAYER_8. split; [apply generateBayerMatrix_more_fuel; by vm_compute|].
    split; [done|]. split; [by repeat constructor|].
    apply (bool_decide_unpack _). by vm_compute.
  - exists BAYER_16. split; [apply generateBayerMatrix_more_fuel; by vm_compute|].
    split; [done|]. split; [by repeat constructor|].
    apply (bool_decide_unpack _). by vm_compute.
Qed.

Lemma generateBayerMatrix_permutation_witness :
  exists m,
    generateBayerMatrix 4 16 = Some m
    /\ Z.of_nat (length m) = 16
    /\ Forall (fun row => Z.of_nat (length row) = 16) m
    /\ concat m ≡ₚ seqZ 0 (16 * 16).
Proof.
  apply (generateBayerMatrix_permutation 16 0).
  unfold supported_sizes. set_solver.
Defined.

(** C8: the literal tables BAYER_4 and BAYER_8 are, entry for entry, what
    the recursive construction returns for sizes 4 and 8 from the seed
    BAYER_2 = [[0,2],[3,1]] with quadrant offsets [0,2,3,1]. *)
Theorem literal_tables_are_generated (k : nat) :
  generateBayerMatrix (1 + k) 2 = Some [[0; 2]; [3; 1]]
  /\ generateBayerMatrix (2 + k) 4 = Some BAYER_4
  /\ generateBayerMatrix (3 + k) 8 = Some BAYER_8.
Proof.
  repeat split; try (apply generateBayerMatrix_more_fuel; by vm_compute).
Qed.

(** ** Rational arithmetic *)

Lemma Qle_bool_false a b : Qle_bool a b = false -> (b < a)%Q.
Proof.
  intros H. apply Qnot_le_lt. intros Hle. apply Qle_bool_iff in Hle. congruence.
Qed.

Lemma Qeq_bool_false a b : ~ (a == b)%Q -> Qeq_bool a b = false.
Proof.
  intros H. destruct (Qeq_bool a b) eqn:E; [|done].
  apply Qeq_bool_iff in E. contradiction.
Qed.

Lemma Qfloor_unique q z :
  (inject_Z z <= q)%Q -> (q < inject_Z (z + 1))%Q -> Qfloor q = z.
Proof.
  intros Hlo Hhi.
  pose proof (Qfloor_le q) as H1. pose proof (Qlt_floor q) as H2.
  assert (Ha : (inject_Z (Qfloor q) < inject_Z (z + 1))%Q) by lra.
  assert (Hb : (inject_Z z < inject_Z (Qfloor q + 1))%Q) by lra.
  rewrite <- Zlt_Qlt in Ha, Hb. lia.
Qed.

Lemma Qround_half_up_integer q z : (q == inject_Z z)%Q -> Qround_half_up q = z.
Proof.
  intros H. unfold Qround_half_up. apply Qfloor_unique.
  - lra.
  - rewrite inject_Z_plus. unfold inject_Z at 2. lra.
Qed.

Lemma Qtrunc_integer z : Qtrunc (inject_Z z) = z.
Proof.
  unfold Qtrunc. destruct (Qle_bool 0 (inject_Z z)).
  - apply Qfloor_Z.
  - apply Qceiling_Z.
Qed.

Lemma exact_div_Some x y :
  ~ (y == 0)%Q -> Exact.div (Some x) (Some y) = Some (x / y)%Q.
Proof. intros H. unfold Exact.div. by rewrite Qeq_bool_false. Qed.

Lemma exact_to_index_integer q z :
  (q == inject_Z z)%Q -> Exact.to_index (Some q) = Some z.
Proof.
  intros H. unfold Exact.to_index.
  assert (Hf : Qfloor q = z) by (rewrite H; apply Qfloor_Z).
  rewrite Hf. destruct (Qeq_bool q (inject_Z z)) eqn:E; [done|].
  exfalso. apply Qeq_bool_iff in H. congruence.
Qed.

(** ** quantize *)

Lemma step_positive (L : Q) : (2 <= L)%Q -> (0 < 255 / (L - 1))%Q.
Proof.
  intros HL. apply Qlt_shift_div_l; lra.
Qed.

(** [quantize] in exact arithmetic, for a finite value and levels >= 2. *)
Lemma exact_quantize (v L : Q) :
  (2 <= L)%Q ->
  quantize exact (Some v) (Some L) =
    Some (inject_Z (Qround_half_up
      (inject_Z (Qround_half_up (v / (255 / (L - 1)))) * (255 / (L - 1))))).
Proof.
  intros HL. pose proof (step_positive L HL) as Hs.
  unfold quantize. cbn [add sub mul div exact of_Z Math_round Exact.lift2 Exact.lift1].
  change (inject_Z 255) with 255%Q. change (inject_Z 1) with 1%Q.
  rewrite exact_div_Some by lra.
  rewrite exact_div_Some by lra.
  reflexivity.
Qed.





(** ** lerpColors *)

Lemma inject_Z_minus (x y : Z) : inject_Z (x - y) = (inject_Z x - inject_Z y)%Q.
Proof. unfold Z.sub. by rewrite inject_Z_plus, inject_Z_opp. Qed.

Lemma exact_min_integers a b :
  Exact.min (Some (inject_Z a)) (Some (inject_Z b)) = Some (inject_Z (Z.min a b)).
Proof.
  unfold Exact.min, Exact.lift2.
  destruct (Qle_bool (inject_Z a) (inject_Z b)) eqn:E.
  - apply Qle_bool_iff in E. rewrite <- Zle_Qle in E. by rewrite Z.min_l.
  - apply Qle_bool_false in E. rewrite <- Zlt_Qlt in E. by rewrite Z.min_r by lia.
Qed.

Lemma get_lookup {T : Type} (a : list T) (i : Z) :
  0 <= i -> get a i = a !! Z.to_nat i.
Proof. intros Hi. unfold get. by rewrite (proj2 (Z.leb_le 0 i)). Qed.

Lemma mix_integer c1 c2 localT z :
  (inject_Z c1 + (inject_Z c2 - inject_Z c1) * localT == inject_Z z)%Q ->
  mix c1 c2 localT = Some (inject_Z z).
Proof. intros H. unfold mix. by rewrite (Qround_half_up_integer _ z). Qed.

(** The general case of C6, in exact arithmetic. *)
Lemma lerpColors_exact (colors : list string) (t : Q) :
  let N := Z.of_nat (length colors) in
  2 <= N -> (0 <= t <= 1)%Q ->
  let segment := Z.max 0 (Z.min (N - 2) (Qfloor (t * inject_Z (N - 1)))) in
  let localT := (t * inject_Z (N - 1) - inject_Z segment)%Q in
  exists c1 c2,
    get (hexToRgb <$> colors) segment = Some c1
    /\ get (hexToRgb <$> colors) (segment + 1) = Some c2
    /\ lerpColors exact colors (Some t) =
         Some (Rgb (mix (r c1) (r c2) localT) (mix (g c1) (g c2) localT)
                   (mix (b c1) (b c2) localT)).
Proof.
  intros N HN Ht segment localT.
  assert (Hf : 0 <= Qfloor (t * inject_Z (N - 1))).
  { change 0 with (Qfloor 0). apply Qfloor_resp_le.
    apply Qmult_le_0_compat; [lra|].
    change 0%Q with (inject_Z 0). rewrite <- Zle_Qle. lia. }
  assert (Hseg : segment = Z.min (Qfloor (t * inject_Z (N - 1))) (N - 1 - 1)) by lia.
  assert (Hlen : Z.of_nat (length (hexToRgb <$> colors)) = N) by (by rewrite length_fmap).
  destruct (lookup_lt_is_Some_2 (hexToRgb <$> colors) (Z.to_nat segment))
    as [c1 Hc1]; [lia|].
  destruct (lookup_lt_is_Some_2 (hexToRgb <$> colors) (Z.to_nat (segment + 1)))
    as [c2 Hc2]; [lia|].
  assert (Hg1 : get (hexToRgb <$> colors) segment = Some c1)
    by (by rewrite get_lookup by lia).
  assert (Hg2 : get (hexToRgb <$> colors) (segment + 1) = Some c2)
    by (by rewrite get_lookup by lia).
  exists c1, c2. split; [done|]. split; [done|].
  unfold lerpColors. rewrite Hlen.
  cbn [add sub mul of_Z exact Math_floor Math_min Math_round to_index
       Exact.lift2 Exact.lift1].
  rewrite exact_min_integers, <- Hseg. cbn [Exact.lift2 Exact.lift1].
  rewrite (exact_to_index_integer (inject_Z segment) segment) by reflexivity.
  rewrite (exact_to_index_integer (inject_Z segment + inject_Z 1) (segment + 1))
    by (rewrite inject_Z_plus; reflexivity).
  cbn [mbind option_bind]. rewrite Hg1. cbn [mbind option_bind]. rewrite Hg2.
  reflexivity.
Qed.



(** ** Gradient positions *)

Lemma Qsquare_nonneg (a : Q) : (0 <= a * a)%Q.
Proof.
  destruct (Qlt_le_dec a 0) as [Ha|Ha].
  - assert (H : (a * a == (- a) * (- a))%Q) by ring.
    rewrite H. apply Qmult_le_0_compat; lra.
  - apply Qmult_le_0_compat; lra.
Qed.

(** Integer literals of the program, as rationals. *)
Ltac Qliterals :=
  change (inject_Z 0) with 0%Q in *; change (inject_Z 1) with 1%Q in *;
  change (inject_Z 2) with 2%Q in *.

(** What is left of a number after [% 1]. *)
Lemma Qtrunc_fraction (q : Q) :
  (-1 < q - 1 * inject_Z (Qtrunc (q / 1)) < 1)%Q.
Proof.
  assert (Hq : (q / 1 == q)%Q) by (field).
  assert (Hf : Qfloor (q / 1) = Qfloor q) by (by rewrite Hq).
  assert (Hc : Qceiling (q / 1) = Qceiling q) by (by rewrite Hq).
  unfold Qtrunc. rewrite Hf, Hc.
  destruct (Qle_bool 0 (q / 1)).
  - pose proof (Qfloor_le q) as Hlo. pose proof (Qlt_floor q) as Hhi.
    rewrite inject_Z_plus in Hhi. change (inject_Z 1) with 1%Q in Hhi. lra.
  - pose proof (Qle_ceiling q) as Hhi. pose proof (Qceiling_lt q) as Hlo.
    rewrite inject_Z_minus in Hlo. change (inject_Z 1) with 1%Q in Hlo. lra.
Qed.

Lemma exact_rem_1 (q : Q) :
  rem exact (Some q) (of_Z exact 1) = Some (q - 1 * inject_Z (Qtrunc (q / 1)))%Q.
Proof. reflexivity. Qed.

(** The closing step of the radial and conic generators. *)
Lemma wrap_negative (q : Q) :
  (-1 < q < 1)%Q ->
  exists t, (if lt exact (Some q) (of_Z exact 0)
             then add exact (Some q) (of_Z exact 1) else Some q) = Some t
            /\ (0 <= t <= 1)%Q.
Proof.
  intros Hq. cbn [lt add exact of_Z Exact.cmp Exact.lift2]. unfold Qltb.
  destruct (Qle_bool (inject_Z 0) q) eqn:E; cbn [negb].
  - apply Qle_bool_iff in E. unfold inject_Z in E. exists q. split; [done|lra].
  - apply Qle_bool_false in E. unfold inject_Z in E.
    eexists. split; [done|]. unfold inject_Z. lra.
Qed.

Lemma exact_half : div exact (of_Z exact 1) (of_Z exact 2) = Some (1 / 2)%Q.
Proof. reflexivity. Qed.




(** ** Typed arrays *)

Lemma clamp8_range q : 0 <= clamp8 q <= 255.
Proof.
  unfold clamp8, Qltb.
  destruct (Qle_bool q 0) eqn:H0; [lia|].
  destruct (Qle_bool 255 q) eqn:H255; [lia|].
  apply Qle_bool_false in H0, H255.
  assert (Hf0 : 0 <= Qfloor q).
  { change 0 with (Qfloor 0). apply Qfloor_resp_le. lra. }
  assert (Hf1 : Qfloor q <= 254).
  { assert (H : (inject_Z (Qfloor q) < inject_Z 255)%Q).
    { eapply Qle_lt_trans; [apply Qfloor_le|exact H255]. }
    rewrite <- Zlt_Qlt in H. lia. }
  repeat match goal with |- context [if ?b then _ else _] => destruct b end; lia.
Qed.

Lemma exact_clamps : clamps exact.
Proof.
  split; [|by vm_compute].
  intros [q|]; cbn; [apply clamp8_range|lia].
Qed.

Lemma binary64_clamps : clamps binary64.
Proof.
  split; [|by vm_compute].
  intros [s|[]| |s m e]; cbn [to_uint8_clamp binary64 Binary64.to_uint8_clamp]; try lia.
  destruct (Binary64.to_Q _); [apply clamp8_range|lia].
Qed.

Lemma length_set {T : Type} (a : list T) i v : length (set a i v) = length a.
Proof. unfold set. destruct (0 <=? i); [apply length_insert|done]. Qed.

Lemma lookup_set_ne {T : Type} (a : list T) i v (j : nat) :
  Z.of_nat j <> i -> set a i v !! j = a !! j.
Proof.
  intros Hne. unfold set. destruct (0 <=? i) eqn:E; [|done].
  apply list_lookup_insert_ne. lia.
Qed.

Lemma lookup_set_eq {T : Type} (a : list T) i v :
  0 <= i < Z.of_nat (length a) -> set a i v !! Z.to_nat i = Some v.
Proof.
  intros Hi. unfold set. rewrite (proj2 (Z.leb_le 0 i)) by lia.
  apply list_lookup_insert_eq. lia.
Qed.

Lemma Forall_set {T : Type} (P : T -> Prop) (a : list T) i v :
  Forall P a -> P v -> Forall P (set a i v).
Proof.
  intros Ha Hv. unfold set. destruct (0 <=? i); [by apply Forall_insert|done].
Qed.

(** ** The output buffer of [applyDither] *)

Section Output.

Context (A : arith) (HA : clamps A).

Lemma keeps_alpha_refl pixels : Forall byte pixels -> keeps_alpha pixels pixels.
Proof. by intros H. Qed.

Lemma store8_keeps_alpha pixels out k c v :
  0 <= c < 3 -> keeps_alpha pixels out ->
  keeps_alpha pixels (store8 A out (4 * k + c) v).
Proof.
  intros Hc (Hlen & Hall & Halpha). unfold store8. split; [|split].
  - by rewrite length_set.
  - apply Forall_set; [done|apply HA].
  - intros j Hj. rewrite lookup_set_ne; [by apply Halpha|].
    intros Heq. pose proof (Nat.div_mod_eq j 4). lia.
Qed.

Lemma bayerDither_keeps_alpha pixels width height strength size colorLevels :
  Forall byte pixels ->
  keeps_alpha pixels (bayerDither A pixels width height strength size colorLevels).
Proof.
  intros Hpix. unfold bayerDither.
  destruct (getBayerMatrix A size) as [matrix matrixSize max].
  apply for_inv; [by apply keeps_alpha_refl|]. intros y out _ Hout.
  apply for_inv; [done|]. clear out Hout. intros x out _ Hout.
  apply for_inv; [done|]. clear out Hout. intros c out Hc Hout.
  by apply store8_keeps_alpha.
Qed.

Lemma randomDither_keeps_alpha random pixels width height strength grainSize colorLevels :
  Forall byte pixels ->
  keeps_alpha pixels
    (randomDither A random pixels width height strength grainSize colorLevels).
Proof.
  intros Hpix. unfold randomDither.
  apply for_inv; [by apply keeps_alpha_refl|]. intros y out _ Hout.
  apply for_inv; [done|]. clear out Hout. intros x out _ Hout.
  apply for_inv; [done|]. clear out Hout. intros c out Hc Hout.
  by apply store8_keeps_alpha.
Qed.

Lemma upsample_bytes pixels width height scale scaledWidth scaledHeight scaled :
  let out := upsample A pixels width height scale scaledWidth scaledHeight scaled in
  length out = length pixels /\ Forall byte out.
Proof.
  unfold upsample.
  apply (for_inv (fun out => length out = length pixels /\ Forall byte out)).
  { split; [by rewrite length_replicate|]. apply Forall_replicate. unfold byte. lia. }
  intros y out _ Hout.
  apply for_inv; [done|]. clear out Hout. intros x out _ [Hlen Hall].
  unfold store8. rewrite !length_set. split; [done|].
  repeat apply Forall_set; try done; apply HA.
Qed.

Lemma upsample_alpha pixels width height scale scaledWidth scaledHeight scaled :
  0 <= width -> 0 <= height ->
  Z.of_nat (length pixels) = 4 * width * height ->
  alpha_upto (width * height)
    (upsample A pixels width height scale scaledWidth scaledHeight scaled).
Proof.
  intros Hw Hh Hlen. unfold upsample.
  set (len := length pixels) in *.
  rewrite (Z.mul_comm width).
  match goal with |- alpha_upto _ ?X =>
    enough (length X = len /\ alpha_upto (height * width) X) by tauto end.
  apply (for_ind (fun y out => length out = len /\ alpha_upto (y * width) out)); [done| |].
  { split; [by rewrite length_replicate|]. intros p Hp. lia. }
  intros y out Hy [Hl Ha].
  replace ((y + 1) * width) with (y * width + width) by lia.
  apply (for_ind (fun x out => length out = len /\ alpha_upto (y * width + x) out)); [done| |].
  { by rewrite Z.add_0_r. }
  clear out Hl Ha. intros x out Hx [Hl Ha].
  cbv zeta. unfold store8. rewrite !length_set. split; [done|].
  intros p Hp.
  destruct (decide (p = y * width + x)) as [->|Hne].
  - rewrite (lookup_set_eq _ (4 * (y * width + x) + 3)).
    + f_equal. apply HA.
    + rewrite !length_set. nia.
  - rewrite !lookup_set_ne by lia. apply Ha. lia.
Qed.

Lemma alpha_upto_all n out (j : nat) :
  alpha_upto n out -> Z.of_nat (length out) = 4 * n ->
  (j < length out)%nat -> (j mod 4 = 3)%nat -> out !! j = Some 255.
Proof.
  intros Ha Hlen Hj Hmod. pose proof (Nat.div_mod_eq j 4) as Hdiv.
  specialize (Ha (Z.of_nat (j / 4))).
  replace (Z.to_nat (4 * Z.of_nat (j / 4) + 3)) with j in Ha by lia.
  apply Ha. lia.
Qed.

End Output.

(** ** applyDither *)

(** Membership in a list of string literals. *)
Ltac not_member H :=
  repeat (apply elem_of_cons in H as [H|H]; [discriminate H|]);
  by apply elem_of_nil in H.

Ltac is_member :=
  repeat first [by apply list_elem_of_here | apply list_elem_of_further].

(** C1 as stated fails: ordered dithering of the one-pixel buffer
    (10, 20, 30, 128) returns alpha 128, not 255. *)
Lemma bayer_keeps_input_alpha :
  applyDither binary64 (fun _ => Binary64.of_Z 0) [10; 20; 30; 128] 1 1 "bayer"
    (Binary64.of_Z 1) (Binary64.of_Z 2) (Binary64.of_Z 2) !! 3%nat = Some 128
  /\ applyDither binary64 (fun _ => Binary64.of_Z 0) [10; 20; 30; 128] 1 1 "bayer"
       (Binary64.of_Z 1) (Binary64.of_Z 2) (Binary64.of_Z 2) !! 3%nat <> Some 255
  /\ Forall byte [10; 20; 30; 128].
Proof.
  split; [by vm_compute|]. split; [by vm_compute|].
  repeat constructor; unfold byte; lia.
Qed.

(** C1 (amended): for every 8-bit input buffer, every supported algorithm
    and every strength, size and colorLevels, the buffer [applyDither]
    returns has the length of the input and every sample in [0,255].  For
    'floyd-steinberg' and 'atkinson' on a width x height buffer every alpha
    sample is 255; for 'bayer' and 'random' every alpha sample is the alpha
    sample of the input; so on an opaque width x height input every alpha
    sample of the result is 255, whatever the algorithm.  This holds in any
    arithmetic whose stores into a Uint8ClampedArray clamp. *)
Theorem applyDither_output (A : arith) (random : Z -> num A) (pixels : list Z)
    (width height : Z) (algorithm : string) (strength size colorLevels : num A) :
  clamps A ->
  Forall byte pixels ->
  algorithm ∈ supported_algorithms ->
  let out :=
    applyDither A random pixels width height algorithm strength size colorLevels in
  length out = length pixels
  /\ Forall byte out
  /\ (algorithm ∈ ["bayer"; "random"]%string ->
        forall j : nat, (j mod 4 = 3)%nat -> out !! j = pixels !! j)
  /\ (algorithm ∈ ["floyd-steinberg"; "atkinson"]%string ->
        0 <= width -> 0 <= height ->
        Z.of_nat (length pixels) = 4 * width * height ->
        forall j : nat, (j < length out)%nat -> (j mod 4 = 3)%nat ->
          out !! j = Some 255)
  /\ (0 <= width -> 0 <= height ->
      Z.of_nat (length pixels) = 4 * width * height ->
      (forall j : nat, (j < length pixels)%nat -> (j mod 4 = 3)%nat ->
         pixels !! j = Some 255) ->
      forall j : nat, (j < length out)%nat -> (j mod 4 = 3)%nat ->
        out !! j = Some 255).
Proof.
  intros HA Hpix Halg out. subst out.
  match goal with |- ?L /\ ?B /\ ?K /\ ?D /\ _ =>
    enough (H : L /\ B /\ K /\ D) end.
  { destruct H as (HL & HB & HK & HD). repeat split; try done.
    intros Hw Hh Hlen Hopaque j Hj Hmod.
    unfold supported_algorithms in Halg.
    repeat (apply elem_of_cons in Halg as [->|Halg]); [..|by apply elem_of_nil in Halg].
    - rewrite HK by (done || is_member). apply Hopaque; [by rewrite <- HL|done].
    - apply HD; (done || is_member).
    - apply HD; (done || is_member).
    - rewrite HK by (done || is_member). apply Hopaque; [by rewrite <- HL|done]. }
  unfold supported_algorithms in Halg.
  repeat (apply elem_of_cons in Halg as [->|Halg]); [..|by apply elem_of_nil in Halg];
    unfold applyDither; cbn [String.eqb Ascii.eqb Bool.eqb andb].
  - destruct (bayerDither_keeps_alpha A HA pixels width height strength size colorLevels
                Hpix) as (Hl & Hb & Ha).
    repeat split; try done. intros Hin. exfalso. not_member Hin.
  - pose proof (upsample_bytes A HA pixels width height (Math_max A (of_Z A 1) size))
      as Hb.
    unfold floydSteinbergDither.
    split; [apply Hb|]. split; [apply Hb|]. split; [intros Hin; exfalso; not_member Hin|].
    intros _ Hw Hh Hlen j Hj Hmod.
    eapply alpha_upto_all; [by apply upsample_alpha| |done|done].
    rewrite (proj1 (Hb _ _ _)). lia.
  - pose proof (upsample_bytes A HA pixels width height (Math_max A (of_Z A 1) size))
      as Hb.
    unfold atkinsonDither.
    split; [apply Hb|]. split; [apply Hb|]. split; [intros Hin; exfalso; not_member Hin|].
    intros _ Hw Hh Hlen j Hj Hmod.
    eapply alpha_upto_all; [by apply upsample_alpha| |done|done].
    rewrite (proj1 (Hb _ _ _)). lia.
  - destruct (randomDither_keeps_alpha A HA random pixels width height strength
                (Math_max A (of_Z A 1) size) colorLevels Hpix) as (Hl & Hb & Ha).
    repeat split; try done. intros Hin. exfalso. not_member Hin.
Qed.

(** C9: for every selector other than 'bayer', 'floyd-steinberg',
    'atkinson' and 'random' and every input buffer, [applyDither] returns a
    buffer with the samples of the input; the buffer returned is a new
    object and the input buffer is unchanged. *)
Theorem applyDither_unknown_algorithm (A : arith) (random : Z -> num A)
    (h : gmap nat (list Z)) (p : nat) (pixels : list Z) (width height : Z)
    (algorithm : string) (strength size colorLevels : num A) :
  algorithm ∉ supported_algorithms ->
  h !! p = Some pixels ->
  applyDither A random pixels width height algorithm strength size colorLevels = pixels
  /\ exists h' l,
       applyDither_ref A h random p width height algorithm strength size colorLevels
         = Some (h', l)
       /\ h' !! l = Some pixels /\ h' !! p = Some pixels /\ l <> p.
Proof.
  intros Halg Hp. unfold supported_algorithms in Halg.
  assert (Hcopy : applyDither A random pixels width height algorithm strength size
                    colorLevels = pixels).
  { unfold applyDither.
    repeat match goal with |- context [String.eqb algorithm ?s] =>
      destruct (String.eqb_spec algorithm s) as [->|_]; [exfalso; apply Halg; is_member|] end.
    done. }
  split; [done|].
  unfold applyDither_ref, alloc. rewrite Hp. cbn [mbind option_bind]. rewrite Hcopy.
  eexists _, _. split; [reflexivity|].
  assert (Hne : fresh (dom h) <> p).
  { intros Heq. apply (is_fresh (dom h)). rewrite Heq. by apply elem_of_dom_2 in Hp. }
  split; [by rewrite lookup_insert_eq|]. split; [by rewrite lookup_insert_ne|done].
Qed.

Lemma applyDither_output_witness :
  let out :=
    applyDither binary64 (fun _ => Binary64.of_Z 0) [10; 20; 30; 128; 1; 2; 3; 4] 2 1
      "atkinson" (Binary64.of_Z 1) (Binary64.of_Z 1) (Binary64.of_Z 2) in
  length out = 8%nat /\ Forall byte out.
Proof.
  pose proof (applyDither_output binary64 (fun _ => Binary64.of_Z 0)
                [10; 20; 30; 128; 1; 2; 3; 4] 2 1 "atkinson"
                (Binary64.of_Z 1) (Binary64.of_Z 1) (Binary64.of_Z 2)
                binary64_clamps) as H.
  cbv zeta in *. split; apply H.
  - repeat constructor; unfold byte; lia.
  - unfold supported_algorithms. is_member.
  - repeat constructor; unfold byte; lia.
  - unfold supported_algorithms. is_member.
Defined.

Lemma applyDither_unknown_algorithm_witness :
  applyDither binary64 (fun _ => Binary64.of_Z 0) [10; 20; 30; 128] 1 1 "none"
    (Binary64.of_Z 1) (Binary64.of_Z 2) (Binary64.of_Z 2) = [10; 20; 30; 128].
Proof.
  apply (applyDither_unknown_algorithm binary64 (fun _ => Binary64.of_Z 0)
           {[ 0%nat := [10; 20; 30; 128] ]} 0%nat [10; 20; 30; 128] 1 1 "none"
           (Binary64.of_Z 1) (Binary64.of_Z 2) (Binary64.of_Z 2)).
  - unfold supported_algorithms. intros H. not_member H.
  - reflexivity.
Defined.

(** ** Error diffusion *)

Lemma get_set_eq {T : Type} (a : list T) i v :
  0 <= i < Z.of_nat (length a) -> get (set a i v) i = Some v.
Proof. intros Hi. rewrite get_lookup by lia. by apply lookup_set_eq. Qed.

Lemma get_set_ne {T : Type} (a : list T) i j v :
  i <> j -> get (set a i v) j = get a j.
Proof.
  intros Hne. unfold get. destruct (0 <=? j) eqn:E; [|done].
  apply lookup_set_ne. lia.
Qed.

Lemma length_add32 A (a : list (num A)) i v : length (add32 A a i v) = length a.
Proof. apply length_set. Qed.

Lemma get_add32_eq A (a : list (num A)) i v :
  0 <= i < Z.of_nat (length a) ->
  get (add32 A a i v) i = Some (fround A (add A (load32 A a i) v)).
Proof. intros Hi. by apply get_set_eq. Qed.

Lemma get_add32_ne A (a : list (num A)) i j v :
  i <> j -> get (add32 A a i v) j = get a j.
Proof. intros Hne. by apply get_set_ne. Qed.






(** The same step in binary64, where every value involved is dyadic: the
    pixel of value 100 is quantized to 0 with two levels, and its error 100
    reaches the four neighbours as 43.75, 18.75, 31.25 and 6.25. *)
Lemma fs_channel_binary64_example :
  let scaled' :=
    fs_channel binary64 3 2 (Binary64.of_Z 1) (Binary64.of_Z 2) 1 0 0
      (replicate 24 (Binary64.of_Z 100)) in
  (fun i => Qred <$> (get scaled' i ≫= Binary64.to_Q)) <$> [4; 8; 12; 16; 20]
  = [Some 0%Q; Some (575 # 4)%Q; Some (475 # 4)%Q; Some (525 # 4)%Q; Some (425 # 4)%Q].
Proof. by vm_compute. Qed.


(** ** Array indices of the diffusion algorithms *)

Lemma exact_scaled_dimension (n scale : Z) :
  0 < scale ->
  to_int exact (Math_floor exact (div exact (of_Z exact n) (Some (inject_Z scale))))
  = n / scale.
Proof.
  intros Hs. cbn [to_int Math_floor div of_Z exact].
  rewrite exact_div_Some.
  - cbn [Exact.lift1 Exact.to_int]. rewrite Qtrunc_integer. symmetry. apply Zdiv_Qdiv.
  - change 0%Q with (inject_Z 0). rewrite inject_Z_injective. lia.
Qed.

Lemma in_bounds_Some len b i : 0 <= i < len b -> in_bounds len (b, Some i).
Proof. intros H. by exists i. Qed.

Lemma in_bounds_exact len b q i :
  (q == inject_Z i)%Q -> 0 <= i < len b -> in_bounds len (b, Exact.to_index (Some q)).
Proof. intros Hq H. exists i. split; [by apply exact_to_index_integer|done]. Qed.

Lemma exact_upsample_source (n scale bound : Z) :
  0 < scale ->
  Math_min exact (Math_floor exact (div exact (of_Z exact n) (Some (inject_Z scale))))
    (of_Z exact bound)
  = Some (inject_Z (Z.min (n / scale) bound)).
Proof.
  intros Hs. cbn [Math_min Math_floor div of_Z exact].
  rewrite exact_div_Some.
  - cbn [Exact.lift1]. rewrite exact_min_integers. by rewrite <- Zdiv_Qdiv.
  - change 0%Q with (inject_Z 0). rewrite inject_Z_injective. lia.
Qed.

Ltac push_inject_Z :=
  repeat (rewrite inject_Z_plus || rewrite inject_Z_mult); reflexivity.

Lemma downsample_in_bounds len width height scale :
  1 <= width -> 1 <= height -> 1 <= scale ->
  len Pixels = 4 * width * height ->
  len Scaled = (width / scale) * (height / scale) * 4 ->
  Forall (in_bounds len)
    (downsample_accesses exact width (Some (inject_Z scale))
       (width / scale) (height / scale)).
Proof.
  intros Hw Hh Hs HP HS. unfold downsample_accesses.
  pose proof (Z.mul_div_le width scale ltac:(lia)) as Hsw.
  pose proof (Z.mul_div_le height scale ltac:(lia)) as Hsh.
  set (sw := width / scale) in *. set (sh := height / scale) in *.
  apply Forall_bind, Forall_seqZ. intros y Hy.
  apply Forall_bind, Forall_seqZ. intros x Hx.
  cbn [add mul of_Z exact Exact.lift2].
  assert (Hxs : 0 <= x * scale <= width - 1) by nia.
  assert (Hys : 0 <= y * scale <= height - 1) by nia.
  repeat apply Forall_cons_2; [..|apply Forall_nil_2].
  - apply (in_bounds_exact _ _ _ (4 * (y * scale * width + x * scale)));
      [push_inject_Z|]. rewrite HP. nia.
  - apply in_bounds_Some. rewrite HS. nia.
  - apply (in_bounds_exact _ _ _ (4 * (y * scale * width + x * scale) + 1));
      [push_inject_Z|]. rewrite HP. nia.
  - apply in_bounds_Some. rewrite HS. nia.
  - apply (in_bounds_exact _ _ _ (4 * (y * scale * width + x * scale) + 2));
      [push_inject_Z|]. rewrite HP. nia.
  - apply in_bounds_Some. rewrite HS. nia.
  - apply in_bounds_Some. rewrite HS. nia.
Qed.

Lemma upsample_in_bounds len width height scale :
  1 <= width -> 1 <= height -> 1 <= scale ->
  1 <= width / scale -> 1 <= height / scale ->
  len Output = 4 * width * height ->
  len Scaled = (width / scale) * (height / scale) * 4 ->
  Forall (in_bounds len)
    (upsample_accesses exact width height (Some (inject_Z scale))
       (width / scale) (height / scale)).
Proof.
  intros Hw Hh Hs Hsw Hsh HO HS. unfold upsample_accesses.
  set (sw := width / scale) in *. set (sh := height / scale) in *.
  apply Forall_bind, Forall_seqZ. intros y Hy.
  apply Forall_bind, Forall_seqZ. intros x Hx.
  unfold compose. cbv beta zeta.
  rewrite (exact_upsample_source x scale (sw - 1)),
    (exact_upsample_source y scale (sh - 1)) by lia.
  cbn [add mul of_Z exact Exact.lift2].
  pose proof (Z.div_pos x scale ltac:(lia) ltac:(lia)) as Hxs.
  pose proof (Z.div_pos y scale ltac:(lia) ltac:(lia)) as Hys.
  set (srcX := Z.min (x / scale) (sw - 1)).
  set (srcY := Z.min (y / scale) (sh - 1)).
  assert (HsrcX : 0 <= srcX <= sw - 1) by lia.
  assert (HsrcY : 0 <= srcY <= sh - 1) by lia.
  clearbody srcX srcY.
  repeat apply Forall_cons_2; [..|apply Forall_nil_2].
  - apply (in_bounds_exact _ _ _ (4 * (srcY * sw + srcX))); [push_inject_Z|].
    rewrite HS. nia.
  - apply in_bounds_Some. rewrite HO. nia.
  - apply (in_bounds_exact _ _ _ (4 * (srcY * sw + srcX) + 1)); [push_inject_Z|].
    rewrite HS. nia.
  - apply in_bounds_Some. rewrite HO. nia.
  - apply (in_bounds_exact _ _ _ (4 * (srcY * sw + srcX) + 2)); [push_inject_Z|].
    rewrite HS. nia.
  - apply in_bounds_Some. rewrite HO. nia.
  - apply in_bounds_Some. rewrite HO. nia.
Qed.

(** The guards of the channel loops keep every target inside the buffer. *)
Ltac guarded_accesses :=
  repeat match goal with
    | |- context [if ?b then _ else _] =>
        let E := fresh "E" in destruct b eqn:E;
        [apply Z.ltb_lt in E|apply Z.ltb_ge in E]
    end;
  cbn [app];
  repeat apply Forall_cons_2; try apply Forall_nil_2;
  apply in_bounds_Some; nia.

Lemma fs_channel_in_bounds len sw sh x y c :
  0 <= x < sw -> 0 <= y < sh -> 0 <= c < 3 ->
  len Scaled = sw * sh * 4 ->
  Forall (in_bounds len) (fs_channel_accesses sw sh x y c).
Proof.
  intros Hx Hy Hc HS. unfold fs_channel_accesses. rewrite HS || idtac.
  guarded_accesses.
Qed.

Lemma atkinson_channel_in_bounds len sw sh x y c :
  0 <= x < sw -> 0 <= y < sh -> 0 <= c < 3 ->
  len Scaled = sw * sh * 4 ->
  Forall (in_bounds len) (atkinson_channel_accesses sw sh x y c).
Proof.
  intros Hx Hy Hc HS. unfold atkinson_channel_accesses. rewrite HS || idtac.
  guarded_accesses.
Qed.

Lemma diffusion_in_bounds channel_accesses pixels width height scale :
  (forall len sw sh x y c,
     0 <= x < sw -> 0 <= y < sh -> 0 <= c < 3 -> len Scaled = sw * sh * 4 ->
     Forall (in_bounds len) (channel_accesses sw sh x y c)) ->
  1 <= width -> 1 <= height -> 1 <= scale ->
  1 <= width / scale -> 1 <= height / scale ->
  Z.of_nat (length pixels) = 4 * width * height ->
  Forall (in_bounds (buffer_length exact pixels width height (Some (inject_Z scale))))
    (diffusion_accesses exact channel_accesses width height (Some (inject_Z scale))).
Proof.
  intros Hch Hw Hh Hs Hsw Hsh Hlen.
  set (len := buffer_length exact pixels width height (Some (inject_Z scale))).
  assert (HP : len Pixels = 4 * width * height) by done.
  assert (HO : len Output = 4 * width * height) by done.
  assert (HS : len Scaled = (width / scale) * (height / scale) * 4).
  { unfold len, buffer_length. rewrite !exact_scaled_dimension by lia. nia. }
  clearbody len. unfold diffusion_accesses.
  rewrite !exact_scaled_dimension by lia.
  rewrite !Forall_app. split; [|split].
  - by apply downsample_in_bounds.
  - apply Forall_bind, Forall_seqZ. intros y Hy.
    apply Forall_bind, Forall_seqZ. intros x Hx.
    apply Forall_bind, Forall_seqZ. intros c Hc.
    apply Hch; [lia..|done].
  - by apply upsample_in_bounds.
Qed.

(** C10: on a width x height buffer, with an integer scale >= 1 that leaves
    at least one downsampled pixel per axis, every index that
    [floydSteinbergDither] and [atkinsonDither] compute while downsampling,
    diffusing and upsampling is an integer inside the buffer it addresses. *)
Theorem diffusion_indices_in_bounds (pixels : list Z) (width height scale : Z) :
  1 <= width -> 1 <= height -> 1 <= scale ->
  1 <= width / scale -> 1 <= height / scale ->
  Z.of_nat (length pixels) = 4 * width * height ->
  let len := buffer_length exact pixels width height (Some (inject_Z scale)) in
  Forall (in_bounds len)
    (floydSteinberg_accesses exact width height (Some (inject_Z scale)))
  /\ Forall (in_bounds len)
       (atkinson_accesses exact width height (Some (inject_Z scale))).
Proof.
  intros Hw Hh Hs Hsw Hsh Hlen len. subst len. split.
  - apply diffusion_in_bounds; try done. apply fs_channel_in_bounds.
  - apply diffusion_in_bounds; try done. apply atkinson_channel_in_bounds.
Qed.

Lemma diffusion_indices_in_bounds_witness :
  Forall (in_bounds (buffer_length exact (replicate 96 7) 6 4 (Some (inject_Z 2))))
    (floydSteinberg_accesses exact 6 4 (Some (inject_Z 2))).
Proof.
  apply (diffusion_indices_in_bounds (replicate 96 7) 6 4 2);
    first [lia | reflexivity | by vm_compute].
Defined.

(** With a scale that is no integer the downsampling reads at indices that
    are no integers: [applyDither] clamps the scale to at least 1 and does
    not round it. *)
Lemma fractional_scale_leaves_bounds :
  ~ Forall (in_bounds (buffer_length exact (replicate 48 7) 4 3 (Some (4 # 3)%Q)))
      (floydSteinberg_accesses exact 4 3 (Some (4 # 3)%Q))
  /\ Math_max exact (of_Z exact 1) (Some (4 # 3)%Q) = Some (4 # 3)%Q.
Proof.
  split; [|reflexivity].
  intros H. apply Forall_forall with (x := (Pixels, None)) in H.
  - destruct H as (i & Hi & _). discriminate Hi.
  - vm_compute. is_member.
Qed.

(** * Further properties *)

(** ** quantize, in exact arithmetic *)

Lemma Qround_half_up_le a b : (a <= b)%Q -> Qround_half_up a <= Qround_half_up b.
Proof. intros H. unfold Qround_half_up. apply Qfloor_resp_le. lra. Qed.

Lemma Qround_half_up_near q :
  (q - (1 # 2) < inject_Z (Qround_half_up q) <= q + (1 # 2))%Q.
Proof.
  unfold Qround_half_up.
  pose proof (Qfloor_le (q + (1 # 2))) as Hlo.
  pose proof (Qlt_floor (q + (1 # 2))) as Hhi.
  rewrite inject_Z_plus in Hhi. change (inject_Z 1) with 1%Q in Hhi. lra.
Qed.

Lemma Qdiv_le_compat a b s : (0 < s)%Q -> (a <= b)%Q -> (a / s <= b / s)%Q.
Proof.
  intros Hs Hab. unfold Qdiv. apply Qmult_le_compat_r; [done|].
  apply Qlt_le_weak, Qinv_lt_0_compat, Hs.
Qed.

(** X1: [quantize] is monotone: for levels >= 2 and v <= w,
    quantize(v, levels) <= quantize(w, levels), in exact arithmetic; both
    results are integers. *)
Theorem quantize_monotone (levels v w : Q) :
  (2 <= levels)%Q -> (v <= w)%Q ->
  exists a b : Z,
    quantize exact (Some v) (Some levels) = Some (inject_Z a)
    /\ quantize exact (Some w) (Some levels) = Some (inject_Z b)
    /\ a <= b.
Proof.
  intros HL Hvw. pose proof (step_positive levels HL) as Hs.
  rewrite !exact_quantize by done. eexists _, _. split; [done|]. split; [done|].
  apply Qround_half_up_le, Qmult_le_compat_r; [|lra].
  rewrite <- Zle_Qle. by apply Qround_half_up_le, Qdiv_le_compat.
Qed.

Lemma quantize_monotone_witness :
  exists a b : Z,
    quantize exact (Some 100%Q) (Some 4%Q) = Some (inject_Z a)
    /\ quantize exact (Some 200%Q) (Some 4%Q) = Some (inject_Z b)
    /\ a <= b.
Proof. apply (quantize_monotone 4 100 200); by vm_compute. Defined.

(** X2: for levels >= 2, [quantize] moves a value by at most half a step
    plus the half unit of its last rounding:
    |quantize(v, levels) - v| <= 255 / (levels - 1) / 2 + 1/2, for every v,
    in exact arithmetic. *)
Theorem quantize_error_bound (levels v : Q) :
  (2 <= levels)%Q ->
  exists q : Z,
    quantize exact (Some v) (Some levels) = Some (inject_Z q)
    /\ (Qabs (inject_Z q - v) <= 255 / (levels - 1) / 2 + 1 / 2)%Q.
Proof.
  intros HL. pose proof (step_positive levels HL) as Hs.
  rewrite exact_quantize by done. eexists. split; [done|].
  set (s := (255 / (levels - 1))%Q) in *.
  pose proof (Qround_half_up_near (v / s)) as Hk.
  set (k := inject_Z (Qround_half_up (v / s))) in *.
  pose proof (Qround_half_up_near (k * s)) as Hq.
  set (q := inject_Z (Qround_half_up (k * s))) in *.
  assert (H1 : ((v / s - (1 # 2)) * s < k * s)%Q) by (apply Qmult_lt_compat_r; lra).
  assert (H2 : (k * s <= (v / s + (1 # 2)) * s)%Q) by (apply Qmult_le_compat_r; lra).
  assert (E1 : ((v / s - (1 # 2)) * s == v - s / 2)%Q) by (field; lra).
  assert (E2 : ((v / s + (1 # 2)) * s == v + s / 2)%Q) by (field; lra).
  rewrite E1 in H1. rewrite E2 in H2. clearbody q k s.
  clear Hk E1 E2. apply Qabs_Qle_condition.
  unfold Qdiv in *. change (/ 2)%Q with (1 # 2)%Q in *. split; lra.
Qed.

Lemma quantize_error_bound_witness :
  exists q : Z,
    quantize exact (Some 100%Q) (Some 4%Q) = Some (inject_Z q)
    /\ (Qabs (inject_Z q - 100) <= 255 / (4 - 1) / 2 + 1 / 2)%Q.
Proof. apply (quantize_error_bound 4 100); by vm_compute. Defined.

Lemma levels_step (L : Z) :
  2 <= L -> (0 < 255 / (inject_Z L - 1))%Q /\ (1 <= inject_Z L - 1)%Q.
Proof.
  intros HL.
  assert (HLq : (2 <= inject_Z L)%Q)
    by (change 2%Q with (inject_Z 2); by rewrite <- Zle_Qle).
  split; [by apply step_positive|lra].
Qed.

Lemma level_monotone (L k k' : Z) : 2 <= L -> k <= k' -> level L k <= level L k'.
Proof.
  intros HL Hk. destruct (levels_step L HL) as [Hs _].
  unfold level. apply Qround_half_up_le, Qmult_le_compat_r; [|lra].
  by rewrite <- Zle_Qle.
Qed.

Lemma level_first (L : Z) : 2 <= L -> level L 0 = 0.
Proof.
  intros HL. unfold level. apply Qround_half_up_integer.
  change (inject_Z 0) with 0%Q. ring.
Qed.

Lemma level_last (L : Z) : 2 <= L -> level L (L - 1) = 255.
Proof.
  intros HL. destruct (levels_step L HL) as [_ Hd].
  unfold level. apply Qround_half_up_integer.
  rewrite inject_Z_minus. change (inject_Z 1) with 1%Q.
  change (inject_Z 255) with 255%Q. field. lra.
Qed.

(** The level that [quantize] picks for a finite value: k = round(v / step). *)
Lemma exact_quantize_level (L : Z) (v : Q) :
  2 <= L ->
  quantize exact (Some v) (Some (inject_Z L))
  = Some (inject_Z (level L (Qround_half_up (v / (255 / (inject_Z L - 1)))))).
Proof.
  intros HL. destruct (levels_step L HL) as [_ Hd].
  rewrite exact_quantize by lra. reflexivity.
Qed.

Lemma level_index_range (L : Z) (v : Q) :
  2 <= L -> (0 <= v <= 255)%Q ->
  0 <= Qround_half_up (v / (255 / (inject_Z L - 1))) <= L - 1.
Proof.
  intros HL Hv. destruct (levels_step L HL) as [Hs Hd].
  set (s := (255 / (inject_Z L - 1))%Q) in *.
  assert (H0 : Qround_half_up (0 / s) = 0).
  { apply Qround_half_up_integer. change (inject_Z 0) with 0%Q. field. lra. }
  assert (H1 : Qround_half_up (255 / s) = L - 1).
  { apply Qround_half_up_integer. rewrite inject_Z_minus.
    change (inject_Z 1) with 1%Q. unfold s. field. lra. }
  rewrite <- H0 at 1. rewrite <- H1.
  split; apply Qround_half_up_le, Qdiv_le_compat; lra.
Qed.

(** Clamping a level to [0,255] gives a level again. *)
Lemma clamped_level (L k : Z) :
  2 <= L ->
  exists k', 0 <= k' <= L - 1 /\ Z.max 0 (Z.min 255 (level L k)) = level L k'.
Proof.
  intros HL.
  pose proof (level_first L HL) as H0. pose proof (level_last L HL) as H1.
  destruct (Z.le_gt_cases k 0) as [Hk|Hk].
  { exists 0. split; [lia|]. pose proof (level_monotone L k 0 HL Hk). lia. }
  destruct (Z.le_gt_cases (L - 1) k) as [Hk'|Hk'].
  { exists (L - 1). split; [lia|]. pose proof (level_monotone L (L - 1) k HL Hk'). lia. }
  exists k. split; [lia|].
  pose proof (level_monotone L 0 k HL ltac:(lia)).
  pose proof (level_monotone L k (L - 1) HL ltac:(lia)). lia.
Qed.

(** X3: for 2 <= levels <= 256, a quantized value is a fixed point:
    quantize(quantize(v, levels), levels) = quantize(v, levels), for every
    v, in exact arithmetic.  (Above 256 levels the step is below 1 and the
    last rounding can leave the grid.) *)
Theorem quantize_idempotent (levels v : Q) :
  (2 <= levels <= 256)%Q ->
  exists q : Z,
    quantize exact (Some v) (Some levels) = Some (inject_Z q)
    /\ quantize exact (Some (inject_Z q)) (Some levels) = Some (inject_Z q).
Proof.
  intros [HL HL']. pose proof (step_positive levels HL) as Hs.
  assert (Hs1 : (1 <= 255 / (levels - 1))%Q).
  { apply Qle_shift_div_l; lra. }
  rewrite exact_quantize by done. eexists. split; [done|].
  rewrite exact_quantize by done.
  set (s := (255 / (levels - 1))%Q) in *.
  set (k := Qround_half_up (v / s)).
  pose proof (Qround_half_up_near (inject_Z k * s)) as Hq.
  set (q := Qround_half_up (inject_Z k * s)) in *.
  enough (Hk : Qround_half_up (inject_Z q / s) = k) by (by rewrite Hk).
  clearbody q k s. clear v.
  unfold Qround_half_up. apply Qfloor_unique.
  - assert (H : (inject_Z k - (1 # 2) <= inject_Z q / s)%Q).
    { apply Qle_shift_div_l; [done|]. lra. }
    lra.
  - rewrite inject_Z_plus. change (inject_Z 1) with 1%Q.
    assert (H : (inject_Z q / s < inject_Z k + (1 # 2))%Q).
    { apply Qlt_shift_div_r; [done|].
      apply Qle_lteq in Hs1 as [Hs1|Hs1].
      - lra.
      - assert (Hqk : (inject_Z q < inject_Z (k + 1))%Q).
        { rewrite inject_Z_plus. change (inject_Z 1) with 1%Q.
          rewrite <- Hs1 in Hq. lra. }
        rewrite <- Zlt_Qlt in Hqk.
        assert (Hle : (inject_Z q <= inject_Z k)%Q) by (rewrite <- Zle_Qle; lia).
        rewrite <- Hs1. lra. }
    lra.
Qed.

Lemma quantize_idempotent_witness :
  exists q : Z,
    quantize exact (Some 100%Q) (Some 4%Q) = Some (inject_Z q)
    /\ quantize exact (Some (inject_Z q)) (Some 4%Q) = Some (inject_Z q).
Proof. apply (quantize_idempotent 4 100); split; by vm_compute. Defined.

(** ** Colour stops *)

Lemma hex_digit_range c d : hex_digit c = Some d -> 0 <= d <= 15.
Proof.
  unfold hex_digit. intros H.
  repeat match type of H with
    | (if ?b then _ else _) = _ => destruct b eqn:?
    end; simplify_eq; lia.
Qed.

Lemma hexToRgb_parsed (hex : string) :
  (exists r1 r0 g1 g0 b1 b0,
     map hex_digit (list_ascii_of_string (hex_body hex))
       = [Some r1; Some r0; Some g1; Some g0; Some b1; Some b0]
     /\ hexToRgb hex = Rgb (16 * r1 + r0) (16 * g1 + g0) (16 * b1 + b0))
  \/ ((forall ds, map hex_digit (list_ascii_of_string (hex_body hex)) = Some <$> ds ->
         length ds <> 6%nat)
      /\ hexToRgb hex = Rgb 0 0 0).
Proof.
  unfold hexToRgb. fold (hex_body hex).
  destruct (map hex_digit (list_ascii_of_string (hex_body hex)))
    as [|[r1|] [|[r0|] [|[g1|] [|[g0|] [|[b1|] [|[b0|] [|x l]]]]]]] eqn:E.
  all: try (left; by eexists _, _, _, _, _, _).
  all: right; split; [|done]; intros ds Hds.
  all: repeat (destruct ds as [|? ds]; try done).
Qed.

Lemma length_list_ascii_of_string s :
  length (list_ascii_of_string s) = String.length s.
Proof. induction s as [|c s IH]; simpl; congruence. Qed.

Lemma hexToRgb_bytes (hex : string) :
  byte (r (hexToRgb hex)) /\ byte (g (hexToRgb hex)) /\ byte (b (hexToRgb hex)).
Proof.
  unfold byte.
  destruct (hexToRgb_parsed hex)
    as [(r1 & r0 & g1 & g0 & b1 & b0 & Hd & ->)|[_ ->]]; [|simpl; lia].
  repeat (apply map_eq_cons in Hd as (? & ? & ? & ?%hex_digit_range & Hd)).
  cbn [r g b]. lia.
Qed.

(** X4: every channel that [hexToRgb] returns lies in [0,255], and a
    result other than black (0, 0, 0) comes from a string that, after an
    optional [#], has six characters, each a hexadecimal digit. *)
Theorem hexToRgb_channels (hex : string) :
  let c := hexToRgb hex in
  (byte (r c) /\ byte (g c) /\ byte (b c))
  /\ (c <> Rgb 0 0 0 ->
      String.length (hex_body hex) = 6%nat
      /\ Forall (fun a => is_Some (hex_digit a)) (list_ascii_of_string (hex_body hex))).
Proof.
  cbv zeta. unfold byte.
  destruct (hexToRgb_parsed hex)
    as [(r1 & r0 & g1 & g0 & b1 & b0 & Hd & ->)|[_ ->]]; [|split; [simpl; lia|done]].
  split.
  - pose proof Hd as Hd'.
    repeat (apply map_eq_cons in Hd' as (? & ? & ? & ?%hex_digit_range & Hd')).
    cbn [r g b]. lia.
  - intros _. rewrite <- length_list_ascii_of_string.
    split; [by rewrite <- (length_map hex_digit), Hd|].
    apply Forall_forall. intros a Ha.
    apply list_elem_of_In, (in_map hex_digit) in Ha. rewrite Hd in Ha.
    repeat (destruct Ha as [<-|Ha]; [by eexists|]). destruct Ha.
Qed.

(** ** lerpColors, in exact arithmetic *)

Lemma Qround_between (lo hi : Z) (v : Q) :
  (inject_Z lo <= v <= inject_Z hi)%Q -> lo <= Qround_half_up v <= hi.
Proof.
  intros Hv. split.
  - etransitivity; [|apply Qround_half_up_le, Hv].
    by rewrite (Qround_half_up_integer _ lo).
  - etransitivity; [apply Qround_half_up_le, Hv|].
    by rewrite (Qround_half_up_integer _ hi).
Qed.

(** A weighted mean of two integers lies between them. *)
Lemma blend_range (c1 c2 : Z) (t : Q) :
  (0 <= t <= 1)%Q ->
  (inject_Z (Z.min c1 c2) <= inject_Z c1 + (inject_Z c2 - inject_Z c1) * t
   <= inject_Z (Z.max c1 c2))%Q.
Proof.
  intros Ht. destruct (Z.le_gt_cases c1 c2) as [H|H].
  - rewrite Z.min_l, Z.max_r by lia. rewrite Zle_Qle in H.
    assert (0 <= (inject_Z c2 - inject_Z c1) * t)%Q
      by (apply Qmult_le_0_compat; lra).
    assert ((inject_Z c2 - inject_Z c1) * t <= (inject_Z c2 - inject_Z c1) * 1)%Q
      by (rewrite !(Qmult_comm (inject_Z c2 - inject_Z c1));
          apply Qmult_le_compat_r; lra).
    lra.
  - rewrite Z.min_r, Z.max_l by lia. apply Z.lt_le_incl in H. rewrite Zle_Qle in H.
    assert (0 <= (inject_Z c1 - inject_Z c2) * t)%Q
      by (apply Qmult_le_0_compat; lra).
    assert ((inject_Z c1 - inject_Z c2) * t <= (inject_Z c1 - inject_Z c2) * 1)%Q
      by (rewrite !(Qmult_comm (inject_Z c1 - inject_Z c2));
          apply Qmult_le_compat_r; lra).
    lra.
Qed.

Lemma mix_between c1 c2 localT :
  (0 <= localT <= 1)%Q ->
  exists z, mix c1 c2 localT = Some (inject_Z z)
            /\ Z.min c1 c2 <= z <= Z.max c1 c2.
Proof.
  intros Ht. unfold mix. eexists. split; [done|].
  by apply Qround_between, blend_range.
Qed.

Lemma local_position (N : Z) (t : Q) :
  2 <= N -> (0 <= t <= 1)%Q ->
  let segment := Z.max 0 (Z.min (N - 2) (Qfloor (t * inject_Z (N - 1)))) in
  (0 <= t * inject_Z (N - 1) - inject_Z segment <= 1)%Q /\ 0 <= segment <= N - 2.
Proof.
  intros HN Ht.
  assert (Hs : (1 <= inject_Z (N - 1))%Q)
    by (change 1%Q with (inject_Z 1); rewrite <- Zle_Qle; lia).
  set (ts := (t * inject_Z (N - 1))%Q).
  assert (Hts : (0 <= ts <= inject_Z (N - 1))%Q).
  { unfold ts. split; [apply Qmult_le_0_compat; lra|].
    rewrite <- (Qmult_1_l (inject_Z (N - 1))) at 2.
    apply Qmult_le_compat_r; lra. }
  pose proof (Qfloor_le ts) as Hlo. pose proof (Qlt_floor ts) as Hhi.
  assert (Hf0 : 0 <= Qfloor ts).
  { change 0 with (Qfloor 0). apply Qfloor_resp_le. lra. }
  assert (Hf1 : Qfloor ts <= N - 1).
  { rewrite <- (Qfloor_Z (N - 1)). apply Qfloor_resp_le. lra. }
  rewrite inject_Z_plus in Hhi. change (inject_Z 1) with 1%Q in Hhi.
  cbv zeta. split; [|lia].
  destruct (Z.le_gt_cases (Qfloor ts) (N - 2)) as [H|H].
  - replace (Z.max 0 (Z.min (N - 2) (Qfloor ts))) with (Qfloor ts) by lia. lra.
  - replace (Z.max 0 (Z.min (N - 2) (Qfloor ts))) with (N - 2) by lia.
    assert (Hf : Qfloor ts = N - 1) by lia. rewrite Hf in Hlo.
    rewrite !inject_Z_minus in *. change (inject_Z 1) with 1%Q in *.
    change (inject_Z 2) with 2%Q. lra.
Qed.

Lemma lerpColors_between (colors : list string) (t : Q) :
  2 <= Z.of_nat (length colors) -> (0 <= t <= 1)%Q ->
  exists (i : nat) (c1 c2 : rgb Z) (zr zg zb : Z),
    (hexToRgb <$> colors) !! i = Some c1
    /\ (hexToRgb <$> colors) !! S i = Some c2
    /\ lerpColors exact colors (Some t)
       = Some (Rgb (Some (inject_Z zr)) (Some (inject_Z zg)) (Some (inject_Z zb)))
    /\ Z.min (r c1) (r c2) <= zr <= Z.max (r c1) (r c2)
    /\ Z.min (g c1) (g c2) <= zg <= Z.max (g c1) (g c2)
    /\ Z.min (b c1) (b c2) <= zb <= Z.max (b c1) (b c2).
Proof.
  set (N := Z.of_nat (length colors)). intros HN Ht.
  destruct (lerpColors_exact colors t HN Ht) as (c1 & c2 & H1 & H2 & ->).
  destruct (local_position N t HN Ht) as [Hl Hseg]. fold N in H1, H2 |- *.
  set (segment := Z.max 0 (Z.min (N - 2) (Qfloor (t * inject_Z (N - 1))))) in *.
  rewrite get_lookup in H1, H2 by lia.
  replace (Z.to_nat (segment + 1)) with (S (Z.to_nat segment)) in H2 by lia.
  destruct (mix_between (r c1) (r c2) _ Hl) as (zr & -> & Hr).
  destruct (mix_between (g c1) (g c2) _ Hl) as (zg & -> & Hg).
  destruct (mix_between (b c1) (b c2) _ Hl) as (zb & -> & Hb).
  by exists (Z.to_nat segment), c1, c2, zr, zg, zb.
Qed.

Lemma stop_bytes (colors : list string) (i : nat) (c : rgb Z) :
  (hexToRgb <$> colors) !! i = Some c -> byte (r c) /\ byte (g c) /\ byte (b c).
Proof.
  intros H. apply list_lookup_fmap_Some in H as (s & -> & _). apply hexToRgb_bytes.
Qed.

(** X5: for at least two stops and t in [0,1], [lerpColors] returns
    integer channels, each between the same channel of two adjacent stops
    and so in [0,255], in exact arithmetic. *)
Theorem lerpColors_between_stops (colors : list string) (t : Q) :
  let N := Z.of_nat (length colors) in
  2 <= N -> (0 <= t <= 1)%Q ->
  exists (i : nat) (c1 c2 : rgb Z) (zr zg zb : Z),
    (hexToRgb <$> colors) !! i = Some c1
    /\ (hexToRgb <$> colors) !! S i = Some c2
    /\ lerpColors exact colors (Some t)
       = Some (Rgb (Some (inject_Z zr)) (Some (inject_Z zg)) (Some (inject_Z zb)))
    /\ Z.min (r c1) (r c2) <= zr <= Z.max (r c1) (r c2)
    /\ Z.min (g c1) (g c2) <= zg <= Z.max (g c1) (g c2)
    /\ Z.min (b c1) (b c2) <= zb <= Z.max (b c1) (b c2)
    /\ byte zr /\ byte zg /\ byte zb.
Proof.
  intros N HN Ht.
  destruct (lerpColors_between colors t HN Ht)
    as (i & c1 & c2 & zr & zg & zb & H1 & H2 & E & Hr & Hg & Hb).
  exists i, c1, c2, zr, zg, zb. repeat split; try done; try lia.
  all: destruct (stop_bytes colors i c1 H1) as (? & ? & ?).
  all: destruct (stop_bytes colors (S i) c2 H2) as (? & ? & ?).
  all: unfold byte in *; lia.
Qed.

Lemma lerpColors_between_stops_witness :
  exists (i : nat) (c1 c2 : rgb Z) (zr zg zb : Z),
    (hexToRgb <$> ["#000000"; "#ffffff"; "#ff0000"]%string) !! i = Some c1
    /\ (hexToRgb <$> ["#000000"; "#ffffff"; "#ff0000"]%string) !! S i = Some c2
    /\ lerpColors exact ["#000000"; "#ffffff"; "#ff0000"]%string (Some (3 # 4)%Q)
       = Some (Rgb (Some (inject_Z zr)) (Some (inject_Z zg)) (Some (inject_Z zb)))
    /\ Z.min (r c1) (r c2) <= zr <= Z.max (r c1) (r c2)
    /\ Z.min (g c1) (g c2) <= zg <= Z.max (g c1) (g c2)
    /\ Z.min (b c1) (b c2) <= zb <= Z.max (b c1) (b c2)
    /\ byte zr /\ byte zg /\ byte zb.
Proof.
  apply (lerpColors_between_stops ["#000000"; "#ffffff"; "#ff0000"]%string (3 # 4));
    [by vm_compute|split; by vm_compute].
Defined.

(** X6: at the position of a stop, t = k / (N - 1) for the k-th of N >= 2
    stops, [lerpColors] returns the colour of that stop, in exact
    arithmetic. *)
Theorem lerpColors_at_stop (colors : list string) (k : nat) (c : string) :
  let N := Z.of_nat (length colors) in
  2 <= N -> colors !! k = Some c ->
  lerpColors exact colors (Some (inject_Z (Z.of_nat k) / inject_Z (N - 1))%Q)
  = Some (channels (hexToRgb c)).
Proof.
  intros N HN Hk.
  assert (HkN : Z.of_nat k <= N - 1) by (apply lookup_lt_Some in Hk; lia).
  assert (Hs : (1 <= inject_Z (N - 1))%Q)
    by (change 1%Q with (inject_Z 1); rewrite <- Zle_Qle; lia).
  set (t := (inject_Z (Z.of_nat k) / inject_Z (N - 1))%Q).
  assert (Hts : (t * inject_Z (N - 1) == inject_Z (Z.of_nat k))%Q)
    by (unfold t; field; lra).
  assert (Ht : (0 <= t <= 1)%Q).
  { unfold t. split.
    - apply Qle_shift_div_l; [lra|]. rewrite Qmult_0_l.
      change 0%Q with (inject_Z 0). rewrite <- Zle_Qle. lia.
    - apply Qle_shift_div_r; [lra|]. rewrite Qmult_1_l. by rewrite <- Zle_Qle. }
  destruct (lerpColors_exact colors t HN Ht) as (c1 & c2 & H1 & H2 & ->).
  fold N in H1, H2 |- *.
  assert (Hf : Qfloor (t * inject_Z (N - 1)) = Z.of_nat k)
    by (rewrite Hts; apply Qfloor_Z).
  rewrite Hf in *.
  assert (Hc : (hexToRgb <$> colors) !! k = Some (hexToRgb c))
    by (by rewrite list_lookup_fmap, Hk).
  destruct (Z.le_gt_cases (Z.of_nat k) (N - 2)) as [H|H].
  - replace (Z.max 0 (Z.min (N - 2) (Z.of_nat k))) with (Z.of_nat k) in * by lia.
    rewrite get_lookup, Nat2Z.id, Hc in H1 by lia. injection H1 as <-.
    unfold channels. f_equal. f_equal; apply mix_integer; rewrite Hts; ring.
  - replace (Z.max 0 (Z.min (N - 2) (Z.of_nat k))) with (N - 2) in * by lia.
    rewrite get_lookup in H2 by lia.
    replace (Z.to_nat (N - 2 + 1)) with k in H2 by lia.
    rewrite Hc in H2. injection H2 as <-.
    assert (Hk1 : (inject_Z (Z.of_nat k) - inject_Z (N - 2) == 1)%Q).
    { replace (Z.of_nat k) with (N - 2 + 1) by lia.
      rewrite inject_Z_plus. change (inject_Z 1) with 1%Q. ring. }
    unfold channels. f_equal. f_equal; apply mix_integer; rewrite Hts, Hk1; ring.
Qed.

Lemma lerpColors_at_stop_witness :
  lerpColors exact ["#000000"; "#336699"; "#ff0000"]%string
    (Some (inject_Z (Z.of_nat 1) / inject_Z (3 - 1))%Q)
  = Some (channels (hexToRgb "#336699")).
Proof.
  apply (lerpColors_at_stop ["#000000"; "#336699"; "#ff0000"]%string 1 "#336699");
    [by vm_compute|reflexivity].
Defined.

Lemma get_negative {T : Type} (a : list T) (i : Z) : i < 0 -> get a i = None.
Proof. intros Hi. unfold get. by rewrite (proj2 (Z.leb_gt 0 i)). Qed.

Lemma lerpColors_segment (colors : list string) (q : Q) :
  let N := Z.of_nat (length colors) in
  let segment := Z.min (Qfloor (q * inject_Z (N - 1))) (N - 1 - 1) in
  lerpColors exact colors (Some q)
  = c1 ← get (hexToRgb <$> colors) segment;
    c2 ← get (hexToRgb <$> colors) (segment + 1);
    Some (Rgb (mix (r c1) (r c2) (q * inject_Z (N - 1) - inject_Z segment))
              (mix (g c1) (g c2) (q * inject_Z (N - 1) - inject_Z segment))
              (mix (b c1) (b c2) (q * inject_Z (N - 1) - inject_Z segment))).
Proof.
  intros N segment.
  assert (Hlen : Z.of_nat (length (hexToRgb <$> colors)) = N) by (by rewrite length_fmap).
  unfold lerpColors. rewrite Hlen.
  cbn [add sub mul of_Z exact Math_floor Math_min Math_round to_index
       Exact.lift2 Exact.lift1].
  rewrite exact_min_integers. fold segment.
  cbn [Exact.lift2 Exact.lift1].
  rewrite (exact_to_index_integer (inject_Z segment) segment) by reflexivity.
  rewrite (exact_to_index_integer (inject_Z segment + inject_Z 1) (segment + 1))
    by (rewrite inject_Z_plus; reflexivity).
  reflexivity.
Qed.

(** With fewer than two stops, or at a negative or NaN position, the first
    stop that [lerpColors] reads is undefined. *)
Lemma lerpColors_throws (colors : list string) (t : num exact) :
  Z.of_nat (length colors) < 2 \/ t = None \/ (exists q, t = Some q /\ (q < 0)%Q) ->
  lerpColors exact colors t = None.
Proof.
  intros H. destruct t as [q|]; [|done].
  rewrite lerpColors_segment. cbv zeta.
  set (N := Z.of_nat (length colors)) in *.
  rewrite (get_negative _ (Z.min (Qfloor (q * inject_Z (N - 1))) (N - 1 - 1))); [done|].
  destruct H as [H|[H|(q' & [= <-] & Hq)]]; [lia|done|].
  destruct (Z.lt_ge_cases N 2) as [HN|HN]; [lia|].
  assert (Qfloor (q * inject_Z (N - 1)) < 0); [|lia].
  assert (Hs : (1 <= inject_Z (N - 1))%Q)
    by (change 1%Q with (inject_Z 1); rewrite <- Zle_Qle; lia).
  pose proof (Qfloor_le (q * inject_Z (N - 1))) as Hf.
  assert (0 <= (-q) * (inject_Z (N - 1) - 1))%Q by (apply Qmult_le_0_compat; lra).
  rewrite Zlt_Qlt. change (inject_Z 0) with 0%Q. lra.
Qed.

(** X7: in exact arithmetic [lerpColors] returns a colour exactly when
    there are at least two stops and t is a number that is not negative;
    with fewer stops, a negative t or NaN it reads a channel of an undefined
    stop and throws.  A position above 1 does not throw. *)
Theorem lerpColors_returns_iff (colors : list string) (t : num exact) :
  is_Some (lerpColors exact colors t)
  <-> 2 <= Z.of_nat (length colors) /\ exists q : Q, t = Some q /\ (0 <= q)%Q.
Proof.
  split.
  - intros [col Hcol].
    destruct (Z.lt_ge_cases (Z.of_nat (length colors)) 2) as [HN|HN].
    { rewrite lerpColors_throws in Hcol by (by left). done. }
    split; [done|]. destruct t as [q|]; [|done].
    exists q. split; [done|]. destruct (Qlt_le_dec q 0) as [Hq|Hq]; [|done].
    rewrite lerpColors_throws in Hcol by (right; right; by exists q). done.
  - intros (HN & q & -> & Hq). rewrite lerpColors_segment. cbv zeta.
    set (N := Z.of_nat (length colors)) in *.
    set (segment := Z.min (Qfloor (q * inject_Z (N - 1))) (N - 1 - 1)).
    assert (0 <= Qfloor (q * inject_Z (N - 1))).
    { change 0 with (Qfloor 0). apply Qfloor_resp_le.
      apply Qmult_le_0_compat; [done|].
      change 0%Q with (inject_Z 0). rewrite <- Zle_Qle. lia. }
    assert (Hlen : Z.of_nat (length (hexToRgb <$> colors)) = N)
      by (by rewrite length_fmap).
    destruct (lookup_lt_is_Some_2 (hexToRgb <$> colors) (Z.to_nat segment))
      as [c1 Hc1]; [lia|].
    destruct (lookup_lt_is_Some_2 (hexToRgb <$> colors) (Z.to_nat (segment + 1)))
      as [c2 Hc2]; [lia|].
    rewrite !get_lookup, Hc1 by lia. cbn [mbind option_bind].
    rewrite Hc2. by eexists.
Qed.

(** ** generateBayerMatrix for every size *)

Lemma for_collect {T : Type} n (f : Z -> option T) (g : Z -> T) :
  (forall i, 0 <= i < n -> f i = Some (g i)) ->
  for_ n (fun x row => row ← row; v ← f x; Some (row ++ [v])) (Some [])
  = Some (g <$> seqZ 0 n).
Proof.
  intros Hf. destruct (Z.le_gt_cases 0 n) as [Hn|Hn].
  - apply (for_ind (fun i s => s = Some (g <$> seqZ 0 i))); [done|done|].
    intros i s Hi ->. cbn [mbind option_bind]. rewrite Hf by done.
    cbn [mbind option_bind]. rewrite (seqZ_app 0 i 1), fmap_app by lia.
    by rewrite Z.add_0_l.
  - by rewrite for_nonpos, seqZ_nil by lia.
Qed.

Lemma for_collect_rows {T : Type} n (f : Z -> option T) (g : Z -> T) :
  (forall i, 0 <= i < n -> f i = Some (g i)) ->
  for_ n (fun y matrix => row ← f y; matrix ← matrix; Some (matrix ++ [row])) (Some [])
  = Some (g <$> seqZ 0 n).
Proof.
  intros Hf. destruct (Z.le_gt_cases 0 n) as [Hn|Hn].
  - apply (for_ind (fun i s => s = Some (g <$> seqZ 0 i))); [done|done|].
    intros i s Hi ->. rewrite Hf by done. cbn [mbind option_bind].
    rewrite (seqZ_app 0 i 1), fmap_app by lia.
    by rewrite Z.add_0_l.
  - by rewrite for_nonpos, seqZ_nil by lia.
Qed.

Lemma get_fmap_seqZ {T : Type} (f : Z -> T) (n i : Z) :
  0 <= i < n -> get (f <$> seqZ 0 n) i = Some (f i).
Proof.
  intros Hi. rewrite get_lookup, list_lookup_fmap by lia.
  rewrite lookup_seqZ_lt by lia. cbn. f_equal. f_equal. lia.
Qed.

Lemma mat_get_entries size e y x :
  0 <= y < size -> 0 <= x < size -> mat_get (entries size e) y x = Some (e y x).
Proof.
  intros Hy Hx. unfold mat_get, entries. rewrite get_fmap_seqZ by done.
  cbn [mbind option_bind]. by rewrite get_fmap_seqZ.
Qed.

Lemma BAYER_2_entries : BAYER_2 = entries 2 (bayer_index 0).
Proof. reflexivity. Qed.

Lemma quadrant_range half y x :
  0 < half -> 0 <= y < 2 * half -> 0 <= x < 2 * half ->
  0 <= y / half <= 1 /\ 0 <= x / half <= 1.
Proof.
  intros Hh Hy Hx.
  pose proof (Z.div_pos y half). pose proof (Z.div_pos x half).
  pose proof (Z.div_lt_upper_bound y half 2).
  pose proof (Z.div_lt_upper_bound x half 2). lia.
Qed.

Lemma generateBayerMatrix_entries (n k : nat) :
  generateBayerMatrix (S n + k) (2 ^ Z.of_nat (S n))
  = Some (entries (2 ^ Z.of_nat (S n)) (bayer_index n)).
Proof.
  induction n as [|n IH]; [done|].
  set (half := 2 ^ Z.of_nat (S n)) in *.
  assert (Hhalf : 2 <= half).
  { unfold half. rewrite Nat2Z.inj_succ, Z.pow_succ_r by lia.
    pose proof (Z.pow_pos_nonneg 2 (Z.of_nat n)). lia. }
  assert (Hsize : 2 ^ Z.of_nat (S (S n)) = 2 * half).
  { unfold half. rewrite (Nat2Z.inj_succ (S n)), Z.pow_succ_r by lia. done. }
  rewrite Hsize.
  change (S (S n) + k)%nat with (S (S n + k)). cbn [generateBayerMatrix].
  rewrite (proj2 (Z.eqb_neq (2 * half) 2)) by lia.
  replace (Z.even (2 * half)) with true by (by rewrite Z.even_mul).
  replace (2 * half / 2) with half by (rewrite Z.mul_comm, Z.div_mul; lia).
  rewrite IH. cbn [mbind option_bind].
  apply (for_collect_rows _ _
    (fun y => (fun x => bayer_index (S n) y x) <$> seqZ 0 (2 * half))).
  intros y Hy.
  apply (for_collect _ _ (fun x => bayer_index (S n) y x)).
  intros x Hx. unfold bayer_entry.
  destruct (quadrant_range half y x) as [Hqy Hqx]; [lia..|].
  rewrite mat_get_entries
    by (split; [apply Z.rem_nonneg|apply Z.rem_bound_pos]; lia).
  cbn [mbind option_bind bayer_index]. fold half.
  destruct (lookup_lt_is_Some_2 [0; 2; 3; 1] (Z.to_nat (y / half * 2 + x / half)))
    as [o Ho]; [simpl; lia|].
  rewrite get_lookup, Ho by lia. done.
Qed.

Lemma offsets_range q :
  0 <= q < 4 -> 0 <= default 0 (get [0; 2; 3; 1] q) < 4.
Proof.
  intros Hq. assert (H : q = 0 \/ q = 1 \/ q = 2 \/ q = 3) by lia.
  destruct H as [-> | [-> | [-> | ->]]]; by vm_compute.
Qed.

Lemma offsets_inj q q' :
  0 <= q < 4 -> 0 <= q' < 4 ->
  default 0 (get [0; 2; 3; 1] q) = default 0 (get [0; 2; 3; 1] q') -> q = q'.
Proof.
  intros Hq Hq'.
  assert (H : q = 0 \/ q = 1 \/ q = 2 \/ q = 3) by lia.
  assert (H' : q' = 0 \/ q' = 1 \/ q' = 2 \/ q' = 3) by lia.
  destruct H as [-> | [-> | [-> | ->]]], H' as [-> | [-> | [-> | ->]]];
    vm_compute; congruence.
Qed.

Lemma pow2_succ (n : nat) : 2 ^ Z.of_nat (S n) = 2 * 2 ^ Z.of_nat n /\ 0 < 2 ^ Z.of_nat n.
Proof.
  rewrite Nat2Z.inj_succ, Z.pow_succ_r by lia.
  pose proof (Z.pow_pos_nonneg 2 (Z.of_nat n)). lia.
Qed.

Lemma bayer_index_range (n : nat) (y x : Z) :
  0 <= y < 2 ^ Z.of_nat (S n) -> 0 <= x < 2 ^ Z.of_nat (S n) ->
  0 <= bayer_index n y x < 2 ^ Z.of_nat (S n) * 2 ^ Z.of_nat (S n).
Proof.
  revert y x. induction n as [|n IH]; intros y x Hy Hx.
  - change (2 ^ Z.of_nat 1) with 2 in *.
    assert (Hy' : y = 0 \/ y = 1) by lia. assert (Hx' : x = 0 \/ x = 1) by lia.
    destruct Hy' as [-> | ->], Hx' as [-> | ->]; by vm_compute.
  - cbn [bayer_index]. set (half := 2 ^ Z.of_nat (S n)) in *.
    destruct (pow2_succ (S n)) as [Hs Hh]. fold half in Hs, Hh. rewrite Hs in *.
    destruct (quadrant_range half y x) as [Hqy Hqx]; [lia..|].
    pose proof (IH (Z.rem y half) (Z.rem x half)) as Hi.
    pose proof (offsets_range (y / half * 2 + x / half)) as Ho.
    pose proof (Z.rem_bound_pos y half). pose proof (Z.rem_bound_pos x half).
    nia.
Qed.

Lemma bayer_index_inj (n : nat) (y x y' x' : Z) :
  0 <= y < 2 ^ Z.of_nat (S n) -> 0 <= x < 2 ^ Z.of_nat (S n) ->
  0 <= y' < 2 ^ Z.of_nat (S n) -> 0 <= x' < 2 ^ Z.of_nat (S n) ->
  bayer_index n y x = bayer_index n y' x' -> y = y' /\ x = x'.
Proof.
  revert y x y' x'. induction n as [|n IH]; intros y x y' x' Hy Hx Hy' Hx'.
  - change (2 ^ Z.of_nat 1) with 2 in *.
    assert (Hy1 : y = 0 \/ y = 1) by lia. assert (Hx1 : x = 0 \/ x = 1) by lia.
    assert (Hy2 : y' = 0 \/ y' = 1) by lia. assert (Hx2 : x' = 0 \/ x' = 1) by lia.
    destruct Hy1 as [-> | ->], Hx1 as [-> | ->], Hy2 as [-> | ->], Hx2 as [-> | ->];
      vm_compute; intros; (done || lia).
  - cbn [bayer_index]. set (half := 2 ^ Z.of_nat (S n)) in *.
    destruct (pow2_succ (S n)) as [Hs Hh]. fold half in Hs, Hh. rewrite Hs in *.
    destruct (quadrant_range half y x) as [Hqy Hqx]; [lia..|].
    destruct (quadrant_range half y' x') as [Hqy' Hqx']; [lia..|].
    pose proof (offsets_range (y / half * 2 + x / half)) as Ho.
    pose proof (offsets_range (y' / half * 2 + x' / half)) as Ho'.
    intros E.
    assert (Ho1 : default 0 (get [0; 2; 3; 1] (y / half * 2 + x / half))
                = default 0 (get [0; 2; 3; 1] (y' / half * 2 + x' / half))) by lia.
    assert (Hi1 : bayer_index n (Z.rem y half) (Z.rem x half)
                = bayer_index n (Z.rem y' half) (Z.rem x' half)) by lia.
    apply offsets_inj in Ho1; [|lia..].
    apply IH in Hi1 as [Hry Hrx];
      try (split; [apply Z.rem_nonneg|apply Z.rem_bound_pos]; lia).
    rewrite !Z.rem_mod_nonneg in Hry, Hrx by lia.
    pose proof (Z.div_mod y half). pose proof (Z.div_mod x half).
    pose proof (Z.div_mod y' half). pose proof (Z.div_mod x' half).
    assert (y / half = y' / half) by lia. assert (x / half = x' / half) by lia.
    split; nia.
Qed.

Lemma concat_fmap_bind {T U : Type} (f : T -> list U) (l : list T) :
  concat (f <$> l) = l ≫= f.
Proof. induction l as [|a l IH]; [done|]. cbn. by rewrite IH. Qed.

Lemma length_concat_rows {T : Type} (c : nat) (l : list (list T)) :
  Forall (fun row => length row = c) l -> length (concat l) = (length l * c)%nat.
Proof.
  induction 1 as [|row l Hrow _ IH]; [done|].
  cbn. rewrite length_app, IH, Hrow. lia.
Qed.

Lemma entries_rows size e :
  Z.of_nat (length (entries size e)) = Z.max 0 size
  /\ Forall (fun row => Z.of_nat (length row) = Z.max 0 size) (entries size e).
Proof.
  unfold entries. split.
  - rewrite length_fmap, length_seqZ. lia.
  - apply Forall_fmap, Forall_forall. intros y _. cbn.
    rewrite length_fmap, length_seqZ. lia.
Qed.

(** A table whose entries are distinct and lie in 0 .. size^2 - 1 holds each
    of these numbers once. *)
Lemma entries_permutation size e :
  0 <= size ->
  (forall y x, 0 <= y < size -> 0 <= x < size -> 0 <= e y x < size * size) ->
  (forall y x y' x', 0 <= y < size -> 0 <= x < size ->
     0 <= y' < size -> 0 <= x' < size -> e y x = e y' x' -> y = y' /\ x = x') ->
  concat (entries size e) ≡ₚ seqZ 0 (size * size).
Proof.
  intros Hsize Hrange Hinj.
  apply submseteq_length_Permutation.
  - apply NoDup_submseteq.
    + unfold entries. rewrite concat_fmap_bind. apply NoDup_bind.
      * intros y y' v Hy Hy' Hv Hv'.
        apply elem_of_seqZ in Hy, Hy'.
        apply list_elem_of_fmap in Hv as (x & -> & Hx).
        apply list_elem_of_fmap in Hv' as (x' & E & Hx').
        apply elem_of_seqZ in Hx, Hx'.
        apply Hinj in E; [tauto|lia..].
      * intros y Hy. apply elem_of_seqZ in Hy.
        apply NoDup_fmap_2_strong; [|apply NoDup_seqZ].
        intros x x' Hx Hx' E. apply elem_of_seqZ in Hx, Hx'.
        apply Hinj in E; [tauto|lia..].
      * apply NoDup_seqZ.
    + intros v Hv. unfold entries in Hv. rewrite concat_fmap_bind in Hv.
      apply list_elem_of_bind in Hv as (y & Hv & Hy).
      apply list_elem_of_fmap in Hv as (x & -> & Hx).
      apply elem_of_seqZ in Hx, Hy. apply elem_of_seqZ.
      specialize (Hrange y x). lia.
  - destruct (entries_rows size e) as [Hlen Hrows].
    rewrite (length_concat_rows (Z.to_nat size)), length_seqZ.
    + nia.
    + eapply Forall_impl; [exact Hrows|]. cbn. intros row Hrow. lia.
Qed.

(** X8: for every power of two N = 2^n with n >= 1, [generateBayerMatrix]
    returns an N x N matrix whose entries are a permutation of
    0 .. N^2 - 1; a recursion depth of n suffices. *)
Theorem generateBayerMatrix_power_of_two (n k : nat) :
  (1 <= n)%nat ->
  let N := 2 ^ Z.of_nat n in
  exists m,
    generateBayerMatrix (n + k) N = Some m
    /\ Z.of_nat (length m) = N
    /\ Forall (fun row => Z.of_nat (length row) = N) m
    /\ concat m ≡ₚ seqZ 0 (N * N).
Proof.
  intros Hn N. destruct n as [|n]; [lia|].
  destruct (pow2_succ n) as [HN Hpos]. fold N in HN.
  exists (entries N (bayer_index n)). split; [apply generateBayerMatrix_entries|].
  destruct (entries_rows N (bayer_index n)) as [Hlen Hrows].
  rewrite Z.max_r in Hlen, Hrows by lia. split; [done|]. split; [done|].
  apply entries_permutation; [lia|..].
  - intros y x. apply bayer_index_range.
  - intros y x y' x'. apply bayer_index_inj.
Qed.

Lemma generateBayerMatrix_power_of_two_witness :
  exists m,
    generateBayerMatrix (5 + 0) (2 ^ Z.of_nat 5) = Some m
    /\ Z.of_nat (length m) = 2 ^ Z.of_nat 5
    /\ Forall (fun row => Z.of_nat (length row) = 2 ^ Z.of_nat 5) m
    /\ concat m ≡ₚ seqZ 0 (2 ^ Z.of_nat 5 * 2 ^ Z.of_nat 5).
Proof. apply (generateBayerMatrix_power_of_two 5 0). lia. Defined.

(** X9: [generateBayerMatrix] returns exactly for the sizes 2^n with
    n >= 1; for every other integer (odd, zero, negative, or even with an
    odd factor) the recursion never reaches size 2, whatever its depth. *)
Theorem generateBayerMatrix_returns_iff (size : Z) :
  (exists fuel m, generateBayerMatrix fuel size = Some m)
  <-> exists n : nat, (1 <= n)%nat /\ size = 2 ^ Z.of_nat n.
Proof.
  split.
  - intros (fuel & m & H). revert size m H.
    induction fuel as [|fuel IH]; intros size m H; [done|].
    cbn [generateBayerMatrix] in H.
    destruct (size =? 2) eqn:E2.
    { exists 1%nat. apply Z.eqb_eq in E2. by subst. }
    destruct (Z.even size) eqn:Ev; [|done].
    destruct (generateBayerMatrix fuel (size / 2)) as [smaller|] eqn:Hs; [|done].
    apply IH in Hs as (n & Hn & Hhalf).
    exists (S n). split; [lia|].
    destruct (pow2_succ n) as [-> _]. rewrite <- Hhalf.
    apply Zeven_bool_iff, Zeven_div2 in Ev. rewrite Z.div2_div in Ev. lia.
  - intros (n & Hn & ->).
    destruct n as [|n]; [lia|].
    exists (S n + 0)%nat, (entries (2 ^ Z.of_nat (S n)) (bayer_index n)).
    apply generateBayerMatrix_entries.
Qed.

(** ** Raster loops *)

(** Pixel (x', y') comes before pixel (x, y) in raster order. *)
Lemma raster_before width x y x' y' :
  0 <= x < width -> 0 <= x' < width -> 0 <= y' ->
  y' < y \/ (y' = y /\ x' < x) -> y' * width + x' < y * width + x.
Proof. intros Hx Hx' Hy' [H|[-> H]]; nia. Qed.

Lemma raster_inj width x y x' y' :
  0 <= x < width -> 0 <= x' < width ->
  y' * width + x' = y * width + x -> y' = y /\ x' = x.
Proof. intros Hx Hx' E. assert (y' = y) by nia. split; [done|nia]. Qed.

(** The loop invariant, then its consequence. *)
Lemma for_post {S : Type} (P : Z -> S -> Prop) (Q : S -> Prop) n
    (body : Z -> S -> S) s :
  0 <= n ->
  P 0 s ->
  (forall i s, 0 <= i < n -> P i s -> P (i + 1) (body i s)) ->
  (forall s, P n s -> Q s) ->
  Q (for_ n body s).
Proof. intros Hn H0 Hstep Hpost. by apply Hpost, for_ind. Qed.

(** A loop nest that stores [F x y c] into sample [c] of pixel (x, y): every
    sample it addresses inside the buffer holds its own value at the end. *)
Lemma raster_store (A : arith) (F : Z -> Z -> Z -> num A) width height out0 :
  let out :=
    for_ height (fun y =>
      for_ width (fun x out =>
        let idx := 4 * (y * width + x) in
        for_ 3 (fun c out => store8 A out (idx + c) (F x y c)) out)) out0 in
  length out = length out0
  /\ forall x y c, 0 <= x < width -> 0 <= y < height -> 0 <= c < 3 ->
       4 * (y * width + x) + c < Z.of_nat (length out0) ->
       get out (4 * (y * width + x) + c) = Some (to_uint8_clamp A (F x y c)).
Proof.
  cbv zeta.
  set (ok := fun x y c (out : list Z) =>
    4 * (y * width + x) + c < Z.of_nat (length out0) ->
    get out (4 * (y * width + x) + c) = Some (to_uint8_clamp A (F x y c))).
  destruct (Z.le_gt_cases height 0) as [Hh|Hh].
  { rewrite for_nonpos by done. split; [done|]. intros; lia. }
  apply (for_ind (fun y0 out => length out = length out0
    /\ forall x y c, 0 <= x < width -> 0 <= y < y0 -> 0 <= c < 3 -> ok x y c out));
    [lia|split; [done|intros; lia]|].
  intros y0 out Hy0 [Hlen Hout].
  destruct (Z.le_gt_cases width 0) as [Hw|Hw].
  { rewrite for_nonpos by done. split; [done|]. intros; lia. }
  apply (for_post (fun x0 out => length out = length out0
    /\ forall x y c, 0 <= x < width -> 0 <= y -> 0 <= c < 3 ->
         y < y0 \/ (y = y0 /\ x < x0) -> ok x y c out)); [lia| | |].
  { split; [done|]. intros x y c Hx Hy Hc Hb. apply Hout; lia. }
  2:{ intros out' [Hlen' Hout']. split; [done|]. intros x y c Hx Hy Hc.
      apply Hout'; lia. }
  clear out Hlen Hout. intros x0 out Hx0 [Hlen Hout].
  apply (for_post (fun c0 out => length out = length out0
    /\ forall x y c, 0 <= x < width -> 0 <= y -> 0 <= c < 3 ->
         y < y0 \/ (y = y0 /\ x < x0) \/ (y = y0 /\ x = x0 /\ c < c0) ->
         ok x y c out)); [lia| | |].
  { split; [done|]. intros x y c Hx Hy Hc Hb. apply Hout; lia. }
  2:{ intros out' [Hlen' Hout']. split; [done|]. intros x y c Hx Hy Hc Hb.
      apply Hout'; lia. }
  clear out Hlen Hout. intros c0 out Hc0 [Hlen Hout].
  unfold store8. rewrite length_set. split; [done|].
  intros x y c Hx Hy Hc Hb Hin.
  destruct (decide (y = y0 /\ x = x0 /\ c = c0)) as [(-> & -> & ->)|Hne].
  - apply get_set_eq. lia.
  - rewrite get_set_ne; [apply Hout; (done || lia)|].
    intros E. apply Hne.
    assert (y * width + x = y0 * width + x0 /\ c = c0) as [E1 ->] by lia.
    apply raster_inj in E1; [lia|lia..].
Qed.

(** ** Ordered and random dithering, sample by sample *)

Lemma bayerDither_sample (A : arith) pixels width height strength size colorLevels
    x y c :
  0 <= x < width -> 0 <= y < height -> 0 <= c < 3 ->
  4 * (y * width + x) + c < Z.of_nat (length pixels) ->
  let m := getBayerMatrix A size in
  let threshold :=
    mul A (mul A
      (sub A (div A (from_option (of_Z A) (NaN A)
                       (mat_get (bm_matrix m) (Z.rem y (bm_size m)) (Z.rem x (bm_size m))))
                    (of_Z A (bm_max m)))
             (div A (of_Z A 1) (of_Z A 2)))
      strength) (of_Z A 255) in
  get (bayerDither A pixels width height strength size colorLevels)
      (4 * (y * width + x) + c)
  = Some (to_uint8_clamp A (quantize A
      (Math_max A (of_Z A 0) (Math_min A (of_Z A 255)
         (add A (load8 A pixels (4 * (y * width + x) + c)) threshold)))
      colorLevels)).
Proof.
  intros Hx Hy Hc Hin. cbv zeta. unfold bayerDither.
  destruct (getBayerMatrix A size) as [matrix matrixSize max].
  cbn [bm_matrix bm_size bm_max].
  match goal with |- get (for_ _ (fun y => for_ _ (fun x out => for_ 3
      (fun c _ => store8 _ _ _ (@?F x y c)) _)) _) _ = _ =>
    destruct (raster_store A F width height pixels) as [_ H] end.
  by rewrite H.
Qed.

Lemma randomDither_sample (A : arith) random pixels width height strength grainSize
    colorLevels x y c :
  0 <= x < width -> 0 <= y < height -> 0 <= c < 3 ->
  4 * (y * width + x) + c < Z.of_nat (length pixels) ->
  let noiseWidth := to_int A (Math_ceil A (div A (of_Z A width) grainSize)) in
  let noiseHeight := to_int A (Math_ceil A (div A (of_Z A height) grainSize)) in
  let noise :=
    for_ (Z.of_nat (length (replicate (Z.to_nat (noiseWidth * noiseHeight)) (of_Z A 0))))
      (fun i noise =>
         store32 A noise i
           (mul A (mul A (sub A (random i) (div A (of_Z A 1) (of_Z A 2))) strength)
                (of_Z A 255)))
      (replicate (Z.to_nat (noiseWidth * noiseHeight)) (of_Z A 0)) in
  let noiseVal :=
    load32_at A noise
      (add A (mul A (Math_floor A (div A (of_Z A y) grainSize)) (of_Z A noiseWidth))
             (Math_floor A (div A (of_Z A x) grainSize))) in
  get (randomDither A random pixels width height strength grainSize colorLevels)
      (4 * (y * width + x) + c)
  = Some (to_uint8_clamp A (quantize A
      (Math_max A (of_Z A 0) (Math_min A (of_Z A 255)
         (add A (load8 A pixels (4 * (y * width + x) + c)) noiseVal)))
      colorLevels)).
Proof.
  intros Hx Hy Hc Hin. cbv zeta. unfold randomDither.
  match goal with |- get (for_ _ (fun y => for_ _ (fun x out => for_ 3
      (fun c _ => store8 _ _ _ (@?F x y c)) _)) _) _ = _ =>
    destruct (raster_store A F width height pixels) as [_ H] end.
  by rewrite H.
Qed.

(** ** Exact arithmetic on samples *)

Lemma clamp8_byte (z : Z) : 0 <= z <= 255 -> clamp8 (inject_Z z) = z.
Proof.
  intros Hz. unfold clamp8.
  destruct (Qle_bool (inject_Z z) 0) eqn:E0.
  { apply Qle_bool_iff in E0. change 0%Q with (inject_Z 0) in E0.
    rewrite <- Zle_Qle in E0. lia. }
  destruct (Qle_bool 255 (inject_Z z)) eqn:E1.
  { apply Qle_bool_iff in E1. change 255%Q with (inject_Z 255) in E1.
    rewrite <- Zle_Qle in E1. lia. }
  rewrite Qfloor_Z. unfold Qltb.
  destruct (Qle_bool (inject_Z z) (inject_Z z + (1 # 2))) eqn:E2; cycle 1.
  { apply Qle_bool_false in E2. lra. }
  cbn [negb].
  destruct (Qle_bool (inject_Z z + (1 # 2)) (inject_Z z)) eqn:E3; [|done].
  apply Qle_bool_iff in E3. lra.
Qed.

(** [Math.max(0, Math.min(255, v))] *)
Lemma exact_clamped (v : Q) :
  exists v' : Q,
    Math_max exact (of_Z exact 0) (Math_min exact (of_Z exact 255) (Some v)) = Some v'
    /\ (0 <= v' <= 255)%Q
    /\ ((0 <= v <= 255)%Q -> (v' == v)%Q).
Proof.
  cbn [Math_max Math_min exact of_Z]. unfold Exact.max, Exact.min, Exact.lift2.
  change (inject_Z 255) with 255%Q. change (inject_Z 0) with 0%Q.
  destruct (Qle_bool 255 v) eqn:E1.
  - apply Qle_bool_iff in E1.
    destruct (Qle_bool 0 255) eqn:E2; [|done].
    exists 255%Q. split; [done|]. split; [lra|]. intros Hv. lra.
  - apply Qle_bool_false in E1.
    destruct (Qle_bool 0 v) eqn:E2.
    + apply Qle_bool_iff in E2. exists v. split; [done|]. split; lra.
    + apply Qle_bool_false in E2. exists 0%Q. split; [done|]. split; lra.
Qed.

Lemma exact_quantize_Qeq (v w L : Q) :
  (2 <= L)%Q -> (v == w)%Q ->
  quantize exact (Some v) (Some L) = quantize exact (Some w) (Some L).
Proof.
  intros HL E. rewrite !exact_quantize by done. do 2 f_equal.
  unfold Qround_half_up. apply Qfloor_comp.
  assert (E' : Qfloor (v / (255 / (L - 1)) + (1 # 2))
             = Qfloor (w / (255 / (L - 1)) + (1 # 2))).
  { apply Qfloor_comp. by rewrite E. }
  by rewrite E'.
Qed.

Lemma level_byte (L k : Z) : 2 <= L -> 0 <= k <= L - 1 -> 0 <= level L k <= 255.
Proof.
  intros HL Hk. rewrite <- (level_first L HL) at 1. rewrite <- (level_last L HL).
  split; apply level_monotone; lia.
Qed.

Lemma on_palette_zero (L : Z) : 2 <= L -> on_palette L 0.
Proof. intros HL. exists 0. split; [lia|]. by rewrite level_first. Qed.

(** What ordered and random dithering store for a colour sample is a level,
    whatever the value they quantize. *)
Lemma exact_sample_on_palette (L : Z) (value : num exact) :
  2 <= L ->
  on_palette L (to_uint8_clamp exact (quantize exact
    (Math_max exact (of_Z exact 0) (Math_min exact (of_Z exact 255) value))
    (Some (inject_Z L)))).
Proof.
  intros HL. destruct value as [v|]; [|by apply on_palette_zero].
  destruct (exact_clamped v) as (v' & -> & Hv' & _).
  rewrite exact_quantize_level by done.
  pose proof (level_index_range L v' HL Hv') as Hk.
  cbn [to_uint8_clamp exact Exact.to_uint8_clamp].
  rewrite clamp8_byte by (by apply level_byte).
  by eexists.
Qed.

(** An 8-bit sample at strength 0: the stored value is its quantization. *)
Lemma exact_sample_plain (L p : Z) (noise : Q) :
  2 <= L -> 0 <= p <= 255 -> (noise == 0)%Q ->
  exists q,
    quantize exact (Some (inject_Z p)) (Some (inject_Z L)) = Some (inject_Z q)
    /\ to_uint8_clamp exact (quantize exact
         (Math_max exact (of_Z exact 0) (Math_min exact (of_Z exact 255)
            (add exact (Some (inject_Z p)) (Some noise))))
         (Some (inject_Z L))) = q.
Proof.
  intros HL Hp Hn. cbn [add exact Exact.lift2].
  assert (Hb : (0 <= inject_Z p + noise <= 255)%Q).
  { rewrite Hn, Qplus_0_r. change 0%Q with (inject_Z 0).
    change 255%Q with (inject_Z 255). rewrite <- !Zle_Qle. lia. }
  destruct (exact_clamped (inject_Z p + noise)) as (v' & -> & Hv' & Hv).
  assert (E : (v' == inject_Z p)%Q) by (rewrite Hv by done; rewrite Hn; ring).
  assert (HLQ : (2 <= inject_Z L)%Q)
    by (change 2%Q with (inject_Z 2); by rewrite <- Zle_Qle).
  rewrite (exact_quantize_Qeq v' (inject_Z p)) by done.
  rewrite exact_quantize_level by done.
  eexists. split; [done|].
  cbn [to_uint8_clamp exact Exact.to_uint8_clamp].
  apply clamp8_byte, level_byte; [done|].
  apply level_index_range; [done|].
  change 0%Q with (inject_Z 0). change 255%Q with (inject_Z 255).
  rewrite <- !Zle_Qle. lia.
Qed.

(** ** The threshold table of a request *)

Lemma bayer_tables (A : arith) (size : num A) :
  let m := getBayerMatrix A size in
  exists n : nat,
    (n <= 3)%nat
    /\ bm_size m = 2 ^ Z.of_nat (S n)
    /\ bm_max m = bm_size m * bm_size m
    /\ bm_matrix m = entries (bm_size m) (bayer_index n).
Proof.
  unfold getBayerMatrix.
  destruct (le A size _); [|destruct (le A size _); [|destruct (le A size _)]].
  - exists 0%nat. split; [lia|]. by vm_compute.
  - exists 1%nat. split; [lia|]. by vm_compute.
  - exists 2%nat. split; [lia|]. by vm_compute.
  - exists 3%nat. split; [lia|]. by vm_compute.
Qed.

(** X10: for every request, in every arithmetic (NaN included),
    [getBayerMatrix] returns a size in {2, 4, 8, 16}, max = size^2, and a
    size x size matrix whose entries are a permutation of 0 .. max - 1;
    every entry read at indices below size exists and is below max. *)
Theorem getBayerMatrix_table (A : arith) (size : num A) :
  let m := getBayerMatrix A size in
  bm_size m ∈ supported_sizes
  /\ bm_max m = bm_size m * bm_size m
  /\ Z.of_nat (length (bm_matrix m)) = bm_size m
  /\ Forall (fun row => Z.of_nat (length row) = bm_size m) (bm_matrix m)
  /\ concat (bm_matrix m) ≡ₚ seqZ 0 (bm_max m)
  /\ forall y x, 0 <= y < bm_size m -> 0 <= x < bm_size m ->
       exists e, mat_get (bm_matrix m) y x = Some e /\ 0 <= e < bm_max m.
Proof.
  cbv zeta. destruct (bayer_tables A size) as (n & Hn & Hs & Hmax & Hm).
  destruct (pow2_succ n) as [Hpow Hpos].
  destruct (entries_rows (bm_size (getBayerMatrix A size)) (bayer_index n))
    as [Hlen Hrows].
  rewrite Z.max_r in Hlen, Hrows by lia.
  split; [|split; [done|split; [by rewrite Hm|split; [by rewrite Hm|split]]]].
  - unfold supported_sizes. rewrite Hs.
    assert (H : (n = 0 \/ n = 1 \/ n = 2 \/ n = 3)%nat) by lia.
    destruct H as [-> | [-> | [-> | ->]]]; is_member.
  - rewrite Hm, Hmax. apply entries_permutation; [lia|..]; rewrite Hs.
    + intros y x. apply bayer_index_range.
    + intros y x y' x'. apply bayer_index_inj.
  - intros y x Hy Hx. rewrite Hm, mat_get_entries by done.
    eexists. split; [done|]. rewrite Hmax, Hs in *. by apply bayer_index_range.
Qed.

(** X11: ordered dithering is a point operation that repeats with the
    period of its matrix: two pixels whose coordinates agree modulo the
    matrix size and whose input samples of a colour channel are equal get
    equal output samples of that channel, in every arithmetic. *)
Theorem bayerDither_tiles (A : arith) (pixels : list Z) (width height : Z)
    (strength size colorLevels : num A) (x y x' y' c : Z) :
  let s := bm_size (getBayerMatrix A size) in
  let out := bayerDither A pixels width height strength size colorLevels in
  0 <= x < width -> 0 <= y < height -> 0 <= x' < width -> 0 <= y' < height ->
  0 <= c < 3 ->
  x mod s = x' mod s -> y mod s = y' mod s ->
  is_Some (get pixels (4 * (y * width + x) + c)) ->
  get pixels (4 * (y * width + x) + c) = get pixels (4 * (y' * width + x') + c) ->
  get out (4 * (y * width + x) + c) = get out (4 * (y' * width + x') + c).
Proof.
  intros s out Hx Hy Hx' Hy' Hc Ex Ey [v Hv] Hpix. subst out.
  assert (Hs : 0 < s).
  { unfold s. destruct (bayer_tables A size) as (n & _ & -> & _).
    apply Z.pow_pos_nonneg; lia. }
  assert (Hin : forall p v, get pixels p = Some v -> p < Z.of_nat (length pixels)).
  { intros p w Hp. unfold get in Hp. destruct (0 <=? p) eqn:E; [|done].
    apply lookup_lt_Some in Hp. lia. }
  assert (H1 := Hin _ _ Hv). rewrite Hpix in Hv. assert (H2 := Hin _ _ Hv).
  rewrite !bayerDither_sample by done.
  fold s. unfold load8. rewrite <- Hpix.
  rewrite !Z.rem_mod_nonneg by lia. by rewrite Ex, Ey.
Qed.

Lemma bayerDither_tiles_witness :
  get (bayerDither exact [10; 20; 30; 255; 1; 2; 3; 255; 10; 5; 6; 255] 3 1
         (Some 1%Q) (Some 2%Q) (Some 4%Q)) (4 * (0 * 3 + 0) + 0)
  = get (bayerDither exact [10; 20; 30; 255; 1; 2; 3; 255; 10; 5; 6; 255] 3 1
           (Some 1%Q) (Some 2%Q) (Some 4%Q)) (4 * (0 * 3 + 2) + 0).
Proof.
  apply (bayerDither_tiles exact [10; 20; 30; 255; 1; 2; 3; 255; 10; 5; 6; 255] 3 1
           (Some 1%Q) (Some 2%Q) (Some 4%Q) 0 0 2 0 0);
    first [lia | reflexivity | by eexists].
Defined.

Lemma bayerDither_strength_0 (pixels : list Z) (width height : Z)
    (size : num exact) (L x y c p : Z) :
  2 <= L -> 0 <= x < width -> 0 <= y < height -> 0 <= c < 3 ->
  get pixels (4 * (y * width + x) + c) = Some p -> byte p ->
  exists q,
    quantize exact (Some (inject_Z p)) (Some (inject_Z L)) = Some (inject_Z q)
    /\ get (bayerDither exact pixels width height (Some 0%Q) size (Some (inject_Z L)))
           (4 * (y * width + x) + c) = Some q.
Proof.
  intros HL Hx Hy Hc Hp Hbyte.
  assert (Hin : 4 * (y * width + x) + c < Z.of_nat (length pixels)).
  { unfold get in Hp. destruct (0 <=? _) eqn:E; [|done].
    apply lookup_lt_Some in Hp. lia. }
  rewrite bayerDither_sample by done.
  destruct (bayer_tables exact size) as (n & _ & Hs & Hmax & Hm).
  set (m := getBayerMatrix exact size) in *.
  assert (Hsz : 0 < bm_size m) by (rewrite Hs; apply Z.pow_pos_nonneg; lia).
  rewrite Hm, mat_get_entries
    by (split; [apply Z.rem_nonneg|apply Z.rem_bound_pos]; lia).
  cbn [from_option]. unfold load8. rewrite Hp. cbn [from_option].
  match goal with |- context [add exact (of_Z exact p) ?t] => set (threshold := t) end.
  assert (Ht : exists t, threshold = Some t /\ (t == 0)%Q).
  { unfold threshold. rewrite exact_half.
    cbn [of_Z exact div sub mul Exact.lift2].
    rewrite exact_div_Some; cycle 1.
    { change 0%Q with (inject_Z 0). rewrite inject_Z_injective. nia. }
    cbn [Exact.lift2]. eexists. split; [done|].
    change (inject_Z 0) with 0%Q. ring. }
  destruct Ht as (t & -> & Ht).
  destruct (exact_sample_plain L p t HL Hbyte Ht) as (q & Hq & Hout).
  exists q. split; [done|]. by rewrite <- Hout.
Qed.

(** The noise buffer after its fill loop. *)
Lemma noise_fill (A : arith) (G : Z -> num A) (n : nat) (i : Z) :
  0 <= i < Z.of_nat n ->
  get (for_ (Z.of_nat (length (replicate n (of_Z A 0))))
         (fun i noise => store32 A noise i (G i)) (replicate n (of_Z A 0))) i
  = Some (fround A (G i)).
Proof.
  intros Hi. rewrite length_replicate.
  apply (for_post (fun k noise => length noise = n
    /\ forall j, 0 <= j < k -> get noise j = Some (fround A (G j)))); [lia| | |].
  - split; [apply length_replicate|]. intros; lia.
  - intros k noise Hk [Hlen Hnoise]. unfold store32. rewrite length_set.
    split; [done|]. intros j Hj.
    destruct (decide (j = k)) as [->|Hne].
    + apply get_set_eq. lia.
    + rewrite get_set_ne by done. apply Hnoise. lia.
  - intros noise [_ Hnoise]. by apply Hnoise.
Qed.

Lemma Qfloor_nonneg (q : Q) : (0 <= q)%Q -> 0 <= Qfloor q.
Proof. intros Hq. change 0 with (Qfloor 0). by apply Qfloor_resp_le. Qed.

(** The grain of pixel column [x] is a column of the noise buffer. *)
Lemma grain_in_range (n x : Z) (g : Q) :
  (1 <= g)%Q -> 0 <= x < n ->
  0 <= Qfloor (inject_Z x / g) < Qceiling (inject_Z n / g).
Proof.
  intros Hg Hx.
  assert (H0 : (0 <= inject_Z x)%Q)
    by (change 0%Q with (inject_Z 0); rewrite <- Zle_Qle; lia).
  assert (H1 : (inject_Z x < inject_Z n)%Q) by (rewrite <- Zlt_Qlt; lia).
  split.
  - apply Qfloor_nonneg. apply Qle_shift_div_l; lra.
  - rewrite Zlt_Qlt.
    eapply Qle_lt_trans; [apply Qfloor_le|].
    eapply Qlt_le_trans; [|apply Qle_ceiling].
    apply Qlt_shift_div_l; [lra|].
    assert (E : (inject_Z x / g * g == inject_Z x)%Q) by (field; lra).
    eapply Qle_lt_trans; [apply Qle_lteq; right; exact E|done].
Qed.

Lemma randomDither_strength_0 (random : Z -> num exact) (pixels : list Z)
    (width height : Z) (g : Q) (L x y c p : Z) :
  (forall i, is_Some (random i)) -> (1 <= g)%Q ->
  2 <= L -> 0 <= x < width -> 0 <= y < height -> 0 <= c < 3 ->
  get pixels (4 * (y * width + x) + c) = Some p -> byte p ->
  exists q,
    quantize exact (Some (inject_Z p)) (Some (inject_Z L)) = Some (inject_Z q)
    /\ get (randomDither exact random pixels width height (Some 0%Q) (Some g)
              (Some (inject_Z L)))
           (4 * (y * width + x) + c) = Some q.
Proof.
  intros Hrandom Hg HL Hx Hy Hc Hp Hbyte.
  assert (Hin : 4 * (y * width + x) + c < Z.of_nat (length pixels)).
  { unfold get in Hp. destruct (0 <=? _) eqn:E; [|done].
    apply lookup_lt_Some in Hp. lia. }
  rewrite randomDither_sample by done.
  unfold load8. rewrite Hp. cbn [from_option].
  match goal with |- context [add exact (of_Z exact p) ?t] => set (noiseVal := t) end.
  assert (Ht : exists t, noiseVal = Some t /\ (t == 0)%Q).
  { unfold noiseVal. clear noiseVal.
    cbn [of_Z exact div Math_ceil Math_floor to_int Exact.lift1 Exact.to_int].
    rewrite !exact_div_Some by lra.
    cbn [Exact.lift1 Exact.to_int mul add exact Exact.lift2]. rewrite !Qtrunc_integer.
    pose proof (grain_in_range width x g Hg Hx) as Hnx.
    pose proof (grain_in_range height y g Hg Hy) as Hny.
    set (nx := Qfloor (inject_Z x / g)) in *.
    set (ny := Qfloor (inject_Z y / g)) in *.
    set (nw := Qceiling (inject_Z width / g)) in *.
    set (nh := Qceiling (inject_Z height / g)) in *.
    unfold load32_at. cbn [to_index exact].
    rewrite !(exact_div_Some _ g) by lra. cbn [Exact.lift1 Exact.lift2].
    fold nx ny.
    rewrite (exact_to_index_integer _ (ny * nw + nx))
      by (by rewrite inject_Z_plus, inject_Z_mult).
    cbn [from_option]. unfold load32.
    rewrite (noise_fill exact) by nia.
    destruct (Hrandom (ny * nw + nx)) as [rv ->].
    change (Exact.div (Some (inject_Z 1)) (Some (inject_Z 2)))
      with (Some (1 / 2)%Q).
    cbn [default fround exact sub mul Exact.lift2 of_Z].
    eexists. split; [done|]. ring. }
  destruct Ht as (t & -> & Ht).
  destruct (exact_sample_plain L p t HL Hbyte Ht) as (q & Hq & Hout).
  exists q. split; [done|]. by rewrite <- Hout.
Qed.

Lemma exact_max_1 (s : Q) :
  exists g, Math_max exact (of_Z exact 1) (Some s) = Some g /\ (1 <= g)%Q.
Proof.
  cbn [Math_max exact of_Z]. unfold Exact.max, Exact.lift2.
  change (inject_Z 1) with 1%Q.
  destruct (Qle_bool 1 s) eqn:E.
  - apply Qle_bool_iff in E. by exists s.
  - exists 1%Q. split; [done|lra].
Qed.

(** X12: at strength 0, 'bayer' and 'random' dithering reduce to plain
    quantization: every colour sample of the result is quantize of the input
    sample at the same place, for an 8-bit input sample, integer
    colorLevels >= 2 and any finite size, whatever numbers Math.random
    returns, in exact arithmetic. *)
Theorem strength_0_posterises (random : Z -> num exact) (pixels : list Z)
    (width height : Z) (algorithm : string) (size : Q) (L x y c p : Z) :
  algorithm ∈ ["bayer"; "random"]%string ->
  (forall i, is_Some (random i)) ->
  2 <= L -> 0 <= x < width -> 0 <= y < height -> 0 <= c < 3 ->
  get pixels (4 * (y * width + x) + c) = Some p -> byte p ->
  exists q,
    quantize exact (Some (inject_Z p)) (Some (inject_Z L)) = Some (inject_Z q)
    /\ get (applyDither exact random pixels width height algorithm (Some 0%Q)
              (Some size) (Some (inject_Z L)))
           (4 * (y * width + x) + c) = Some q.
Proof.
  intros Halg Hrandom HL Hx Hy Hc Hp Hbyte.
  repeat (apply elem_of_cons in Halg as [->|Halg]); [..|by apply elem_of_nil in Halg];
    unfold applyDither; cbn [String.eqb Ascii.eqb Bool.eqb andb].
  - by apply bayerDither_strength_0.
  - destruct (exact_max_1 size) as (g & -> & Hg).
    by apply randomDither_strength_0.
Qed.

Lemma strength_0_posterises_witness :
  exists q,
    quantize exact (Some (inject_Z 100)) (Some (inject_Z 4)) = Some (inject_Z q)
    /\ get (applyDither exact (fun _ => Some (1 # 3)%Q) [100; 20; 30; 255] 1 1 "random"
              (Some 0%Q) (Some 4%Q) (Some (inject_Z 4)))
           (4 * (0 * 1 + 0) + 0) = Some q.
Proof.
  apply (strength_0_posterises (fun _ => Some (1 # 3)%Q) [100; 20; 30; 255] 1 1
           "random" 4 4 0 0 0 100);
    first [lia | reflexivity | (intros; by eexists) | (unfold byte; lia) | by is_member].
Defined.

(** ** Pixel by pixel *)

Lemma get_set_same {T : Type} (a : list T) i v e :
  get (set a i v) i = Some e -> e = v.
Proof.
  intros H. destruct (decide (0 <= i < Z.of_nat (length a))) as [Hi|Hi].
  - rewrite get_set_eq in H by done. by injection H.
  - exfalso. unfold get, set in H. destruct (0 <=? i) eqn:E; [|done].
    apply lookup_lt_Some in H. rewrite length_insert in H. lia.
Qed.

(** A loop nest whose body at pixel (x, y) writes only the four samples of
    that pixel: what the body establishes for them holds at the end. *)
Lemma raster_pixels {T : Type} (body : Z -> Z -> list T -> list T)
    (V : Z -> Z -> Z -> T -> Prop) width height out0 :
  (forall x y out, 0 <= x < width -> 0 <= y < height ->
     (forall j, ~ (4 * (y * width + x) <= j < 4 * (y * width + x) + 4) ->
        get (body x y out) j = get out j)
     /\ (forall c e, 0 <= c < 4 ->
           get (body x y out) (4 * (y * width + x) + c) = Some e -> V x y c e)) ->
  forall x y c e, 0 <= x < width -> 0 <= y < height -> 0 <= c < 4 ->
    get (for_ height (fun y => for_ width (fun x out => body x y out)) out0)
        (4 * (y * width + x) + c) = Some e ->
    V x y c e.
Proof.
  intros Hbody x y c e Hx Hy Hc.
  set (ok := fun x y c (out : list T) =>
    forall e, get out (4 * (y * width + x) + c) = Some e -> V x y c e).
  enough (H : ok x y c
    (for_ height (fun y => for_ width (fun x out => body x y out)) out0)) by apply H.
  apply (for_post (fun y0 out =>
    forall x y c, 0 <= x < width -> 0 <= y < y0 -> 0 <= c < 4 -> ok x y c out));
    [lia|intros; lia| |by intros out H; apply H].
  clear x y c e Hx Hy Hc. intros y0 out Hy0 Hout.
  destruct (Z.le_gt_cases width 0) as [Hw|Hw]; [intros; lia|].
  apply (for_post (fun x0 out =>
    forall x y c, 0 <= x < width -> 0 <= y -> 0 <= c < 4 ->
      y < y0 \/ (y = y0 /\ x < x0) -> ok x y c out)); [lia| | |].
  { intros x y c Hx Hy Hc Hb. apply Hout; lia. }
  2:{ intros out' Hout' x y c Hx Hy Hc. apply Hout'; lia. }
  clear out Hout. intros x0 out Hx0 Hout x y c Hx Hy Hc Hb e.
  destruct (Hbody x0 y0 out Hx0 Hy0) as [Hkeep Hnew].
  destruct (decide (y = y0 /\ x = x0)) as [[-> ->]|Hne].
  - by apply Hnew.
  - rewrite Hkeep; [apply Hout; (done || lia)|].
    assert (y * width + x <> y0 * width + x0); [|lia].
    intros E. apply raster_inj in E; lia.
Qed.

(** The diffusion pass: a step at pixel (x, y) and channel [c] quantizes
    that sample and changes no sample before the next pixel; so every
    sample of the working buffer is quantized at the end. *)
Lemma diffusion_pass (step : Z -> Z -> Z -> list (num exact) -> list (num exact))
    (L scaledWidth scaledHeight : Z) scaled0 :
  (forall x y c scaled, 0 <= x < scaledWidth -> 0 <= y < scaledHeight -> 0 <= c < 3 ->
     (forall j, j < 4 * (y * scaledWidth + x) + 4 -> j <> 4 * (y * scaledWidth + x) + c ->
        get (step x y c scaled) j = get scaled j)
     /\ (forall e, get (step x y c scaled) (4 * (y * scaledWidth + x) + c) = Some e ->
           quantized L e)) ->
  forall x y c e, 0 <= x < scaledWidth -> 0 <= y < scaledHeight -> 0 <= c < 3 ->
    get (for_ scaledHeight (fun y => for_ scaledWidth (fun x => for_ 3 (fun c =>
           step x y c))) scaled0)
        (4 * (y * scaledWidth + x) + c) = Some e ->
    quantized L e.
Proof.
  intros Hstep x y c e Hx Hy Hc.
  set (ok := fun x y c (scaled : list (num exact)) =>
    forall e, get scaled (4 * (y * scaledWidth + x) + c) = Some e -> quantized L e).
  enough (H : ok x y c
    (for_ scaledHeight (fun y => for_ scaledWidth (fun x => for_ 3 (fun c =>
       step x y c))) scaled0)) by apply H.
  apply (for_post (fun y0 scaled =>
    forall x y c, 0 <= x < scaledWidth -> 0 <= y < y0 -> 0 <= c < 3 -> ok x y c scaled));
    [lia|intros; lia| |by intros out H; apply H].
  clear x y c e Hx Hy Hc. intros y0 scaled Hy0 Hout.
  destruct (Z.le_gt_cases scaledWidth 0) as [Hw|Hw]; [intros; lia|].
  apply (for_post (fun x0 scaled =>
    forall x y c, 0 <= x < scaledWidth -> 0 <= y -> 0 <= c < 3 ->
      y < y0 \/ (y = y0 /\ x < x0) -> ok x y c scaled)); [lia| | |].
  { intros x y c Hx Hy Hc Hb. apply Hout; lia. }
  2:{ intros out' Hout' x y c Hx Hy Hc. apply Hout'; lia. }
  clear scaled Hout. intros x0 scaled Hx0 Hout.
  apply (for_post (fun c0 scaled =>
    forall x y c, 0 <= x < scaledWidth -> 0 <= y -> 0 <= c < 3 ->
      y < y0 \/ (y = y0 /\ x < x0) \/ (y = y0 /\ x = x0 /\ c < c0) ->
      ok x y c scaled)); [lia| | |].
  { intros x y c Hx Hy Hc Hb. apply Hout; lia. }
  2:{ intros out' Hout' x y c Hx Hy Hc Hb. apply Hout'; lia. }
  clear scaled Hout. intros c0 scaled Hc0 Hout x y c Hx Hy Hc Hb e.
  destruct (Hstep x0 y0 c0 scaled Hx0 Hy0 Hc0) as [Hkeep Hnew].
  destruct (decide (y = y0 /\ x = x0 /\ c = c0)) as [(-> & -> & ->)|Hne].
  - apply Hnew.
  - rewrite Hkeep; [apply Hout; (done || lia)| |].
    + destruct (decide (y = y0 /\ x = x0)) as [[-> ->]|Hne']; [lia|].
      assert (y * scaledWidth + x < y0 * scaledWidth + x0); [|lia].
      apply raster_before; lia.
    + intros E. apply Hne.
      assert (y * scaledWidth + x = y0 * scaledWidth + x0 /\ c = c0) as [E1 ->] by lia.
      apply raster_inj in E1; lia.
Qed.

Lemma exact_quantized (L : Z) (old : num exact) :
  2 <= L -> quantized L (fround exact (quantize exact old (Some (inject_Z L)))).
Proof.
  intros HL. destruct old as [v|]; [right|by left].
  rewrite exact_quantize_level by done. by eexists.
Qed.

(** Reads of the working buffer behind stores at other indices. *)
Ltac skip_stores :=
  repeat first
    [ rewrite get_add32_ne by lia
    | rewrite get_set_ne by lia ].

Lemma fs_channel_step (L scaledWidth scaledHeight : Z) (strength : num exact)
    x y c scaled :
  2 <= L -> 0 <= x < scaledWidth -> 0 <= y < scaledHeight -> 0 <= c < 3 ->
  let scaled' :=
    fs_channel exact scaledWidth scaledHeight strength (Some (inject_Z L)) x y c scaled in
  (forall j, j < 4 * (y * scaledWidth + x) + 4 -> j <> 4 * (y * scaledWidth + x) + c ->
     get scaled' j = get scaled j)
  /\ (forall e, get scaled' (4 * (y * scaledWidth + x) + c) = Some e -> quantized L e).
Proof.
  intros HL Hx Hy Hc. cbv zeta. unfold fs_channel, store32.
  set (idx := 4 * (y * scaledWidth + x)).
  split.
  - intros j Hj Hne.
    destruct (x + 1 <? scaledWidth) eqn:E1, (y + 1 <? scaledHeight) eqn:E2,
      (0 <? x) eqn:E3; by skip_stores.
  - intros e.
    destruct (x + 1 <? scaledWidth) eqn:E1, (y + 1 <? scaledHeight) eqn:E2,
      (0 <? x) eqn:E3; skip_stores;
      intros He; apply get_set_same in He as ->; by apply exact_quantized.
Qed.

Lemma atkinson_channel_step (L scaledWidth scaledHeight : Z) (strength : num exact)
    x y c scaled :
  2 <= L -> 0 <= x < scaledWidth -> 0 <= y < scaledHeight -> 0 <= c < 3 ->
  let scaled' :=
    atkinson_channel exact scaledWidth scaledHeight strength (Some (inject_Z L))
      x y c scaled in
  (forall j, j < 4 * (y * scaledWidth + x) + 4 -> j <> 4 * (y * scaledWidth + x) + c ->
     get scaled' j = get scaled j)
  /\ (forall e, get scaled' (4 * (y * scaledWidth + x) + c) = Some e -> quantized L e).
Proof.
  intros HL Hx Hy Hc. cbv zeta. unfold atkinson_channel, store32.
  set (idx := 4 * (y * scaledWidth + x)).
  split.
  - intros j Hj Hne.
    destruct (x + 1 <? scaledWidth) eqn:E1, (x + 2 <? scaledWidth) eqn:E4,
      (y + 1 <? scaledHeight) eqn:E2, (y + 2 <? scaledHeight) eqn:E5,
      (0 <? x) eqn:E3; by skip_stores.
  - intros e.
    destruct (x + 1 <? scaledWidth) eqn:E1, (x + 2 <? scaledWidth) eqn:E4,
      (y + 1 <? scaledHeight) eqn:E2, (y + 2 <? scaledHeight) eqn:E5,
      (0 <? x) eqn:E3; try lia; skip_stores;
      intros He; apply get_set_same in He as ->; by apply exact_quantized.
Qed.

(** ** Upsampling *)

Lemma exact_max_integers a b :
  Exact.max (Some (inject_Z a)) (Some (inject_Z b)) = Some (inject_Z (Z.max a b)).
Proof.
  unfold Exact.max, Exact.lift2.
  destruct (Qle_bool (inject_Z a) (inject_Z b)) eqn:E.
  - apply Qle_bool_iff in E. rewrite <- Zle_Qle in E. by rewrite Z.max_r.
  - apply Qle_bool_false in E. rewrite <- Zlt_Qlt in E. by rewrite Z.max_l by lia.
Qed.

(** What upsampling stores for a quantized entry is a level. *)
Lemma quantized_on_palette (L : Z) (e : num exact) :
  2 <= L -> quantized L e ->
  on_palette L (to_uint8_clamp exact
    (Math_max exact (of_Z exact 0) (Math_min exact (of_Z exact 255) e))).
Proof.
  intros HL [->|[k ->]]; [by apply on_palette_zero|].
  cbn [Math_max Math_min of_Z exact].
  rewrite exact_min_integers, exact_max_integers.
  cbn [to_uint8_clamp exact Exact.to_uint8_clamp].
  rewrite clamp8_byte by lia.
  destruct (clamped_level L k HL) as (k' & Hk' & E).
  exists k'. split; [done|]. rewrite <- E. lia.
Qed.

(** The entry that upsampling reads for a sample lies in the image of the
    working buffer or outside the buffer. *)
Lemma upsample_source (P : num exact -> Prop) (scaledWidth scaledHeight : Z)
    (scaled : list (num exact)) (scale : num exact) (x y c : Z) :
  P None ->
  (forall sx sy c e, 0 <= sx < scaledWidth -> 0 <= sy < scaledHeight -> 0 <= c < 3 ->
     get scaled (4 * (sy * scaledWidth + sx) + c) = Some e -> P e) ->
  scale = None \/ (exists g, scale = Some g /\ (1 <= g)%Q) ->
  0 <= scaledWidth -> 0 <= scaledHeight -> 0 <= x -> 0 <= y -> 0 <= c < 3 ->
  let srcX := Math_min exact (Math_floor exact (div exact (of_Z exact x) scale))
                (of_Z exact (scaledWidth - 1)) in
  let srcY := Math_min exact (Math_floor exact (div exact (of_Z exact y) scale))
                (of_Z exact (scaledHeight - 1)) in
  let srcIdx := mul exact (of_Z exact 4)
                  (add exact (mul exact srcY (of_Z exact scaledWidth)) srcX) in
  P (load32_at exact scaled srcIdx)
  /\ P (load32_at exact scaled (add exact srcIdx (of_Z exact c))).
Proof.
  intros HP Hq Hscale Hsw Hsh Hx Hy Hc. cbv zeta.
  destruct Hscale as [->|(g & -> & Hg)]; [by split|].
  cbn [Math_min Math_floor div of_Z exact].
  rewrite !exact_div_Some by lra. cbn [Exact.lift1].
  rewrite !exact_min_integers.
  assert (Hfx : 0 <= Qfloor (inject_Z x / g)).
  { apply Qfloor_nonneg, Qle_shift_div_l; [lra|]. rewrite Qmult_0_l.
    change 0%Q with (inject_Z 0). by rewrite <- Zle_Qle. }
  assert (Hfy : 0 <= Qfloor (inject_Z y / g)).
  { apply Qfloor_nonneg, Qle_shift_div_l; [lra|]. rewrite Qmult_0_l.
    change 0%Q with (inject_Z 0). by rewrite <- Zle_Qle. }
  set (sx := Z.min (Qfloor (inject_Z x / g)) (scaledWidth - 1)).
  set (sy := Z.min (Qfloor (inject_Z y / g)) (scaledHeight - 1)).
  assert (Hsx : sx <= scaledWidth - 1) by lia.
  assert (Hsy : sy <= scaledHeight - 1) by lia.
  assert (Hsx' : 0 <= sx \/ (sx = -1 /\ scaledWidth = 0)) by lia.
  assert (Hsy' : 0 <= sy \/ (sy = -1 /\ scaledHeight = 0)) by lia.
  clearbody sx sy.
  cbn [mul add exact Exact.lift2].
  assert (Hread : forall c', 0 <= c' < 3 ->
    P (load32 exact scaled (4 * (sy * scaledWidth + sx) + c'))).
  { intros c' Hc'. unfold load32.
    destruct (get scaled _) as [e|] eqn:He; [|done]. cbn [default].
    destruct (decide (0 <= sx /\ 0 <= sy)) as [[H1 H2]|Hneg].
    - eapply Hq; [| | |exact He]; lia.
    - exfalso. unfold get in He. destruct (0 <=? _) eqn:E; [|done].
      apply Z.leb_le in E. nia. }
  unfold load32_at. cbn [to_index exact]. split.
  - rewrite (exact_to_index_integer _ (4 * (sy * scaledWidth + sx) + 0))
      by (rewrite Z.add_0_r; push_inject_Z).
    cbn [from_option]. apply Hread. lia.
  - rewrite (exact_to_index_integer _ (4 * (sy * scaledWidth + sx) + c))
      by push_inject_Z.
    cbn [from_option]. by apply Hread.
Qed.

Lemma upsample_samples (P : num exact -> Prop) (V : Z -> Prop) (pixels : list Z)
    (width height : Z) (scale : num exact) (scaledWidth scaledHeight : Z)
    (scaled : list (num exact)) (x y c v : Z) :
  P None ->
  (forall e, P e ->
     V (to_uint8_clamp exact
          (Math_max exact (of_Z exact 0) (Math_min exact (of_Z exact 255) e)))) ->
  (forall sx sy c e, 0 <= sx < scaledWidth -> 0 <= sy < scaledHeight -> 0 <= c < 3 ->
     get scaled (4 * (sy * scaledWidth + sx) + c) = Some e -> P e) ->
  scale = None \/ (exists g, scale = Some g /\ (1 <= g)%Q) ->
  0 <= scaledWidth -> 0 <= scaledHeight ->
  0 <= x < width -> 0 <= y < height -> 0 <= c < 3 ->
  get (upsample exact pixels width height scale scaledWidth scaledHeight scaled)
      (4 * (y * width + x) + c) = Some v ->
  V v.
Proof.
  intros HP HV Hq Hscale Hsw Hsh Hx Hy Hc Hv. unfold upsample in Hv.
  revert Hv.
  match goal with |- get (for_ _ (fun y => for_ _ (fun x out => @?body x y out)) _) _ = _
      -> _ =>
    intros Hv;
    apply (raster_pixels body (fun x y c v => c < 3 -> V v)
             width height _ ) in Hv; [by apply Hv| |lia..] end.
  clear Hv. clear x y c v Hx Hy Hc. intros x y out Hx Hy. cbv beta zeta. unfold store8. split.
  - intros j Hj. by rewrite !get_set_ne by lia.
  - intros c v Hc Hv Hc3.
    destruct (upsample_source P scaledWidth scaledHeight scaled scale x y 1
                HP Hq Hscale) as [Q0 Q1]; [lia..|].
    destruct (upsample_source P scaledWidth scaledHeight scaled scale x y 2
                HP Hq Hscale) as [_ Q2]; [lia..|].
    cbv zeta in Q0, Q1, Q2.
    assert (Hcase : c = 0 \/ c = 1 \/ c = 2) by lia.
    destruct Hcase as [-> | [-> | ->]].
    + rewrite Z.add_0_r in Hv. rewrite !get_set_ne in Hv by lia.
      apply get_set_same in Hv as ->. by apply HV.
    + rewrite !get_set_ne in Hv by lia.
      apply get_set_same in Hv as ->. by apply HV.
    + rewrite !get_set_ne in Hv by lia.
      apply get_set_same in Hv as ->. by apply HV.
Qed.

(** ** Every algorithm paints with the palette *)

Lemma bayerDither_length (A : arith) pixels width height strength size colorLevels :
  length (bayerDither A pixels width height strength size colorLevels) = length pixels.
Proof.
  unfold bayerDither. destruct (getBayerMatrix A size) as [matrix matrixSize max].
  match goal with |- length (for_ _ (fun y => for_ _ (fun x out => for_ 3
      (fun c _ => store8 _ _ _ (@?F x y c)) _)) _) = _ =>
    apply (raster_store A F width height pixels) end.
Qed.

Lemma randomDither_length (A : arith) random pixels width height strength grainSize
    colorLevels :
  length (randomDither A random pixels width height strength grainSize colorLevels)
  = length pixels.
Proof.
  unfold randomDither.
  match goal with |- length (for_ _ (fun y => for_ _ (fun x out => for_ 3
      (fun c _ => store8 _ _ _ (@?F x y c)) _)) _) = _ =>
    apply (raster_store A F width height pixels) end.
Qed.

Lemma get_Some_lt {T : Type} (a : list T) i v :
  get a i = Some v -> 0 <= i < Z.of_nat (length a).
Proof.
  unfold get. destruct (0 <=? i) eqn:E; [|done]. intros H.
  apply lookup_lt_Some in H. lia.
Qed.

Lemma exact_scale (size : num exact) :
  let scale := Math_max exact (of_Z exact 1) size in
  scale = None \/ (exists g, scale = Some g /\ (1 <= g)%Q).
Proof.
  destruct size as [s|]; [right|by left]. apply exact_max_1.
Qed.

Lemma exact_scaled_nonneg (n : Z) (scale : num exact) :
  scale = None \/ (exists g, scale = Some g /\ (1 <= g)%Q) -> 0 <= n ->
  0 <= to_int exact (Math_floor exact (div exact (of_Z exact n) scale)).
Proof.
  intros [->|(g & -> & Hg)] Hn; [done|].
  cbn [to_int Math_floor div of_Z exact]. rewrite exact_div_Some by lra.
  cbn [Exact.lift1 Exact.to_int]. rewrite Qtrunc_integer.
  apply Qfloor_nonneg, Qle_shift_div_l; [lra|]. rewrite Qmult_0_l.
  change 0%Q with (inject_Z 0). by rewrite <- Zle_Qle.
Qed.

(** X13: for every supported algorithm, strength and size (NaN included)
    and integer colorLevels L >= 2, every colour sample of a pixel of the
    width x height image that [applyDither] returns is one of the L levels
    round(k * 255 / (L - 1)), k = 0 .. L - 1, in exact arithmetic. *)
Theorem applyDither_palette (random : Z -> num exact) (pixels : list Z)
    (width height : Z) (algorithm : string) (strength size : num exact)
    (L x y c v : Z) :
  algorithm ∈ supported_algorithms ->
  2 <= L -> 0 <= x < width -> 0 <= y < height -> 0 <= c < 3 ->
  get (applyDither exact random pixels width height algorithm strength size
         (Some (inject_Z L)))
      (4 * (y * width + x) + c) = Some v ->
  on_palette L v.
Proof.
  intros Halg HL Hx Hy Hc. unfold supported_algorithms in Halg.
  pose proof (exact_scale size) as Hscale. cbv zeta in Hscale.
  repeat (apply elem_of_cons in Halg as [->|Halg]); [..|by apply elem_of_nil in Halg];
    unfold applyDither; cbn [String.eqb Ascii.eqb Bool.eqb andb]; intros Hv.
  - pose proof (get_Some_lt _ _ _ Hv) as Hin. rewrite bayerDither_length in Hin.
    rewrite bayerDither_sample in Hv by (done || lia). injection Hv as <-.
    by apply exact_sample_on_palette.
  - revert Hv. unfold floydSteinbergDither.
    apply (upsample_samples (quantized L) (on_palette L)); try done;
      try (apply exact_scaled_nonneg; (done || lia));
      [by left|intros e; by apply quantized_on_palette|].
    intros sx sy c' e Hsx Hsy Hc'. apply diffusion_pass; [|done..].
    intros. by apply fs_channel_step.
  - revert Hv. unfold atkinsonDither.
    apply (upsample_samples (quantized L) (on_palette L)); try done;
      try (apply exact_scaled_nonneg; (done || lia));
      [by left|intros e; by apply quantized_on_palette|].
    intros sx sy c' e Hsx Hsy Hc'. apply diffusion_pass; [|done..].
    intros. by apply atkinson_channel_step.
  - pose proof (get_Some_lt _ _ _ Hv) as Hin. rewrite randomDither_length in Hin.
    rewrite randomDither_sample in Hv by (done || lia). injection Hv as <-.
    by apply exact_sample_on_palette.
Qed.

Lemma applyDither_palette_witness :
  get (applyDither exact (fun _ => Some 0%Q) [100; 20; 30; 255] 1 1 "floyd-steinberg"
         (Some 1%Q) (Some 1%Q) (Some (inject_Z 4))) (4 * (0 * 1 + 0) + 0) = Some 85
  /\ on_palette 4 85.
Proof.
  split; [by vm_compute|].
  apply (applyDither_palette (fun _ => Some 0%Q) [100; 20; 30; 255] 1 1
           "floyd-steinberg" (Some 1%Q) (Some 1%Q) 4 0 0 0 85);
    first [lia | by vm_compute | by (unfold supported_algorithms; is_member)].
Defined.

(** ** A block larger than the image *)

Lemma exact_scaled_zero (n : Z) (g : Q) :
  0 <= n -> (inject_Z n < g)%Q ->
  to_int exact (Math_floor exact (div exact (of_Z exact n) (Some g))) = 0.
Proof.
  intros Hn Hg.
  assert (H0 : (0 <= inject_Z n)%Q)
    by (change 0%Q with (inject_Z 0); by rewrite <- Zle_Qle).
  cbn [to_int Math_floor div of_Z exact]. rewrite exact_div_Some by lra.
  cbn [Exact.lift1 Exact.to_int]. rewrite Qtrunc_integer.
  apply Qfloor_unique.
  - apply Qle_shift_div_l; [lra|]. change (inject_Z 0) with 0%Q. lra.
  - apply Qlt_shift_div_r; [lra|]. change (inject_Z (0 + 1)) with 1%Q. lra.
Qed.

(** X14: when size exceeds the width or the height of the image, the
    downsampled working buffer of 'floyd-steinberg' and 'atkinson' is empty
    and every colour sample of the result is 0, whatever the input, in
    exact arithmetic. *)
Theorem oversized_scale_is_black (random : Z -> num exact) (pixels : list Z)
    (width height : Z) (algorithm : string) (strength colorLevels : num exact)
    (size : Q) (x y c v : Z) :
  algorithm ∈ ["floyd-steinberg"; "atkinson"]%string ->
  (inject_Z width < size \/ inject_Z height < size)%Q ->
  0 <= x < width -> 0 <= y < height -> 0 <= c < 3 ->
  get (applyDither exact random pixels width height algorithm strength (Some size)
         colorLevels)
      (4 * (y * width + x) + c) = Some v ->
  v = 0.
Proof.
  intros Halg Hsize Hx Hy Hc.
  assert (H1 : (1 <= size)%Q).
  { assert (1 <= inject_Z width)%Q
      by (change 1%Q with (inject_Z 1); rewrite <- Zle_Qle; lia).
    assert (1 <= inject_Z height)%Q
      by (change 1%Q with (inject_Z 1); rewrite <- Zle_Qle; lia).
    destruct Hsize; lra. }
  assert (Hscale : Math_max exact (of_Z exact 1) (Some size) = Some size).
  { cbn [Math_max exact of_Z]. unfold Exact.max, Exact.lift2.
    change (inject_Z 1) with 1%Q.
    destruct (Qle_bool 1 size) eqn:E; [done|]. apply Qle_bool_false in E. lra. }
  repeat (apply elem_of_cons in Halg as [->|Halg]); [..|by apply elem_of_nil in Halg];
    unfold applyDither; cbn [String.eqb Ascii.eqb Bool.eqb andb]; rewrite Hscale;
    [unfold floydSteinbergDither|unfold atkinsonDither].
  all: apply (upsample_samples (fun e => e = None) (fun v => v = 0));
    [ done
    | by intros e ->
    |
    | right; by exists size
    | apply exact_scaled_nonneg; [right; by exists size|lia]
    | apply exact_scaled_nonneg; [right; by exists size|lia]
    | done | done | done ].
  all: intros sx sy c' e Hsx Hsy; exfalso.
  all: destruct Hsize as [Hs|Hs];
    [rewrite exact_scaled_zero in Hsx by (done || lia)
    |rewrite exact_scaled_zero in Hsy by (done || lia)]; lia.
Qed.

Lemma oversized_scale_is_black_witness :
  get (applyDither exact (fun _ => Some 0%Q) [100; 20; 30; 255; 9; 9; 9; 9] 2 1
         "atkinson" (Some 1%Q) (Some 3%Q) (Some 4%Q)) (4 * (0 * 2 + 1) + 2)
  = Some 0.
Proof.
  pose proof (oversized_scale_is_black (fun _ => Some 0%Q)
                [100; 20; 30; 255; 9; 9; 9; 9] 2 1 "atkinson" (Some 1%Q) (Some 4%Q)
                3 1 0 2) as H.
  destruct (get _ _) as [v|] eqn:E; [|by vm_compute in E].
  f_equal. apply H; first [lia | (left; reflexivity) | reflexivity | by is_member].
Defined.

(** ** The composite buffer *)

Lemma compositeGradientWithMask_pixels (A : arith) gradBuf maskBuf compBuf bgColor :
  let out := compositeGradientWithMask A gradBuf maskBuf compBuf bgColor in
  let bg := hexToRgb bgColor in
  length out = length compBuf
  /\ forall k, 0 <= k -> 4 * k < Z.of_nat (length gradBuf) ->
       let maskValue := div A (load8 A maskBuf (4 * k)) (of_Z A 255) in
       let blend c bgc :=
         Math_round A (add A (mul A (load8 A gradBuf (4 * k + c)) maskValue)
                         (mul A (of_Z A bgc) (sub A (of_Z A 1) maskValue))) in
       forall c, 0 <= c < 4 -> 4 * k + c < Z.of_nat (length compBuf) ->
         get out (4 * k + c)
         = Some (to_uint8_clamp A
             (if decide (c = 0) then blend 0 (r bg)
              else if decide (c = 1) then blend 1 (g bg)
              else if decide (c = 2) then blend 2 (b bg)
              else of_Z A 255)).
Proof.
  cbv zeta. unfold compositeGradientWithMask.
  set (n := (Z.of_nat (length gradBuf) + 3) / 4).
  assert (Hn : 0 <= n) by (apply Z.div_pos; lia).
  assert (Hk : forall k, 4 * k < Z.of_nat (length gradBuf) -> k < n).
  { intros k Hlt. assert (k + 1 <= n); [|lia].
    apply Z.div_le_lower_bound; lia. }
  match goal with |- length (for_ n ?body ?s) = _ /\ _ =>
    apply (for_post (fun k0 out => length out = length compBuf
      /\ forall k c, 0 <= k < k0 -> 0 <= c < 4 ->
           4 * k + c < Z.of_nat (length compBuf) ->
           get out (4 * k + c) = get (body k compBuf) (4 * k + c))) end;
    [done|split; [done|intros; lia]| |].
  - intros k0 out Hk0 [Hlen Hout]. unfold store8. rewrite !length_set.
    split; [done|]. intros k c Hkk Hc Hin.
    destruct (decide (k = k0)) as [->|Hne].
    + assert (Hcase : c = 0 \/ c = 1 \/ c = 2 \/ c = 3) by lia.
      destruct Hcase as [-> | [-> | [-> | ->]]]; rewrite ?Z.add_0_r in *.
      all: repeat first
        [ rewrite get_set_ne by lia
        | rewrite get_set_eq by (rewrite ?length_set; lia) ]; done.
    + rewrite !get_set_ne by lia. rewrite Hout by lia.
      unfold store8. done.
  - intros out [Hlen Hout]. split; [done|].
    intros k Hk0 Hlt c Hc Hin. rewrite Hout; [|split; [lia|by apply Hk]|lia..].
    unfold store8.
    assert (Hcase : c = 0 \/ c = 1 \/ c = 2 \/ c = 3) by lia.
    destruct Hcase as [-> | [-> | [-> | ->]]]; rewrite ?Z.add_0_r in *.
    all: repeat first
      [ rewrite get_set_ne by lia
      | rewrite get_set_eq by (rewrite ?length_set; lia) ]; done.
Qed.

Lemma compositeGradientWithMask_bytes (A : arith) gradBuf maskBuf compBuf bgColor :
  clamps A -> Forall byte compBuf ->
  Forall byte (compositeGradientWithMask A gradBuf maskBuf compBuf bgColor).
Proof.
  intros HA Hcomp. unfold compositeGradientWithMask.
  apply for_inv; [done|]. intros k out _ Hout. unfold store8.
  repeat apply Forall_set; try done; apply HA.
Qed.

Lemma compositeGradientWithMask_alpha (A : arith) gradBuf maskBuf compBuf bgColor
    (j : nat) :
  clamps A -> length gradBuf = length compBuf ->
  (j < length compBuf)%nat -> (j mod 4 = 3)%nat ->
  compositeGradientWithMask A gradBuf maskBuf compBuf bgColor !! j = Some 255.
Proof.
  intros HA Hlen Hj Hmod.
  destruct (compositeGradientWithMask_pixels A gradBuf maskBuf compBuf bgColor)
    as [_ Hpix]. cbv zeta in Hpix.
  pose proof (Nat.div_mod_eq j 4) as Hdiv.
  specialize (Hpix (Z.of_nat (j / 4)) ltac:(lia) ltac:(lia) 3 ltac:(lia) ltac:(lia)).
  rewrite get_lookup in Hpix by lia.
  replace (Z.to_nat (4 * Z.of_nat (j / 4) + 3)) with j in Hpix by lia.
  rewrite Hpix. repeat (destruct (decide _) as [?|?]; [lia|]). f_equal. apply HA.
Qed.

(** X15: [compositeGradientWithMask] keeps the length of the composite
    buffer and its samples in [0,255], and when the gradient buffer has the
    same length every alpha sample of the result is 255, in any arithmetic
    whose stores into a Uint8ClampedArray clamp. *)
Theorem compositeGradientWithMask_opaque (A : arith)
    (gradBuf maskBuf compBuf : list Z) (bgColor : string) :
  clamps A -> Forall byte compBuf -> length gradBuf = length compBuf ->
  let out := compositeGradientWithMask A gradBuf maskBuf compBuf bgColor in
  length out = length compBuf
  /\ Forall byte out
  /\ forall j : nat, (j < length out)%nat -> (j mod 4 = 3)%nat -> out !! j = Some 255.
Proof.
  intros HA Hcomp Hlen out. subst out.
  destruct (compositeGradientWithMask_pixels A gradBuf maskBuf compBuf bgColor)
    as [Hl _]. cbv zeta in Hl.
  split; [done|]. split; [by apply compositeGradientWithMask_bytes|].
  intros j Hj Hmod. rewrite Hl in Hj. by apply compositeGradientWithMask_alpha.
Qed.

Lemma compositeGradientWithMask_opaque_witness :
  let out := compositeGradientWithMask exact [10; 20; 30; 40] [255; 255; 255; 255]
               [0; 0; 0; 0] "#102030" in
  length out = 4%nat /\ Forall byte out
  /\ forall j : nat, (j < length out)%nat -> (j mod 4 = 3)%nat -> out !! j = Some 255.
Proof.
  apply (compositeGradientWithMask_opaque exact [10; 20; 30; 40] [255; 255; 255; 255]
           [0; 0; 0; 0] "#102030" exact_clamps); [|reflexivity].
  repeat constructor; unfold byte; lia.
Defined.

(** X16: the frame that [p.draw] and [p.renderAtSize] compute,
    [applyDither] of the composite of width x height buffers, has
    4 * width * height samples in [0,255] and every alpha sample 255, for
    every algorithm selector, strength, size and colorLevels, in any
    arithmetic whose stores into a Uint8ClampedArray clamp. *)
Theorem dithered_composite_opaque (A : arith) (random : Z -> num A)
    (gradBuf maskBuf compBuf : list Z) (bgColor : string) (width height : Z)
    (algorithm : string) (strength size colorLevels : num A) :
  clamps A -> Forall byte compBuf ->
  0 <= width -> 0 <= height ->
  Z.of_nat (length gradBuf) = 4 * width * height ->
  Z.of_nat (length compBuf) = 4 * width * height ->
  let out :=
    applyDither A random (compositeGradientWithMask A gradBuf maskBuf compBuf bgColor)
      width height algorithm strength size colorLevels in
  length out = length compBuf
  /\ Forall byte out
  /\ forall j : nat, (j < length out)%nat -> (j mod 4 = 3)%nat -> out !! j = Some 255.
Proof.
  intros HA Hcomp Hw Hh Hgrad Hlen out. subst out.
  set (composite := compositeGradientWithMask A gradBuf maskBuf compBuf bgColor).
  assert (Hl : length composite = length compBuf)
    by apply (compositeGradientWithMask_pixels A gradBuf maskBuf compBuf bgColor).
  assert (Hb : Forall byte composite) by (by apply compositeGradientWithMask_bytes).
  assert (Ha : forall j : nat, (j < length composite)%nat -> (j mod 4 = 3)%nat ->
            composite !! j = Some 255).
  { intros j Hj Hmod. rewrite Hl in Hj.
    apply compositeGradientWithMask_alpha; (done || lia). }
  clearbody composite. rewrite <- Hl in *. clear Hl Hcomp Hgrad compBuf.
  unfold applyDither.
  destruct (String.eqb algorithm "bayer");
    [|destruct (String.eqb algorithm "floyd-steinberg");
      [|destruct (String.eqb algorithm "atkinson");
        [|destruct (String.eqb algorithm "random")]]].
  - destruct (bayerDither_keeps_alpha A HA composite width height strength size
                colorLevels Hb) as (Hl & Hbytes & Halpha).
    split; [done|]. split; [done|]. intros j Hj Hmod.
    rewrite Halpha by done. apply Ha; [by rewrite <- Hl|done].
  - pose proof (upsample_bytes A HA composite width height (Math_max A (of_Z A 1) size))
      as Hup.
    unfold floydSteinbergDither. split; [apply Hup|]. split; [apply Hup|].
    intros j Hj Hmod.
    eapply alpha_upto_all; [by apply upsample_alpha| |done|done].
    rewrite (proj1 (Hup _ _ _)). lia.
  - pose proof (upsample_bytes A HA composite width height (Math_max A (of_Z A 1) size))
      as Hup.
    unfold atkinsonDither. split; [apply Hup|]. split; [apply Hup|].
    intros j Hj Hmod.
    eapply alpha_upto_all; [by apply upsample_alpha| |done|done].
    rewrite (proj1 (Hup _ _ _)). lia.
  - destruct (randomDither_keeps_alpha A HA random composite width height strength
                (Math_max A (of_Z A 1) size) colorLevels Hb) as (Hl & Hbytes & Halpha).
    split; [done|]. split; [done|]. intros j Hj Hmod.
    rewrite Halpha by done. apply Ha; [by rewrite <- Hl|done].
  - done.
Qed.

Lemma dithered_composite_opaque_witness :
  let out :=
    applyDither binary64 (fun _ => Binary64.of_Z 0)
      (compositeGradientWithMask binary64 [10; 20; 30; 40] [255; 255; 255; 255]
         [0; 0; 0; 0] "#102030")
      1 1 "floyd-steinberg" (Binary64.of_Z 1) (Binary64.of_Z 2) (Binary64.of_Z 4) in
  length out = 4%nat /\ Forall byte out
  /\ forall j : nat, (j < length out)%nat -> (j mod 4 = 3)%nat -> out !! j = Some 255.
Proof.
  apply (dithered_composite_opaque binary64 (fun _ => Binary64.of_Z 0)
           [10; 20; 30; 40] [255; 255; 255; 255] [0; 0; 0; 0] "#102030" 1 1
           "floyd-steinberg" (Binary64.of_Z 1) (Binary64.of_Z 2) (Binary64.of_Z 4)
           binary64_clamps); first [lia | reflexivity | idtac].
  repeat constructor; unfold byte; lia.
Defined.

(** X17: every colour sample that [compositeGradientWithMask] writes lies
    between the gradient sample and the background channel; it is the
    gradient sample where the mask is 255 and the background channel where
    the mask is 0, for 8-bit gradient and mask samples, in exact
    arithmetic. *)
Theorem compositeGradientWithMask_blend (gradBuf maskBuf compBuf : list Z)
    (bgColor : string) (k c gv m : Z) :
  0 <= k -> 0 <= c < 3 -> 4 * k + c < Z.of_nat (length compBuf) ->
  get gradBuf (4 * k + c) = Some gv -> byte gv ->
  get maskBuf (4 * k) = Some m -> byte m ->
  let bg := channel c (hexToRgb bgColor) in
  exists z,
    get (compositeGradientWithMask exact gradBuf maskBuf compBuf bgColor) (4 * k + c)
    = Some z
    /\ Z.min gv bg <= z <= Z.max gv bg
    /\ (m = 255 -> z = gv)
    /\ (m = 0 -> z = bg).
Proof.
  intros Hk Hc Hin Hgv Hgb Hm Hmb bg.
  destruct (compositeGradientWithMask_pixels exact gradBuf maskBuf compBuf bgColor)
    as [_ Hpix]. cbv zeta in Hpix.
  pose proof (get_Some_lt _ _ _ Hgv) as Hg.
  rewrite (Hpix k Hk ltac:(lia) c ltac:(lia) Hin). clear Hpix.
  assert (Hbg : byte bg).
  { unfold bg, channel. destruct (hexToRgb_bytes bgColor) as (? & ? & ?).
    repeat destruct (decide _); done. }
  set (t := (inject_Z m / 255)%Q).
  assert (Ht : (0 <= t <= 1)%Q).
  { unfold t, byte in *. split.
    - apply Qle_shift_div_l; [reflexivity|]. rewrite Qmult_0_l.
      change 0%Q with (inject_Z 0). rewrite <- Zle_Qle. lia.
    - apply Qle_shift_div_r; [reflexivity|]. rewrite Qmult_1_l.
      change 255%Q with (inject_Z 255). rewrite <- Zle_Qle. lia. }
  set (v := (inject_Z gv * t + inject_Z bg * (1 - t))%Q).
  assert (Hv : (v == inject_Z bg + (inject_Z gv - inject_Z bg) * t)%Q)
    by (unfold v; ring).
  assert (Hval : (if decide (c = 0)
      then Math_round exact (add exact
             (mul exact (load8 exact gradBuf (4 * k + 0))
                (div exact (load8 exact maskBuf (4 * k)) (of_Z exact 255)))
             (mul exact (of_Z exact (r (hexToRgb bgColor)))
                (sub exact (of_Z exact 1)
                   (div exact (load8 exact maskBuf (4 * k)) (of_Z exact 255)))))
      else if decide (c = 1)
      then Math_round exact (add exact
             (mul exact (load8 exact gradBuf (4 * k + 1))
                (div exact (load8 exact maskBuf (4 * k)) (of_Z exact 255)))
             (mul exact (of_Z exact (g (hexToRgb bgColor)))
                (sub exact (of_Z exact 1)
                   (div exact (load8 exact maskBuf (4 * k)) (of_Z exact 255)))))
      else if decide (c = 2)
      then Math_round exact (add exact
             (mul exact (load8 exact gradBuf (4 * k + 2))
                (div exact (load8 exact maskBuf (4 * k)) (of_Z exact 255)))
             (mul exact (of_Z exact (b (hexToRgb bgColor)))
                (sub exact (of_Z exact 1)
                   (div exact (load8 exact maskBuf (4 * k)) (of_Z exact 255)))))
      else of_Z exact 255) = Some (inject_Z (Qround_half_up v))).
  { assert (Hmask : load8 exact maskBuf (4 * k) = Some (inject_Z m))
      by (unfold load8; by rewrite Hm).
    assert (Hgrad : load8 exact gradBuf (4 * k + c) = Some (inject_Z gv))
      by (unfold load8; by rewrite Hgv).
    rewrite !Hmask. cbn [of_Z div exact]. rewrite exact_div_Some by done.
    unfold v, t, bg, channel.
    repeat destruct (decide _); try lia; subst c; rewrite Hgrad; reflexivity. }
  rewrite Hval. cbn [to_uint8_clamp exact Exact.to_uint8_clamp].
  assert (Hz : Z.min gv bg <= Qround_half_up v <= Z.max gv bg).
  { rewrite Z.min_comm, Z.max_comm. apply Qround_between. rewrite Hv.
    by apply blend_range. }
  exists (Qround_half_up v). unfold byte in *.
  split; [f_equal; apply clamp8_byte; lia|]. split; [done|]. split.
  - intros ->. apply Qround_half_up_integer. unfold v, t. field.
  - intros ->. apply Qround_half_up_integer. unfold v, t. field.
Qed.

Lemma compositeGradientWithMask_blend_witness :
  exists z,
    get (compositeGradientWithMask exact [10; 20; 30; 40] [128; 128; 128; 255]
           [0; 0; 0; 0] "#102030") (4 * 0 + 1) = Some z
    /\ Z.min 20 (channel 1 (hexToRgb "#102030")) <= z
       <= Z.max 20 (channel 1 (hexToRgb "#102030"))
    /\ (128 = 255 -> z = 20)
    /\ (128 = 0 -> z = channel 1 (hexToRgb "#102030")).
Proof.
  apply (compositeGradientWithMask_blend [10; 20; 30; 40] [128; 128; 128; 255]
           [0; 0; 0; 0] "#102030" 0 1 20 128);
    first [lia | reflexivity | (unfold byte; lia) | by vm_compute].
Defined.

(** ** Filling a graphics context *)

(** A loop on a state that may have failed, none of whose iterations fails. *)
Lemma for_some {S : Type} n (F : Z -> option S -> option S) (G : Z -> S -> S) s :
  (forall i s, 0 <= i < n -> F i (Some s) = Some (G i s)) ->
  for_ n F (Some s) = Some (for_ n G s).
Proof.
  intros HF. destruct (Z.le_gt_cases 0 n) as [Hn|Hn].
  - rewrite <- (Z2Nat.id n) by done.
    assert (Hle : (Z.to_nat n <= Z.to_nat n)%nat) by lia.
    revert Hle. generalize (Z.to_nat n) at 1 3 4 as k.
    induction k as [|k IH]; intros Hk; [by rewrite !for_nonpos|].
    rewrite Nat2Z.inj_succ, <- Z.add_1_r, !for_succ by lia.
    rewrite IH by lia. apply HF. lia.
  - by rewrite !for_nonpos by lia.
Qed.

Lemma fill_gradient_returns (A : arith) (gr : graphics) (colors : list string)
    (position : Z -> Z -> num A) (colour : Z -> Z -> rgb (num A)) :
  let w := g_width gr * g_density gr in
  let h := g_height gr * g_density gr in
  (forall x y, 0 <= x < w -> 0 <= y < h ->
     lerpColors A colors (position x y) = Some (colour x y)) ->
  fill_gradient A gr colors position
  = Some (Graphics (g_width gr) (g_height gr) (g_density gr)
            (for_ h (fun y => for_ w (fun x pixels => paint A w colour x y pixels))
               (g_pixels gr))).
Proof.
  intros w h Hcol. unfold fill_gradient. fold w h.
  rewrite (for_some h _
    (fun y => for_ w (fun x pixels => paint A w colour x y pixels))); [done|].
  intros y pixels Hy. apply for_some. intros x pixels' Hx.
  cbn [mbind option_bind]. by rewrite Hcol.
Qed.

Lemma paint_pixel (A : arith) (w : Z) (colour : Z -> Z -> rgb (num A)) x y pixels :
  (forall j, ~ (4 * (y * w + x) <= j < 4 * (y * w + x) + 4) ->
     get (paint A w colour x y pixels) j = get pixels j)
  /\ (forall c e, 0 <= c < 4 ->
        get (paint A w colour x y pixels) (4 * (y * w + x) + c) = Some e ->
        e = to_uint8_clamp A
              (if decide (c = 0) then r (colour x y)
               else if decide (c = 1) then g (colour x y)
               else if decide (c = 2) then b (colour x y)
               else of_Z A 255)).
Proof.
  unfold paint, store8. split.
  - intros j Hj. by rewrite !get_set_ne by lia.
  - intros c e Hc He.
    assert (Hcase : c = 0 \/ c = 1 \/ c = 2 \/ c = 3) by lia.
    destruct Hcase as [-> | [-> | [-> | ->]]]; rewrite ?Z.add_0_r in He;
      rewrite ?get_set_ne in He by lia; by apply get_set_same in He.
Qed.

Lemma length_painted (A : arith) (w h : Z) (colour : Z -> Z -> rgb (num A)) pixels :
  length (for_ h (fun y => for_ w (fun x pixels => paint A w colour x y pixels)) pixels)
  = length pixels.
Proof.
  apply (for_inv (fun out => length out = length pixels)); [done|].
  intros y out _ Hout. apply for_inv; [done|]. clear out Hout.
  intros x out _ Hout. unfold paint, store8. by rewrite !length_set.
Qed.

(** The loop fails when [lerpColors] throws at every pixel and there is a
    pixel. *)
Lemma fill_gradient_throws (A : arith) (gr : graphics) (colors : list string)
    (position : Z -> Z -> num A) :
  let w := g_width gr * g_density gr in
  let h := g_height gr * g_density gr in
  0 < w -> 0 < h ->
  (forall x y, 0 <= x < w -> 0 <= y < h -> lerpColors A colors (position x y) = None) ->
  fill_gradient A gr colors position = None.
Proof.
  intros w h Hw Hh Hcol. unfold fill_gradient. fold w h.
  match goal with |- (for_ h ?F ?s ≫= _) = None =>
    enough (H : for_ h F s = None) by (by rewrite H) end.
  apply (for_post (fun y os => 0 < y -> os = None)); [lia|lia| |intros os H; apply H; lia].
  intros y os Hy _ _.
  apply (for_post (fun x os => 0 < x -> os = None)); [lia|lia| |intros os' H; apply H; lia].
  intros x os' Hx _ _. destruct os' as [pixels|]; [|done].
  cbn [mbind option_bind]. by rewrite Hcol.
Qed.

Lemma fill_gradient_exact (gr : graphics) (colors : list string)
    (position : Z -> Z -> num exact) :
  2 <= Z.of_nat (length colors) ->
  (forall x y, 0 <= x < g_width gr * g_density gr ->
     0 <= y < g_height gr * g_density gr ->
     exists t, position x y = Some t /\ (0 <= t <= 1)%Q) ->
  exists gr', fill_gradient exact gr colors position = Some gr' /\ painted colors gr gr'.
Proof.
  intros HN Hpos.
  set (w := g_width gr * g_density gr) in *.
  set (h := g_height gr * g_density gr) in *.
  set (colour := fun x y =>
    default (Rgb None None None) (lerpColors exact colors (position x y))).
  assert (Hcol : forall x y, 0 <= x < w -> 0 <= y < h ->
    lerpColors exact colors (position x y) = Some (colour x y)
    /\ exists (i : nat) (c1 c2 : rgb Z) (zr zg zb : Z),
         (hexToRgb <$> colors) !! i = Some c1
         /\ (hexToRgb <$> colors) !! S i = Some c2
         /\ colour x y = Rgb (Some (inject_Z zr)) (Some (inject_Z zg)) (Some (inject_Z zb))
         /\ Z.min (r c1) (r c2) <= zr <= Z.max (r c1) (r c2)
         /\ Z.min (g c1) (g c2) <= zg <= Z.max (g c1) (g c2)
         /\ Z.min (b c1) (b c2) <= zb <= Z.max (b c1) (b c2)).
  { intros x y Hx Hy. destruct (Hpos x y Hx Hy) as (t & Ht & Hunit).
    destruct (lerpColors_between colors t HN Hunit)
      as (i & c1 & c2 & zr & zg & zb & H1 & H2 & E & Hr & Hg & Hb).
    unfold colour. rewrite Ht, E. split; [done|].
    by exists i, c1, c2, zr, zg, zb. }
  eexists. split.
  { apply (fill_gradient_returns exact gr colors position colour).
    intros x y Hx Hy. by apply Hcol. }
  unfold painted. cbn [g_width g_height g_density g_pixels]. fold w h.
  split; [done|]. split; [done|]. split; [done|].
  split; [apply length_painted|].
  intros x y c e Hx Hy Hc He.
  set (V := fun (x y c e : Z) =>
    if decide (c = 3) then e = 255 else between_stops colors c e).
  change (V x y c e).
  eapply (raster_pixels (fun x y pixels => paint exact w colour x y pixels) V w h);
    [|exact Hx|exact Hy|exact Hc|exact He].
  clear x y c e Hx Hy Hc He. intros x y pixels Hx Hy. unfold V.
  destruct (paint_pixel exact w colour x y pixels) as [Hkeep Hnew].
  split; [done|]. intros c e Hc He. apply Hnew in He; [|done]. subst e.
  destruct (Hcol x y Hx Hy)
    as (_ & i & c1 & c2 & zr & zg & zb & H1 & H2 & -> & Hr & Hg & Hb).
  destruct (stop_bytes colors i c1 H1) as (? & ? & ?).
  destruct (stop_bytes colors (S i) c2 H2) as (? & ? & ?).
  unfold byte in *.
  assert (Hcase : c = 0 \/ c = 1 \/ c = 2 \/ c = 3) by lia.
  destruct Hcase as [-> | [-> | [-> | ->]]];
    repeat (destruct (decide _) as [?|?]; try lia);
    cbn [r g b to_uint8_clamp exact Exact.to_uint8_clamp of_Z];
    rewrite clamp8_byte by lia; try done;
    exists i, c1, c2; unfold channel;
    repeat (destruct (decide _) as [?|?]; try lia); done.
Qed.

(** ** The three generators *)

Section Generators.

Context (Math_sqrt Math_cos Math_sin : num exact -> num exact).
Context (Math_atan2 : num exact -> num exact -> num exact).
Context (pi size : Q) (d : Z).
Hypothesis Hsqrt : forall q, (0 <= q)%Q -> is_Some (Math_sqrt (Some q)).
Hypothesis Hcos : forall q, is_Some (Math_cos (Some q)).
Hypothesis Hsin : forall q, is_Some (Math_sin (Some q)).
Hypothesis Hatan : forall p q, is_Some (Math_atan2 (Some p) (Some q)).
Hypothesis Hpi : (0 < pi)%Q.
Hypothesis Hsize : (0 < size)%Q.
Hypothesis Hd : 0 < d.

Lemma maxDist_positive : (0 < size * inject_Z d * (1 / 2))%Q.
Proof.
  assert (Hdq : (0 < inject_Z d)%Q)
    by (change 0%Q with (inject_Z 0); by rewrite <- Zlt_Qlt).
  apply Qmult_lt_0_compat; [apply Qmult_lt_0_compat; done|reflexivity].
Qed.

Lemma radial_t_unit (cx cy rotation : Q) (x y : Z) :
  exists t,
    radial_t exact Math_sqrt (Some pi) d (Some cx) (Some cy) (Some rotation)
      (Some size) x y = Some t /\ (0 <= t <= 1)%Q.
Proof.
  pose proof maxDist_positive as Hmax.
  unfold radial_t. rewrite exact_half.
  cbn [add sub mul of_Z exact Exact.lift2].
  set (dx := (inject_Z x - cx * inject_Z d)%Q).
  set (dy := (inject_Z y - cy * inject_Z d)%Q).
  destruct (Hsqrt (dx * dx + dy * dy)%Q) as [dist ->].
  { apply (Qle_trans _ (0 + 0)); [lra|apply Qplus_le_compat; apply Qsquare_nonneg]. }
  cbn [div exact]. rewrite exact_div_Some by lra.
  rewrite exact_div_Some by (Qliterals; lra).
  cbn [Math_min exact Exact.min Exact.lift2].
  rewrite exact_rem_1. cbn [add exact Exact.lift2]. rewrite exact_rem_1.
  apply wrap_negative, Qtrunc_fraction.
Qed.

Lemma linear_t_unit (w h : Z) (rotation : Q) (x y : Z) :
  exists t,
    linear_t exact Math_cos Math_sin d w h (Some rotation) (Some size) x y = Some t
    /\ (0 <= t <= 1)%Q.
Proof.
  pose proof maxDist_positive as Hmax.
  unfold linear_t. rewrite exact_half.
  destruct (Hcos rotation) as [dirX ->]. destruct (Hsin rotation) as [dirY ->].
  cbn [add sub mul div of_Z exact Exact.lift2].
  rewrite (exact_div_Some (inject_Z w)) by done.
  rewrite (exact_div_Some (inject_Z h)) by done.
  cbn [Exact.lift2]. rewrite exact_div_Some by (Qliterals; lra).
  cbn [Math_min Math_max exact Exact.min Exact.max Exact.lift2].
  eexists. split; [reflexivity|].
  repeat match goal with |- context [Qle_bool ?a ?b] =>
    let E := fresh "E" in destruct (Qle_bool a b) eqn:E;
    [apply Qle_bool_iff in E|apply Qle_bool_false in E] end;
    Qliterals; lra.
Qed.

Lemma conic_t_unit (cx cy rotation : Q) (x y : Z) :
  exists t,
    conic_t exact Math_atan2 (Some pi) d (Some cx) (Some cy) (Some rotation) x y
      = Some t /\ (0 <= t <= 1)%Q.
Proof.
  unfold conic_t.
  cbn [add sub mul of_Z exact Exact.lift2].
  destruct (Hatan (inject_Z y - cy * inject_Z d)%Q (inject_Z x - cx * inject_Z d)%Q)
    as [angle ->].
  cbn [add div exact Exact.lift2].
  rewrite exact_div_Some by (Qliterals; lra).
  rewrite exact_rem_1.
  apply wrap_negative, Qtrunc_fraction.
Qed.

End Generators.

(** X18: with at least two stops, size > 0 and a positive pixel density,
    the radial, the linear and the conic generator return for every centre
    and rotation; the graphics context keeps its dimensions and the length
    of its pixel array, and every pixel of the image is opaque with each
    colour sample between the same channel of two adjacent stops.  Exact
    arithmetic; the Math functions are any functions that return a number
    on numbers. *)
Theorem gradient_generators_paint
    (Math_sqrt Math_cos Math_sin : num exact -> num exact)
    (Math_atan2 : num exact -> num exact -> num exact)
    (gr : graphics) (colors : list string) (pi cx cy rotation size : Q) :
  (forall q, (0 <= q)%Q -> is_Some (Math_sqrt (Some q))) ->
  (forall q, is_Some (Math_cos (Some q))) ->
  (forall q, is_Some (Math_sin (Some q))) ->
  (forall p q, is_Some (Math_atan2 (Some p) (Some q))) ->
  (0 < pi)%Q -> (0 < size)%Q -> 0 < g_density gr ->
  2 <= Z.of_nat (length colors) ->
  (exists gr',
     createRadialGradient exact Math_sqrt (Some pi) gr (Some cx) (Some cy) colors
       (Some rotation) (Some size) = Some gr' /\ painted colors gr gr')
  /\ (exists gr',
        createLinearGradient exact Math_cos Math_sin gr colors (Some rotation)
          (Some size) = Some gr' /\ painted colors gr gr')
  /\ (exists gr',
        createConicGradient exact Math_atan2 (Some pi) gr (Some cx) (Some cy) colors
          (Some rotation) (Some size) = Some gr' /\ painted colors gr gr').
Proof.
  intros Hsqrt Hcos Hsin Hatan Hpi Hsize Hd HN.
  split; [|split].
  - apply fill_gradient_exact; [done|]. intros x y _ _. by apply radial_t_unit.
  - apply fill_gradient_exact; [done|]. intros x y _ _. by apply linear_t_unit.
  - apply fill_gradient_exact; [done|]. intros x y _ _. by apply conic_t_unit.
Qed.

Lemma gradient_generators_paint_witness :
  exists gr',
    createLinearGradient exact (fun _ => Some 1%Q) (fun _ => Some 0%Q)
      (Graphics 2 1 1 [0; 0; 0; 0; 0; 0; 0; 0]) ["#000000"; "#ffffff"]%string
      (Some (-1000)%Q) (Some 2%Q) = Some gr'
    /\ painted ["#000000"; "#ffffff"]%string (Graphics 2 1 1 [0; 0; 0; 0; 0; 0; 0; 0]) gr'.
Proof.
  apply (gradient_generators_paint
           (fun v => match v with
                     | Some q => Some (inject_Z (Z.sqrt (Qfloor q)))
                     | None => None
                     end)
           (fun _ => Some 1%Q) (fun _ => Some 0%Q) (fun _ _ => Some 0%Q)
           (Graphics 2 1 1 [0; 0; 0; 0; 0; 0; 0; 0]) ["#000000"; "#ffffff"]%string
           (355 # 113) 1 (1 # 2) (-1000) 2);
    first [reflexivity | by vm_compute | by eexists | intros; by eexists].
Defined.

(** X19: with fewer than two stops and at least one pixel to paint, the
    three generators throw: [lerpColors] reads a channel of an undefined
    stop at the first pixel, whatever the other arguments, in exact
    arithmetic. *)
Theorem gradient_generators_throw
    (Math_sqrt Math_cos Math_sin : num exact -> num exact)
    (Math_atan2 : num exact -> num exact -> num exact)
    (gr : graphics) (colors : list string) (pi cx cy rotation size : num exact) :
  Z.of_nat (length colors) < 2 ->
  0 < g_width gr * g_density gr -> 0 < g_height gr * g_density gr ->
  createRadialGradient exact Math_sqrt pi gr cx cy colors rotation size = None
  /\ createLinearGradient exact Math_cos Math_sin gr colors rotation size = None
  /\ createConicGradient exact Math_atan2 pi gr cx cy colors rotation size = None.
Proof.
  intros HN Hw Hh.
  repeat split; apply fill_gradient_throws; try done;
    intros x y _ _; apply lerpColors_throws; by left.
Qed.

Lemma gradient_generators_throw_witness :
  createLinearGradient exact (fun _ => Some 1%Q) (fun _ => Some 0%Q)
    (Graphics 2 1 1 [0; 0; 0; 0; 0; 0; 0; 0]) ["#000000"]%string
    (Some 0%Q) (Some 2%Q) = None.
Proof.
  apply (gradient_generators_throw (fun v => v) (fun _ => Some 1%Q) (fun _ => Some 0%Q)
           (fun _ _ => Some 0%Q) (Graphics 2 1 1 [0; 0; 0; 0; 0; 0; 0; 0])
           ["#000000"]%string (Some 3%Q) (Some 1%Q) (Some 1%Q) (Some 0%Q) (Some 2%Q));
    by vm_compute.
Defined.

(** ** A single level, in binary64 *)

(** With one level the step is 255 / 0 = Infinity; a finite value over it is
    a zero, and zero times Infinity is NaN. *)
Lemma binary64_quantize_one_level (v : num binary64) :
  quantize binary64 v (of_Z binary64 1) = S754_nan.
Proof.
  unfold quantize.
  change (div binary64 (of_Z binary64 255)
            (sub binary64 (of_Z binary64 1) (of_Z binary64 1)))
    with (S754_infinity false).
  destruct v as [s|s| |s m e]; try destruct s; reflexivity.
Qed.

(** X20: with colorLevels = 1 the quantization step is 255 / 0, [quantize]
    is NaN for every value, and 'bayer' and 'random' dithering store 0 in
    every colour sample of the image, whatever the input, strength and size,
    in binary64. *)
Theorem one_level_is_black (random : Z -> num binary64) (pixels : list Z)
    (width height : Z) (algorithm : string) (strength size : num binary64)
    (x y c : Z) :
  algorithm ∈ ["bayer"; "random"]%string ->
  0 <= x < width -> 0 <= y < height -> 0 <= c < 3 ->
  4 * (y * width + x) + c < Z.of_nat (length pixels) ->
  get (applyDither binary64 random pixels width height algorithm strength size
         (of_Z binary64 1))
      (4 * (y * width + x) + c) = Some 0.
Proof.
  intros Halg Hx Hy Hc Hin.
  repeat (apply elem_of_cons in Halg as [->|Halg]); [..|by apply elem_of_nil in Halg];
    unfold applyDither; cbn [String.eqb Ascii.eqb Bool.eqb andb].
  - rewrite bayerDither_sample by done. by rewrite binary64_quantize_one_level.
  - rewrite randomDither_sample by done. by rewrite binary64_quantize_one_level.
Qed.

Lemma one_level_is_black_witness :
  get (applyDither binary64 (fun _ => Binary64.of_Z 0) [100; 20; 30; 255] 1 1 "bayer"
         (Binary64.of_Z 1) (Binary64.of_Z 4) (of_Z binary64 1))
      (4 * (0 * 1 + 0) + 1) = Some 0.
Proof.
  apply (one_level_is_black (fun _ => Binary64.of_Z 0) [100; 20; 30; 255] 1 1 "bayer"
           (Binary64.of_Z 1) (Binary64.of_Z 4) 0 0 1);
    first [lia | by vm_compute | by is_member].
Defined.

(** ** The colours of the controls *)

(** X21: the colour stops collected from the controls are
    color1 .. colorN in order, where N <= 8 and color(N+1) is the first
    that is missing or empty; a colour after the first gap is left out. *)
Theorem extractColors_prefix (ctrl : gmap string string) :
  let colors := extractColors ctrl in
  let n := Z.of_nat (length colors) in
  n <= 8
  /\ (forall i : nat, Z.of_nat i < n ->
        truthy ctrl (color_key (Z.of_nat i + 1))
        /\ ctrl !! color_key (Z.of_nat i + 1) = colors !! i)
  /\ (n < 8 -> ~ truthy ctrl (color_key (n + 1))).
Proof.
  cbv zeta. unfold extractColors.
  apply (for_post (fun k (state : list string * bool) =>
    let colors := state.1 in
    let n := Z.of_nat (length colors) in
    (forall i : nat, Z.of_nat i < n ->
       truthy ctrl (color_key (Z.of_nat i + 1))
       /\ ctrl !! color_key (Z.of_nat i + 1) = colors !! i)
    /\ if state.2 then n < k /\ ~ truthy ctrl (color_key (n + 1)) else n = k));
    [lia| | |].
  - cbn. split; [intros; lia|done].
  - intros k [colors stopped] Hk. cbn [fst snd]. intros [Hpre Hn].
    destruct stopped; [cbn [fst snd]; destruct Hn; split; [done|split; [lia|done]]|].
    destruct (ctrl !! color_key (k + 1)) as [[|a rest]|] eqn:E; cbn [fst snd].
    + split; [done|]. split; [lia|]. rewrite Hn. intros (v & Hv & Hne). congruence.
    + rewrite length_app. cbn [length]. split; [|lia].
      intros i Hi. destruct (decide (Z.of_nat i < k)) as [Hlt|Hge].
      * rewrite lookup_app_l by lia. apply Hpre. lia.
      * assert (Hik : Z.of_nat i = k) by lia.
        rewrite lookup_app_r, Hik by lia.
        replace (i - length colors)%nat with 0%nat by lia.
        split; [by eexists|done].
    + split; [done|]. split; [lia|]. rewrite Hn. intros (v & Hv & Hne). congruence.
  - intros [colors stopped]. cbn [fst snd]. intros [Hpre Hn].
    split; [destruct stopped; lia|]. split; [done|].
    intros Hlt. destruct stopped; [tauto|lia].
Qed.

(** ** Blocks and grains *)

(** What upsampling stores for a colour sample of pixel (x, y). *)
Lemma upsample_sample (A : arith) (pixels : list Z) (width height : Z)
    (scale : num A) (scaledWidth scaledHeight : Z) (scaled : list (num A))
    (x y c e : Z) :
  0 <= x < width -> 0 <= y < height -> 0 <= c < 3 ->
  get (upsample A pixels width height scale scaledWidth scaledHeight scaled)
      (4 * (y * width + x) + c) = Some e ->
  let srcX := Math_min A (Math_floor A (div A (of_Z A x) scale))
                (of_Z A (scaledWidth - 1)) in
  let srcY := Math_min A (Math_floor A (div A (of_Z A y) scale))
                (of_Z A (scaledHeight - 1)) in
  let srcIdx := mul A (of_Z A 4) (add A (mul A srcY (of_Z A scaledWidth)) srcX) in
  e = to_uint8_clamp A (Math_max A (of_Z A 0) (Math_min A (of_Z A 255)
        (load32_at A scaled
           (if decide (c = 0) then srcIdx else add A srcIdx (of_Z A c))))).
Proof.
  intros Hx Hy Hc He. cbv zeta. unfold upsample in He. revert He.
  set (V := fun (x y c e : Z) => c < 3 ->
    e = to_uint8_clamp A (Math_max A (of_Z A 0) (Math_min A (of_Z A 255)
          (load32_at A scaled
             (if decide (c = 0)
              then mul A (of_Z A 4)
                     (add A (mul A (Math_min A (Math_floor A (div A (of_Z A y) scale))
                                      (of_Z A (scaledHeight - 1)))
                               (of_Z A scaledWidth))
                        (Math_min A (Math_floor A (div A (of_Z A x) scale))
                           (of_Z A (scaledWidth - 1))))
              else add A
                     (mul A (of_Z A 4)
                        (add A (mul A (Math_min A (Math_floor A (div A (of_Z A y) scale))
                                         (of_Z A (scaledHeight - 1)))
                                  (of_Z A scaledWidth))
                           (Math_min A (Math_floor A (div A (of_Z A x) scale))
                              (of_Z A (scaledWidth - 1)))))
                     (of_Z A c)))))).
  match goal with |- get (for_ _ (fun y => for_ _ (fun x out => @?body x y out)) _) _ = _
      -> _ =>
    intros He; apply (raster_pixels body V width height _) in He;
      [apply He; lia| |lia..] end.
  clear He. clear x y c e Hx Hy Hc. intros x y out Hx Hy. cbv beta zeta.
  unfold store8, V. split.
  - intros j Hj. by rewrite !get_set_ne by lia.
  - intros c e Hc He Hc3.
    assert (Hcase : c = 0 \/ c = 1 \/ c = 2) by lia.
    destruct Hcase as [-> | [-> | ->]]; rewrite ?Z.add_0_r in He;
      rewrite !get_set_ne in He by lia; apply get_set_same in He as ->; done.
Qed.

(** X22: 'floyd-steinberg' and 'atkinson' paint in blocks: for an integer
    size >= 1, two pixels with the same floor(x / size) and the same
    floor(y / size) get the same colour samples, whatever the input and the
    other parameters, in exact arithmetic. *)
Theorem diffusion_blocks (random : Z -> num exact) (pixels : list Z)
    (width height : Z) (algorithm : string) (strength colorLevels : num exact)
    (size x y x' y' c e e' : Z) :
  algorithm ∈ ["floyd-steinberg"; "atkinson"]%string ->
  1 <= size ->
  0 <= x < width -> 0 <= y < height -> 0 <= x' < width -> 0 <= y' < height ->
  0 <= c < 3 ->
  x / size = x' / size -> y / size = y' / size ->
  let out := applyDither exact random pixels width height algorithm strength
               (Some (inject_Z size)) colorLevels in
  get out (4 * (y * width + x) + c) = Some e ->
  get out (4 * (y' * width + x') + c) = Some e' ->
  e = e'.
Proof.
  intros Halg Hs Hx Hy Hx' Hy' Hc Ex Ey out. subst out.
  assert (Hscale : Math_max exact (of_Z exact 1) (Some (inject_Z size))
                   = Some (inject_Z size)).
  { cbn [Math_max exact of_Z]. rewrite exact_max_integers. do 2 f_equal. lia. }
  repeat (apply elem_of_cons in Halg as [->|Halg]); [..|by apply elem_of_nil in Halg];
    unfold applyDither; cbn [String.eqb Ascii.eqb Bool.eqb andb]; rewrite Hscale;
    [unfold floydSteinbergDither|unfold atkinsonDither].
  all: intros He He'.
  all: apply upsample_sample in He; [|done..].
  all: apply upsample_sample in He'; [|done..].
  all: cbv zeta in He, He'.
  all: rewrite !exact_upsample_source in He, He' by lia.
  all: rewrite He, He', Ex, Ey; reflexivity.
Qed.

Lemma diffusion_blocks_witness :
  let out := applyDither exact (fun _ => Some 0%Q)
               [100; 20; 30; 255; 7; 8; 9; 255; 1; 2; 3; 255; 4; 5; 6; 255] 2 2
               "floyd-steinberg" (Some 1%Q) (Some (inject_Z 2)) (Some 4%Q) in
  get out (4 * (0 * 2 + 0) + 0) = Some 85 /\ get out (4 * (1 * 2 + 1) + 0) = Some 85.
Proof.
  cbv zeta.
  assert (H0 : get (applyDither exact (fun _ => Some 0%Q)
                      [100; 20; 30; 255; 7; 8; 9; 255; 1; 2; 3; 255; 4; 5; 6; 255] 2 2
                      "floyd-steinberg" (Some 1%Q) (Some (inject_Z 2)) (Some 4%Q))
                 (4 * (0 * 2 + 0) + 0) = Some 85) by (by vm_compute).
  split; [exact H0|].
  destruct (get _ (4 * (1 * 2 + 1) + 0)) as [e'|] eqn:E; [|by vm_compute in E].
  f_equal. symmetry.
  apply (diffusion_blocks (fun _ => Some 0%Q)
           [100; 20; 30; 255; 7; 8; 9; 255; 1; 2; 3; 255; 4; 5; 6; 255] 2 2
           "floyd-steinberg" (Some 1%Q) (Some 4%Q) 2 0 0 1 1 0 85 e');
    first [lia | reflexivity | exact H0 | exact E | by is_member].
Defined.

(** X23: random dithering draws one noise value per grain: for size >= 1,
    two pixels with the same floor(x / size) and the same floor(y / size)
    whose input samples of a colour channel are equal get equal output
    samples of that channel, whatever Math.random returns, in exact
    arithmetic. *)
Theorem randomDither_grains (random : Z -> num exact) (pixels : list Z)
    (width height : Z) (strength colorLevels : num exact) (size : Q)
    (x y x' y' c : Z) :
  (1 <= size)%Q ->
  0 <= x < width -> 0 <= y < height -> 0 <= x' < width -> 0 <= y' < height ->
  0 <= c < 3 ->
  Qfloor (inject_Z x / size) = Qfloor (inject_Z x' / size) ->
  Qfloor (inject_Z y / size) = Qfloor (inject_Z y' / size) ->
  is_Some (get pixels (4 * (y * width + x) + c)) ->
  get pixels (4 * (y * width + x) + c) = get pixels (4 * (y' * width + x') + c) ->
  let out := applyDither exact random pixels width height "random" strength
               (Some size) colorLevels in
  get out (4 * (y * width + x) + c) = get out (4 * (y' * width + x') + c).
Proof.
  intros Hs Hx Hy Hx' Hy' Hc Ex Ey [v Hv] Hpix out. subst out.
  assert (Hscale : Math_max exact (of_Z exact 1) (Some size) = Some size).
  { cbn [Math_max exact of_Z]. unfold Exact.max, Exact.lift2.
    change (inject_Z 1) with 1%Q.
    destruct (Qle_bool 1 size) eqn:E; [done|]. apply Qle_bool_false in E. lra. }
  unfold applyDither; cbn [String.eqb Ascii.eqb Bool.eqb andb]. rewrite Hscale.
  assert (H1 := get_Some_lt _ _ _ Hv). rewrite Hpix in Hv.
  assert (H2 := get_Some_lt _ _ _ Hv).
  rewrite !randomDither_sample by (done || lia).
  unfold load8. rewrite <- Hpix.
  cbn [Math_floor div of_Z exact]. rewrite !(exact_div_Some _ size) by lra.
  cbn [Exact.lift1]. by rewrite Ex, Ey.
Qed.

Lemma randomDither_grains_witness :
  let out := applyDither exact (fun i => Some (inject_Z i / 10)%Q)
               [100; 20; 30; 255; 100; 8; 9; 255] 2 1
               "random" (Some 1%Q) (Some 2%Q) (Some 4%Q) in
  get out (4 * (0 * 2 + 0) + 0) = get out (4 * (0 * 2 + 1) + 0).
Proof.
  apply (randomDither_grains (fun i => Some (inject_Z i / 10)%Q)
           [100; 20; 30; 255; 100; 8; 9; 255] 2 1 (Some 1%Q) (Some 4%Q) 2 0 0 1 0 0);
    first [lia | reflexivity | by vm_compute | by eexists].
Defined.

(** ** Error diffusion without error *)

Lemma same_number_refl e : same_number e e.
Proof. destruct e; [reflexivity|done]. Qed.

Lemma same_number_trans e1 e2 e3 :
  same_number e1 e2 -> same_number e2 e3 -> same_number e1 e3.
Proof.
  destruct e1, e2, e3; cbn; try done. intros H1 H2. by rewrite H1.
Qed.

Lemma same_numbers_refl a : same_numbers a a.
Proof. intros j e H. exists e. split; [done|apply same_number_refl]. Qed.

Lemma same_numbers_trans a b c :
  same_numbers a b -> same_numbers b c -> same_numbers a c.
Proof.
  intros Hab Hbc j e3 H3.
  destruct (Hbc j e3 H3) as (e2 & H2 & R2).
  destruct (Hab j e2 H2) as (e1 & H1 & R1).
  exists e1. split; [done|]. by eapply same_number_trans.
Qed.

(** Adding zero in place changes no number of the buffer. *)
Lemma same_numbers_add32 (a : list (num exact)) (i : Z) (z : Q) :
  (z == 0)%Q -> same_numbers a (add32 exact a i (Some z)).
Proof.
  intros Hz j e' H. destruct (decide (j = i)) as [->|Hne].
  - pose proof (get_Some_lt _ _ _ H) as Hi. rewrite length_add32 in Hi.
    rewrite get_add32_eq in H by done. injection H as <-.
    unfold load32.
    destruct (lookup_lt_is_Some_2 a (Z.to_nat i)) as [e He]; [lia|].
    rewrite get_lookup, He by lia. exists e. split; [done|].
    destruct e as [q|]; cbn; [|done]. rewrite Hz. ring.
  - rewrite get_add32_ne in H by done. exists e'.
    split; [done|apply same_number_refl].
Qed.

(** A guarded addition of zero. *)
Lemma same_numbers_guarded (guard : bool) (a b : list (num exact)) (i : Z) (z : Q) :
  (z == 0)%Q -> same_numbers a b ->
  same_numbers a (if guard then add32 exact b i (Some z) else b).
Proof.
  intros Hz Hab. destruct guard; [|done].
  eapply same_numbers_trans; [exact Hab|by apply same_numbers_add32].
Qed.

(** The error of a finite sample at strength 0. *)
Lemma exact_error_zero (L : Z) (q0 : Q) :
  2 <= L ->
  exists z,
    mul exact (sub exact (Some q0) (quantize exact (Some q0) (Some (inject_Z L))))
      (Some 0%Q) = Some z /\ (z == 0)%Q.
Proof.
  intros HL. rewrite exact_quantize_level by done.
  cbn [mul sub exact Exact.lift2]. eexists. split; [done|ring].
Qed.

Lemma fs_channel_zero (L scaledWidth scaledHeight x y c : Z)
    (scaled : list (num exact)) (q0 : Q) :
  2 <= L ->
  load32 exact scaled (4 * (y * scaledWidth + x) + c) = Some q0 ->
  same_numbers
    (store32 exact scaled (4 * (y * scaledWidth + x) + c)
       (quantize exact (Some q0) (Some (inject_Z L))))
    (fs_channel exact scaledWidth scaledHeight (Some 0%Q) (Some (inject_Z L))
       x y c scaled).
Proof.
  intros HL Hold. unfold fs_channel. rewrite Hold.
  destruct (exact_error_zero L q0 HL) as (z & -> & Hz).
  cbn [mul div of_Z exact Exact.lift2].
  rewrite !exact_div_Some by done.
  repeat first
    [ apply same_numbers_guarded; [rewrite Hz; field|]
    | eapply same_numbers_trans; [|apply same_numbers_add32; rewrite Hz; field]
    | match goal with |- same_numbers _ (if ?g then ?u else ?v) =>
        destruct g end
    | apply same_numbers_refl ].
Qed.

Lemma atkinson_channel_zero (L scaledWidth scaledHeight x y c : Z)
    (scaled : list (num exact)) (q0 : Q) :
  2 <= L ->
  load32 exact scaled (4 * (y * scaledWidth + x) + c) = Some q0 ->
  same_numbers
    (store32 exact scaled (4 * (y * scaledWidth + x) + c)
       (quantize exact (Some q0) (Some (inject_Z L))))
    (atkinson_channel exact scaledWidth scaledHeight (Some 0%Q) (Some (inject_Z L))
       x y c scaled).
Proof.
  intros HL Hold. unfold atkinson_channel. rewrite Hold.
  destruct (exact_error_zero L q0 HL) as (z & -> & Hz).
  cbn [mul div of_Z exact Exact.lift2].
  rewrite !exact_div_Some by done.
  repeat first
    [ apply same_numbers_guarded; [rewrite Hz; field|]
    | eapply same_numbers_trans; [|apply same_numbers_add32; rewrite Hz; field]
    | match goal with |- same_numbers _ (if ?g then ?u else ?v) =>
        destruct g end
    | apply same_numbers_refl ].
Qed.

(** The diffusion pass with a property of the samples not yet visited: a
    step at pixel (x, y) and channel [c] keeps the length of the buffer,
    changes no sample before the next pixel, settles its own sample and
    keeps what holds of the later ones. *)
Lemma diffusion_pass_settles (Done Todo : Z -> Z -> Z -> num exact -> Prop)
    (step : Z -> Z -> Z -> list (num exact) -> list (num exact))
    (scaledWidth scaledHeight : Z) (len : nat) scaled0 :
  (forall x y c scaled, 0 <= x < scaledWidth -> 0 <= y < scaledHeight -> 0 <= c < 3 ->
     length scaled = len ->
     (forall e, get scaled (4 * (y * scaledWidth + x) + c) = Some e -> Todo x y c e) ->
     length (step x y c scaled) = len
     /\ (forall j, j < 4 * (y * scaledWidth + x) + 4 ->
           j <> 4 * (y * scaledWidth + x) + c ->
           get (step x y c scaled) j = get scaled j)
     /\ (forall e, get (step x y c scaled) (4 * (y * scaledWidth + x) + c) = Some e ->
           Done x y c e)
     /\ (forall x' y' c' e', 0 <= x' < scaledWidth -> 0 <= y' < scaledHeight ->
           0 <= c' < 3 ->
           4 * (y' * scaledWidth + x') + c' <> 4 * (y * scaledWidth + x) + c ->
           (forall e, get scaled (4 * (y' * scaledWidth + x') + c') = Some e ->
              Todo x' y' c' e) ->
           get (step x y c scaled) (4 * (y' * scaledWidth + x') + c') = Some e' ->
           Todo x' y' c' e')) ->
  length scaled0 = len ->
  (forall x y c e, 0 <= x < scaledWidth -> 0 <= y < scaledHeight -> 0 <= c < 3 ->
     get scaled0 (4 * (y * scaledWidth + x) + c) = Some e -> Todo x y c e) ->
  forall x y c e, 0 <= x < scaledWidth -> 0 <= y < scaledHeight -> 0 <= c < 3 ->
    get (for_ scaledHeight (fun y => for_ scaledWidth (fun x => for_ 3 (fun c =>
           step x y c))) scaled0)
        (4 * (y * scaledWidth + x) + c) = Some e ->
    Done x y c e.
Proof.
  intros Hstep Hlen0 Hinit x y c e Hx Hy Hc.
  set (pos := fun x y c => 4 * (y * scaledWidth + x) + c).
  (* [visited x y c]: sample (x, y, c) has had its step *)
  set (inv := fun (visited : Z -> Z -> Z -> Prop) (scaled : list (num exact)) =>
    length scaled = len
    /\ forall x y c, 0 <= x < scaledWidth -> 0 <= y < scaledHeight -> 0 <= c < 3 ->
         forall e, get scaled (pos x y c) = Some e ->
           (visited x y c -> Done x y c e) /\ (~ visited x y c -> Todo x y c e)).
  enough (H : inv (fun _ _ _ => True)
    (for_ scaledHeight (fun y => for_ scaledWidth (fun x => for_ 3 (fun c =>
       step x y c))) scaled0)).
  { intros He. by apply (proj2 H x y c Hx Hy Hc e He). }
  assert (Hh : 0 <= scaledHeight) by lia. clear x y c e Hx Hy Hc.
  apply (for_post (fun y0 => inv (fun x y c => y < y0))); [lia| | |].
  { split; [done|]. intros x y c Hx Hy Hc e He.
    split; [intros H; lia|]. intros _. by apply Hinit. }
  2:{ intros scaled [Hl H]. split; [done|]. intros x y c Hx Hy Hc e He.
      destruct (H x y c Hx Hy Hc e He) as [H1 _]. split; [|tauto].
      intros _. apply H1. lia. }
  intros y0 scaled Hy0 [Hlen Hinv].
  destruct (Z.le_gt_cases scaledWidth 0) as [Hw|Hw].
  { rewrite for_nonpos by done. split; [done|]. intros x y c Hx. lia. }
  apply (for_post (fun x0 => inv (fun x y c => y < y0 \/ (y = y0 /\ x < x0))));
    [lia| | |].
  { split; [done|]. intros x y c Hx Hy Hc e He.
    destruct (Hinv x y c Hx Hy Hc e He) as [H1 H2].
    split; [intros H; apply H1; lia|intros H; apply H2; lia]. }
  2:{ intros scaled' [Hl H]. split; [done|]. intros x y c Hx Hy Hc e He.
      destruct (H x y c Hx Hy Hc e He) as [H1 H2].
      split; [intros H'; apply H1; lia|intros H'; apply H2; lia]. }
  clear scaled Hlen Hinv. intros x0 scaled Hx0 [Hlen Hinv].
  apply (for_post (fun c0 => inv (fun x y c =>
    y < y0 \/ (y = y0 /\ x < x0) \/ (y = y0 /\ x = x0 /\ c < c0)))); [lia| | |].
  { split; [done|]. intros x y c Hx Hy Hc e He.
    destruct (Hinv x y c Hx Hy Hc e He) as [H1 H2].
    split; [intros H; apply H1; lia|intros H; apply H2; lia]. }
  2:{ intros scaled' [Hl H]. split; [done|]. intros x y c Hx Hy Hc e He.
      destruct (H x y c Hx Hy Hc e He) as [H1 H2].
      split; [intros H'; apply H1; lia|intros H'; apply H2; lia]. }
  clear scaled Hlen Hinv. intros c0 scaled Hc0 [Hlen Hinv].
  assert (Htodo : forall e, get scaled (pos x0 y0 c0) = Some e -> Todo x0 y0 c0 e).
  { intros e He. apply (Hinv x0 y0 c0 Hx0 Hy0 Hc0 e He). lia. }
  destruct (Hstep x0 y0 c0 scaled Hx0 Hy0 Hc0 Hlen Htodo)
    as (Hlen' & Hkeep & Hnew & Hlater).
  split; [done|].
  intros x y c Hx Hy Hc e He.
  destruct (decide (y = y0 /\ x = x0 /\ c = c0)) as [(-> & -> & ->)|Hne].
  { split; [intros _; by apply Hnew|intros H; exfalso; apply H; lia]. }
  assert (Hpos : pos x y c <> pos x0 y0 c0).
  { unfold pos. intros E. apply Hne.
    assert (y * scaledWidth + x = y0 * scaledWidth + x0 /\ c = c0) as [E1 ->] by lia.
    apply raster_inj in E1; lia. }
  destruct (decide (y < y0 \/ (y = y0 /\ x < x0) \/ (y = y0 /\ x = x0 /\ c < c0)))
    as [Hbefore|Hafter].
  - split; [intros _|intros H; exfalso; apply H; lia].
    unfold pos in *. rewrite Hkeep in He; [|..|done].
    + apply (Hinv x y c Hx Hy Hc e He). lia.
    + destruct (decide (y = y0 /\ x = x0)) as [[-> ->]|Hne']; [lia|].
      assert (y * scaledWidth + x < y0 * scaledWidth + x0); [|lia].
      apply raster_before; lia.
  - split; [intros H; exfalso; apply Hafter; lia|intros _].
    apply (Hlater x y c e Hx Hy Hc Hpos); [|done].
    intros e0 He0. apply (Hinv x y c Hx Hy Hc e0 He0). lia.
Qed.

Lemma fs_channel_own (A : arith) (scaledWidth scaledHeight : Z)
    (strength colorLevels : num A) x y c scaled :
  0 <= x < scaledWidth -> 0 <= c < 3 ->
  let scaled' := fs_channel A scaledWidth scaledHeight strength colorLevels x y c scaled in
  length scaled' = length scaled
  /\ forall e, get scaled' (4 * (y * scaledWidth + x) + c) = Some e ->
       e = fround A (quantize A (load32 A scaled (4 * (y * scaledWidth + x) + c))
                       colorLevels).
Proof.
  intros Hx Hc. cbv zeta. unfold fs_channel, store32.
  set (idx := 4 * (y * scaledWidth + x)).
  destruct (x + 1 <? scaledWidth) eqn:E1, (y + 1 <? scaledHeight) eqn:E2,
    (0 <? x) eqn:E3; (split; [by rewrite ?length_add32, ?length_set|]);
    intros e; skip_stores; intros He; by apply get_set_same in He.
Qed.

Lemma atkinson_channel_own (A : arith) (scaledWidth scaledHeight : Z)
    (strength colorLevels : num A) x y c scaled :
  0 <= x < scaledWidth -> 0 <= c < 3 ->
  let scaled' :=
    atkinson_channel A scaledWidth scaledHeight strength colorLevels x y c scaled in
  length scaled' = length scaled
  /\ forall e, get scaled' (4 * (y * scaledWidth + x) + c) = Some e ->
       e = fround A (quantize A (load32 A scaled (4 * (y * scaledWidth + x) + c))
                       colorLevels).
Proof.
  intros Hx Hc. cbv zeta. unfold atkinson_channel, store32.
  set (idx := 4 * (y * scaledWidth + x)).
  destruct (x + 1 <? scaledWidth) eqn:E1, (x + 2 <? scaledWidth) eqn:E4,
    (y + 1 <? scaledHeight) eqn:E2, (y + 2 <? scaledHeight) eqn:E5,
    (0 <? x) eqn:E3; try lia;
    (split; [by rewrite ?length_add32, ?length_set|]);
    intros e; skip_stores; intros He; by apply get_set_same in He.
Qed.

(** At strength 0 the pass quantizes every sample of the working buffer
    where it is; [original x y c] is the 8-bit sample the buffer holds for
    channel [c] of pixel (x, y) before the pass. *)
Lemma diffusion_pass_zero
    (step : Z -> Z -> Z -> list (num exact) -> list (num exact))
    (original : Z -> Z -> Z -> Z) (L scaledWidth scaledHeight : Z) scaled0 :
  2 <= L ->
  (forall x y c scaled, 0 <= x < scaledWidth -> 0 <= c < 3 ->
     length (step x y c scaled) = length scaled
     /\ forall e, get (step x y c scaled) (4 * (y * scaledWidth + x) + c) = Some e ->
          e = fround exact (quantize exact
                (load32 exact scaled (4 * (y * scaledWidth + x) + c))
                (Some (inject_Z L)))) ->
  (forall x y c scaled, 0 <= x < scaledWidth -> 0 <= y < scaledHeight -> 0 <= c < 3 ->
     forall j, j < 4 * (y * scaledWidth + x) + 4 -> j <> 4 * (y * scaledWidth + x) + c ->
       get (step x y c scaled) j = get scaled j) ->
  (forall x y c scaled q0,
     load32 exact scaled (4 * (y * scaledWidth + x) + c) = Some q0 ->
     same_numbers
       (store32 exact scaled (4 * (y * scaledWidth + x) + c)
          (quantize exact (Some q0) (Some (inject_Z L))))
       (step x y c scaled)) ->
  Z.of_nat (length scaled0) = 4 * scaledWidth * scaledHeight ->
  (forall x y c, 0 <= x < scaledWidth -> 0 <= y < scaledHeight -> 0 <= c < 3 ->
     get scaled0 (4 * (y * scaledWidth + x) + c) = Some (Some (inject_Z (original x y c)))) ->
  forall x y c e, 0 <= x < scaledWidth -> 0 <= y < scaledHeight -> 0 <= c < 3 ->
    get (for_ scaledHeight (fun y => for_ scaledWidth (fun x => for_ 3 (fun c =>
           step x y c))) scaled0)
        (4 * (y * scaledWidth + x) + c) = Some e ->
    e = quantize exact (Some (inject_Z (original x y c))) (Some (inject_Z L)).
Proof.
  intros HL Hown Hkeep Hzero Hlen Hinit.
  assert (HLQ : (2 <= inject_Z L)%Q)
    by (change 2%Q with (inject_Z 2); by rewrite <- Zle_Qle).
  apply (diffusion_pass_settles
    (fun x y c e => e = quantize exact (Some (inject_Z (original x y c)))
                          (Some (inject_Z L)))
    (fun x y c e => exists q, e = Some q /\ (q == inject_Z (original x y c))%Q)
    step scaledWidth scaledHeight (length scaled0)); [|done|].
  2:{ intros x y c e Hx Hy Hc He. rewrite Hinit in He by done. injection He as <-.
      by eexists. }
  intros x y c scaled Hx Hy Hc Hl Htodo.
  destruct (Hown x y c scaled Hx Hc) as [Hl' Hnew].
  assert (Hin : 0 <= 4 * (y * scaledWidth + x) + c < Z.of_nat (length scaled)) by nia.
  destruct (lookup_lt_is_Some_2 scaled (Z.to_nat (4 * (y * scaledWidth + x) + c)))
    as [e0 He0]; [lia|].
  rewrite <- get_lookup in He0 by lia.
  destruct (Htodo e0 He0) as (q0 & -> & Hq0).
  assert (Hload : load32 exact scaled (4 * (y * scaledWidth + x) + c) = Some q0)
    by (unfold load32; by rewrite He0).
  split; [by rewrite Hl'|]. split; [by apply Hkeep|]. split.
  - intros e He. apply Hnew in He. rewrite Hload in He. subst e.
    by apply exact_quantize_Qeq.
  - intros x' y' c' e' Hx' Hy' Hc' Hpos Htodo' He'.
    destruct (Hzero x y c scaled q0 Hload _ _ He') as (e1 & He1 & Hsame).
    unfold store32 in He1. rewrite get_set_ne in He1 by done.
    destruct (Htodo' e1 He1) as (q1 & -> & Hq1).
    destruct e' as [q'|]; [|done]. exists q'. split; [done|].
    cbn in Hsame. by rewrite <- Hsame.
Qed.

(** At scale 1 the downsampling copies the colour samples. *)
Lemma downsample_copy (pixels : list Z) (width height : Z) :
  0 <= width -> 0 <= height ->
  let scaled := downsample exact pixels width (Some (inject_Z 1)) width height in
  Z.of_nat (length scaled) = 4 * width * height
  /\ forall x y c e, 0 <= x < width -> 0 <= y < height -> 0 <= c < 3 ->
       get scaled (4 * (y * width + x) + c) = Some e ->
       e = load8 exact pixels (4 * (y * width + x) + c).
Proof.
  intros Hw Hh. cbv zeta. unfold downsample. split.
  - apply (for_inv (fun scaled => Z.of_nat (length scaled) = 4 * width * height)).
    { rewrite length_replicate. nia. }
    intros y scaled _ Hl. apply for_inv; [done|]. clear scaled Hl.
    intros x scaled _ Hl. unfold store32. by rewrite !length_set.
  - intros x y c e Hx Hy Hc He. revert He.
    set (V := fun (x y c : Z) (e : num exact) =>
      c < 3 -> e = load8 exact pixels (4 * (y * width + x) + c)).
    match goal with
    |- get (for_ _ (fun y => for_ _ (fun x out => @?body x y out)) _) _ = _ -> _ =>
      intros He; apply (raster_pixels body V width height _) in He;
        [apply He; lia| |lia..] end.
    clear He. clear x y c e Hx Hy Hc. intros x y out Hx Hy. cbv beta zeta.
    unfold store32, V. split.
    + intros j Hj. by rewrite !get_set_ne by lia.
    + intros c e Hc He Hc3.
      assert (Hsrc : forall c', 0 <= c' < 3 ->
        to_index exact
          (add exact
             (mul exact (of_Z exact 4)
                (add exact
                   (mul exact (mul exact (of_Z exact y) (Some (inject_Z 1)))
                      (of_Z exact width))
                   (mul exact (of_Z exact x) (Some (inject_Z 1)))))
             (of_Z exact c'))
        = Some (4 * (y * width + x) + c')).
      { intros c' Hc'. cbn [add mul of_Z exact Exact.lift2 to_index].
        apply exact_to_index_integer.
        repeat (rewrite inject_Z_plus || rewrite inject_Z_mult).
        change (inject_Z 1) with 1%Q. ring. }
      assert (Hsrc0 :
        to_index exact
          (mul exact (of_Z exact 4)
             (add exact
                (mul exact (mul exact (of_Z exact y) (Some (inject_Z 1)))
                   (of_Z exact width))
                (mul exact (of_Z exact x) (Some (inject_Z 1)))))
        = Some (4 * (y * width + x))).
      { cbn [add mul of_Z exact Exact.lift2 to_index].
        apply exact_to_index_integer.
        repeat (rewrite inject_Z_plus || rewrite inject_Z_mult).
        change (inject_Z 1) with 1%Q. ring. }
      assert (Hcase : c = 0 \/ c = 1 \/ c = 2) by lia.
      destruct Hcase as [-> | [-> | ->]]; rewrite ?Z.add_0_r in He;
        rewrite !get_set_ne in He by lia; apply get_set_same in He as ->;
        unfold load8_at; rewrite ?Hsrc0, ?Hsrc by lia; cbn [from_option fround exact];
        by rewrite ?Z.add_0_r.
Qed.

Lemma length_diffusion_pass {T : Type} (step : Z -> Z -> Z -> list T -> list T)
    (scaledWidth scaledHeight : Z) (scaled : list T) :
  (forall x y c scaled, 0 <= x < scaledWidth -> 0 <= c < 3 ->
     length (step x y c scaled) = length scaled) ->
  length (for_ scaledHeight (fun y => for_ scaledWidth (fun x => for_ 3 (fun c =>
            step x y c))) scaled) = length scaled.
Proof.
  intros Hstep.
  apply (for_inv (fun s => length s = length scaled)); [done|].
  intros y s _ Hs. apply for_inv; [done|]. clear s Hs.
  intros x s Hx Hs. apply for_inv; [done|]. clear s Hs.
  intros c s Hc Hs. by rewrite Hstep.
Qed.

(** The shell of the two diffusion algorithms at scale 1 and strength 0. *)
Lemma diffusion_zero (step : Z -> Z -> Z -> list (num exact) -> list (num exact))
    (pixels : list Z) (width height L x y c p : Z) :
  2 <= L ->
  (forall x y c scaled, 0 <= x < width -> 0 <= c < 3 ->
     length (step x y c scaled) = length scaled
     /\ forall e, get (step x y c scaled) (4 * (y * width + x) + c) = Some e ->
          e = fround exact (quantize exact
                (load32 exact scaled (4 * (y * width + x) + c))
                (Some (inject_Z L)))) ->
  (forall x y c scaled, 0 <= x < width -> 0 <= y < height -> 0 <= c < 3 ->
     forall j, j < 4 * (y * width + x) + 4 -> j <> 4 * (y * width + x) + c ->
       get (step x y c scaled) j = get scaled j) ->
  (forall x y c scaled q0,
     load32 exact scaled (4 * (y * width + x) + c) = Some q0 ->
     same_numbers
       (store32 exact scaled (4 * (y * width + x) + c)
          (quantize exact (Some q0) (Some (inject_Z L))))
       (step x y c scaled)) ->
  Z.of_nat (length pixels) = 4 * width * height ->
  0 <= x < width -> 0 <= y < height -> 0 <= c < 3 ->
  get pixels (4 * (y * width + x) + c) = Some p -> byte p ->
  exists q,
    quantize exact (Some (inject_Z p)) (Some (inject_Z L)) = Some (inject_Z q)
    /\ get (upsample exact pixels width height (Some (inject_Z 1)) width height
              (for_ height (fun y => for_ width (fun x => for_ 3 (fun c =>
                 step x y c)))
                 (downsample exact pixels width (Some (inject_Z 1)) width height)))
           (4 * (y * width + x) + c) = Some q.
Proof.
  intros HL Hown Hkeep Hzero Hlen Hx Hy Hc Hp Hbyte.
  destruct (downsample_copy pixels width height) as [Hl0 Hcopy]; [lia..|].
  cbv zeta in Hl0, Hcopy.
  set (scaled0 := downsample exact pixels width (Some (inject_Z 1)) width height) in *.
  set (scaled := for_ height (fun y => for_ width (fun x => for_ 3 (fun c =>
                   step x y c))) scaled0).
  set (original := fun x y c => default 0 (get pixels (4 * (y * width + x) + c))).
  assert (Hl : length scaled = length scaled0).
  { apply length_diffusion_pass. intros. by apply Hown. }
  assert (Hscaled : get scaled (4 * (y * width + x) + c)
                    = Some (quantize exact (Some (inject_Z p)) (Some (inject_Z L)))).
  { destruct (lookup_lt_is_Some_2 scaled (Z.to_nat (4 * (y * width + x) + c)))
      as [e He]; [nia|].
    rewrite <- get_lookup in He by nia. rewrite He. f_equal.
    replace p with (original x y c) by (unfold original; by rewrite Hp).
    revert He. apply (diffusion_pass_zero step original L width height scaled0);
      [exact HL|exact Hown|exact Hkeep|exact Hzero|exact Hl0| |done..].
    intros x' y' c' Hx' Hy' Hc'.
    destruct (lookup_lt_is_Some_2 scaled0 (Z.to_nat (4 * (y' * width + x') + c')))
      as [e0 He0]; [nia|].
    rewrite <- get_lookup in He0 by nia. refine (eq_trans He0 _). f_equal.
    rewrite (Hcopy x' y' c' e0) by done. unfold load8, original.
    destruct (lookup_lt_is_Some_2 pixels (Z.to_nat (4 * (y' * width + x') + c')))
      as [v Hv]; [nia|].
    rewrite get_lookup, Hv by nia. done. }
  rewrite exact_quantize_level in Hscaled |- * by done.
  set (q := level L (Qround_half_up (inject_Z p / (255 / (inject_Z L - 1))))) in *.
  assert (Hq : 0 <= q <= 255).
  { apply level_byte; [done|]. apply level_index_range; [done|]. unfold byte in Hbyte.
    change 0%Q with (inject_Z 0). change 255%Q with (inject_Z 255).
    rewrite <- !Zle_Qle. lia. }
  exists q. split; [done|].
  destruct (upsample_bytes exact exact_clamps pixels width height (Some (inject_Z 1))
              width height scaled) as [Hlo _]. cbv zeta in Hlo.
  match goal with |- get ?out ?pos = _ =>
    destruct (lookup_lt_is_Some_2 out (Z.to_nat pos)) as [e He]; [nia|] end.
  rewrite <- get_lookup in He by nia. rewrite He. f_equal.
  apply upsample_sample in He; [|done..]. cbv zeta in He.
  rewrite !exact_upsample_source in He by lia.
  rewrite !Z.div_1_r, !Z.min_l in He by lia.
  assert (Hread : forall c', c' = 0 \/ c' = c ->
    load32_at exact scaled
      (if decide (c' = 0)
       then mul exact (of_Z exact 4)
              (add exact (mul exact (Some (inject_Z y)) (of_Z exact width))
                 (Some (inject_Z x)))
       else add exact
              (mul exact (of_Z exact 4)
                 (add exact (mul exact (Some (inject_Z y)) (of_Z exact width))
                    (Some (inject_Z x))))
              (of_Z exact c'))
    = load32 exact scaled (4 * (y * width + x) + c')).
  { intros c' _. unfold load32_at.
    destruct (decide (c' = 0)) as [->|_]; cbn [add mul of_Z exact Exact.lift2 to_index].
    - rewrite (exact_to_index_integer _ (4 * (y * width + x) + 0))
        by (rewrite Z.add_0_r; push_inject_Z). done.
    - rewrite (exact_to_index_integer _ (4 * (y * width + x) + c')) by push_inject_Z.
      done. }
  rewrite Hread in He by (by right). unfold load32 in He. rewrite Hscaled in He.
  cbn [default from_option id Math_max Math_min of_Z exact] in He. unfold id in He.
  rewrite exact_min_integers, exact_max_integers in He.
  cbn [to_uint8_clamp exact Exact.to_uint8_clamp] in He.
  rewrite clamp8_byte in He by lia. lia.
Qed.

(** X24: at strength 0 and integer size <= 1, 'floyd-steinberg' and
    'atkinson' reduce to plain quantization as well: on a width x height
    buffer every colour sample of the result is quantize of the input
    sample at the same place, for an 8-bit input sample and integer
    colorLevels >= 2, in exact arithmetic. *)
Theorem diffusion_strength_0_posterises (random : Z -> num exact) (pixels : list Z)
    (width height : Z) (algorithm : string) (size L x y c p : Z) :
  algorithm ∈ ["floyd-steinberg"; "atkinson"]%string ->
  2 <= L -> size <= 1 ->
  Z.of_nat (length pixels) = 4 * width * height ->
  0 <= x < width -> 0 <= y < height -> 0 <= c < 3 ->
  get pixels (4 * (y * width + x) + c) = Some p -> byte p ->
  exists q,
    quantize exact (Some (inject_Z p)) (Some (inject_Z L)) = Some (inject_Z q)
    /\ get (applyDither exact random pixels width height algorithm (Some 0%Q)
              (Some (inject_Z size)) (Some (inject_Z L)))
           (4 * (y * width + x) + c) = Some q.
Proof.
  intros Halg HL Hsize Hlen Hx Hy Hc Hp Hbyte.
  assert (Hscale : Math_max exact (of_Z exact 1) (Some (inject_Z size))
                   = Some (inject_Z 1)).
  { cbn [Math_max exact of_Z]. rewrite exact_max_integers. do 2 f_equal. lia. }
  assert (Hdim : forall n, to_int exact (Math_floor exact
                   (div exact (of_Z exact n) (Some (inject_Z 1)))) = n).
  { intros n. rewrite exact_scaled_dimension by lia. apply Z.div_1_r. }
  repeat (apply elem_of_cons in Halg as [->|Halg]); [..|by apply elem_of_nil in Halg];
    unfold applyDither; cbn [String.eqb Ascii.eqb Bool.eqb andb]; rewrite Hscale;
    [unfold floydSteinbergDither|unfold atkinsonDither]; rewrite !Hdim.
  - apply (diffusion_zero
      (fun x y c => fs_channel exact width height (Some 0%Q) (Some (inject_Z L)) x y c));
      try done.
    + intros. by apply fs_channel_own.
    + intros x' y' c' scaled Hx' Hy' Hc'. by apply fs_channel_step.
    + intros. by apply fs_channel_zero.
  - apply (diffusion_zero
      (fun x y c =>
         atkinson_channel exact width height (Some 0%Q) (Some (inject_Z L)) x y c));
      try done.
    + intros. by apply atkinson_channel_own.
    + intros x' y' c' scaled Hx' Hy' Hc'. by apply atkinson_channel_step.
    + intros. by apply atkinson_channel_zero.
Qed.

Lemma diffusion_strength_0_posterises_witness :
  exists q,
    quantize exact (Some (inject_Z 100)) (Some (inject_Z 4)) = Some (inject_Z q)
    /\ get (applyDither exact (fun _ => Some 0%Q) [100; 20; 30; 255; 7; 8; 9; 255] 2 1
              "atkinson" (Some 0%Q) (Some (inject_Z 1)) (Some (inject_Z 4)))
           (4 * (0 * 2 + 0) + 0) = Some q.
Proof.
  apply (diffusion_strength_0_posterises (fun _ => Some 0%Q)
           [100; 20; 30; 255; 7; 8; 9; 255] 2 1 "atkinson" 1 4 0 0 0 100);
    first [lia | reflexivity | (unfold byte; lia) | by is_member].
Defined.
